(** * Audiobookshelf organizer: a shallow embedding of the resolution and
      organizing pipeline, and the properties of it that were checked.

    The Python sources embedded here are [utils.py], [config_loader.py],
    [audible_client.py], [file_manager.py], [metadata_writer.py] and
    [main.py].  Each module below carries the name of the source file it
    follows.  Definitions come first, theorems after them. *)

From Stdlib Require Import ZArith NArith List String Ascii Bool Lia DecimalString.
From stdpp Require Import base tactics list option.
Import ListNotations.
Local Open Scope Z_scope.

(** ** Python values *)

Module Py.

(** A Python [str] is a sequence of Unicode code points. *)
Definition str := list N.

(** String literals of the sources, written as Rocq strings. *)
Definition lit (s : string) : str := map N_of_ascii (list_ascii_of_string s).

Definition str_eqb (a b : str) : bool := bool_decide (a = b).

(** The exceptions the embedded code can raise. *)
Inductive exn :=
| KeyError | TypeError | AttributeError | IndexError | OSError | ValueError.

Inductive result (A : Type) :=
| Ok (a : A)
| Raise (e : exn).
Arguments Ok {A} a.
Arguments Raise {A} e.

Definition rbind {A B} (r : result A) (k : A -> result B) : result B :=
  match r with Ok a => k a | Raise e => Raise e end.

(** What [json.load] builds, and what the dictionaries of the program
    hold.  A [float] is kept as its IEEE-754 binary64 bit pattern; a [dict]
    is an association list in insertion order. *)
#[warnings="-register-all"]
Inductive pyval :=
| PNone
| PBool (b : bool)
| PInt (z : Z)
| PFloat (bits : Z)
| PStr (s : str)
| PList (xs : list pyval)
| PDict (kvs : list (str * pyval)).

Definition dict := list (str * pyval).

(** [bool(v)]: [None], [False], zero, and empty strings and containers are
    false.  Both signed zeros of a float are false. *)
Definition truthy (v : pyval) : bool :=
  match v with
  | PNone => false
  | PBool b => b
  | PInt z => negb (z =? 0)
  | PFloat bits => negb (bits mod 2 ^ 63 =? 0)
  | PStr s => match s with [] => false | _ => true end
  | PList xs => match xs with [] => false | _ => true end
  | PDict kvs => match kvs with [] => false | _ => true end
  end.

Fixpoint lookup (k : str) (d : dict) : option pyval :=
  match d with
  | [] => None
  | (k', v) :: d' => if str_eqb k k' then Some v else lookup k d'
  end.

(** [d[k] = v]: an existing key keeps its place, a new one goes last. *)
Fixpoint setitem (k : str) (v : pyval) (d : dict) : dict :=
  match d with
  | [] => [(k, v)]
  | (k', v') :: d' =>
      if str_eqb k k' then (k', v) :: d' else (k', v') :: setitem k v d'
  end.

(** [d.get(k, default)] on a dict. *)
Definition dget (k : str) (default : pyval) (d : dict) : pyval :=
  match lookup k d with Some v => v | None => default end.

(** [v.get(k, default)] on any value: only a dict has the method. *)
Definition get (v : pyval) (k : str) (default : pyval) : result pyval :=
  match v with
  | PDict d => Ok (dget k default d)
  | _ => Raise AttributeError
  end.

(** [v[k]] with a string key. *)
Definition getitem (v : pyval) (k : str) : result pyval :=
  match v with
  | PDict d => match lookup k d with Some x => Ok x | None => Raise KeyError end
  | _ => Raise TypeError
  end.

(** [v[0]]. *)
Definition getitem0 (v : pyval) : result pyval :=
  match v with
  | PList (x :: _) => Ok x
  | PList [] => Raise IndexError
  | PStr (c :: _) => Ok (PStr [c])
  | PStr [] => Raise IndexError
  | PDict _ => Raise KeyError
  | _ => Raise TypeError
  end.

Fixpoint is_prefix (p s : str) : bool :=
  match p, s with
  | [], _ => true
  | _ :: _, [] => false
  | a :: p', b :: s' => (a =? b)%N && is_prefix p' s'
  end.

Fixpoint is_infix (p s : str) : bool :=
  is_prefix p s || match s with [] => false | _ :: s' => is_infix p s' end.

(** [k in v] for a string [k]: key of a dict, element of a list, substring of
    a string; the other values are not iterable. *)
Definition contains (k : str) (v : pyval) : result bool :=
  match v with
  | PDict d => Ok (bool_decide (is_Some (lookup k d)))
  | PList xs =>
      Ok (existsb (fun x => match x with PStr s => str_eqb s k | _ => false end) xs)
  | PStr s => Ok (is_infix k s)
  | _ => Raise TypeError
  end.

Fixpoint join_strs (sep : str) (xs : list str) : str :=
  match xs with
  | [] => []
  | [x] => x
  | x :: xs' => x ++ sep ++ join_strs sep xs'
  end.

Fixpoint all_strs (xs : list pyval) : option (list str) :=
  match xs with
  | [] => Some []
  | PStr s :: xs' => match all_strs xs' with Some l => Some (s :: l) | None => None end
  | _ => None
  end.

(** [sep.join(v)]: [sep] must be a string, [v] an iterable of strings (a list,
    the characters of a string, the keys of a dict). *)
Definition join (sep v : pyval) : result pyval :=
  match sep with
  | PStr d =>
      match v with
      | PList xs =>
          match all_strs xs with
          | Some l => Ok (PStr (join_strs d l))
          | None => Raise TypeError
          end
      | PStr s => Ok (PStr (join_strs d (map (fun c => [c]) s)))
      | PDict kvs => Ok (PStr (join_strs d (map fst kvs)))
      | _ => Raise TypeError
      end
  | _ => Raise AttributeError
  end.

(** Facts of the interpreter and of the Unicode database that the sources rely
    on and that are not reproduced here: the text [str()] gives for floats and
    containers, [==] between values that are not both strings or [None], the
    order between an integer and a float, and the alphanumeric and decimal
    digit tables above U+007F. *)
Record Runtime := {
  repr_other : pyval -> str;
  eq_other : pyval -> pyval -> bool;
  int_gt_float : Z -> Z -> bool;
  uni_alnum : N -> bool;
  uni_decimal : N -> bool
}.

Definition decimal (z : Z) : str := lit (NilZero.string_of_int (Z.to_int z)).

(** [str(v)], as an f-string or [str.format] inserts it. *)
Definition to_str (R : Runtime) (v : pyval) : str :=
  match v with
  | PStr s => s
  | PNone => lit "None"
  | PBool true => lit "True"
  | PBool false => lit "False"
  | PInt z => decimal z
  | _ => repr_other R v
  end.

(** [a == b]. *)
Definition eq (R : Runtime) (a b : pyval) : bool :=
  match a, b with
  | PStr s, PStr t => str_eqb s t
  | PStr _, _ | _, PStr _ => false
  | PNone, PNone => true
  | PNone, _ | _, PNone => false
  | _, _ => eq_other R a b
  end.

(** [str.isspace] for one character, which is also the class [\s] of [re] on
    [str] patterns. *)
Definition is_space (c : N) : bool :=
  ((9 <=? c) && (c <=? 13) || (28 <=? c) && (c <=? 32) || (c =? 133)
   || (c =? 160) || (c =? 5760) || (8192 <=? c) && (c <=? 8202)
   || (c =? 8232) || (c =? 8233) || (c =? 8239) || (c =? 8287)
   || (c =? 12288))%N.

Fixpoint lstrip (s : str) : str :=
  match s with
  | c :: s' => if is_space c then lstrip s' else s
  | [] => []
  end.

Definition rstrip (s : str) : str := rev (lstrip (rev s)).

(** [s.strip()]. *)
Definition strip (s : str) : str := rstrip (lstrip s).

(** [re.sub] of a pattern [c+], for a character class [c], by one space: each
    maximal run of the class becomes one space; [in_run] tells that the
    previous character was in the class. *)
Fixpoint sub_runs (cls : N -> bool) (in_run : bool) (s : str) : str :=
  match s with
  | [] => []
  | c :: rest =>
      if cls c
      then if in_run then sub_runs cls true rest
           else 32%N :: sub_runs cls true rest
      else c :: sub_runs cls false rest
  end.

(** [s.split(sep)] for a one-character separator: never empty. *)
Fixpoint split_on (sep : N) (s : str) : list str :=
  match s with
  | [] => [[]]
  | c :: s' =>
      if (c =? sep)%N then [] :: split_on sep s'
      else match split_on sep s' with
           | h :: t => (c :: h) :: t
           | [] => [[c]]
           end
  end.

(** The end of a slice [s[:k]] or of a search range, for a string of [n]
    characters: a negative bound counts from the end, and the result is
    clamped to [0..n]. *)
Definition slice_end (n k : Z) : Z :=
  if k <? 0 then Z.max 0 (n + k) else Z.min k n.

(** [s[:k]]. *)
Definition slice_to (s : str) (k : Z) : str :=
  take (Z.to_nat (slice_end (Z.of_nat (length s)) k)) s.

(** Index of the last [c] in [s], or -1. *)
Fixpoint rindex (c : N) (s : str) : Z :=
  match s with
  | [] => -1
  | x :: s' =>
      let r := rindex c s' in
      if 0 <=? r then r + 1 else if (x =? c)%N then 0 else -1
  end.

(** [s.rfind(c, 0, k)] for a one-character [c]. *)
Definition rfind (c : N) (s : str) (k : Z) : Z := rindex c (slice_to s k).

End Py.

(** ** utils.py *)

Module Utils.
Import Py.

(** The character class of INVALID_FILENAME_CHARS_RE: the two angle brackets,
    colon, double quote, slash, backslash, pipe, question mark, asterisk,
    newline, carriage return and tab. *)
Definition invalid_char (c : N) : bool :=
  ((c =? 60) || (c =? 62) || (c =? 58) || (c =? 34) || (c =? 47) || (c =? 92)
   || (c =? 124) || (c =? 63) || (c =? 42) || (c =? 10) || (c =? 13)
   || (c =? 9))%N.

(** [$] without MULTILINE holds at the end of the string and just before a
    newline that ends it; [rest] is what follows the position. *)
Definition at_dollar (rest : str) : bool :=
  match rest with
  | [] => true
  | [c] => (c =? 10)%N
  | _ => false
  end.

(** INVALID_FILENAME_CHARS_RE.sub('', s).  Every alternative of the pattern
    takes exactly one character, so the substitution drops the characters at
    which one of them matches: a character of the class, a period at [$],
    a whitespace at the start ([first]), a whitespace at [$]. *)
Fixpoint invalid_sub (first : bool) (s : str) : str :=
  match s with
  | [] => []
  | c :: rest =>
      if invalid_char c
         || (c =? 46)%N && at_dollar rest
         || first && is_space c
         || is_space c && at_dollar rest
      then invalid_sub false rest
      else c :: invalid_sub false rest
  end.

(** MULTI_SPACE_RE.sub(' ', s), the pattern being one or more whitespace. *)
Definition multi_space_sub (s : str) : str := sub_runs is_space false s.

(** The string before truncation. *)
Definition clean (filename : str) : str :=
  strip (multi_space_sub (invalid_sub true filename)).

(** The truncation to [max_length]. *)
Definition truncate (sanitized : str) (max_length : Z) : str :=
  if Z.of_nat (length sanitized) >? max_length then
    let last_space := rfind 32%N sanitized max_length in
    if last_space >? 0 then slice_to sanitized last_space
    else slice_to sanitized max_length
  else sanitized.

Definition sanitize_filename (filename : str) (max_length : Z) : str :=
  match filename with
  | [] => []
  | _ => truncate (clean filename) max_length
  end.

(** The same function on the values a dictionary can hand it: a false
    [filename] gives the empty string, anything else must be a string for
    [re.sub]; [max_length] is compared with the length, and then used as a
    slice bound, which a float cannot be. *)
Definition sanitize_filename_dyn (R : Runtime) (filename max_length : pyval)
  : result str :=
  if negb (truthy filename) then Ok []
  else match filename with
       | PStr s =>
           match max_length with
           | PInt z => Ok (sanitize_filename s z)
           | PBool b => Ok (sanitize_filename s (if b then 1 else 0))
           | PFloat bits =>
               if int_gt_float R (Z.of_nat (length (clean s))) bits
               then Raise TypeError else Ok (clean s)
           | _ => Raise TypeError
           end
       | _ => Raise TypeError
       end.

End Utils.


(** ** config_loader.py *)

Module ConfigLoader.
Import Py.

(** The loop [for key in keys: value = value[key]]. *)
Fixpoint traverse (value : pyval) (keys : list str) : result pyval :=
  match keys with
  | [] => Ok value
  | key :: keys' => rbind (getitem value key) (fun v => traverse v keys')
  end.

(** Only [KeyError] is handled. *)
Definition get_config_value (config : pyval) (key_path : str) (default : pyval)
  : result pyval :=
  let keys := split_on 46%N key_path in
  match traverse config keys with
  | Ok value => Ok value
  | Raise KeyError => Ok default
  | Raise e => Raise e
  end.

End ConfigLoader.

(** ** The outside world *)

Module World.
Import Py.

(** A [pathlib.Path] is the tuple of its [parts]: for an absolute path the
    first of them is the anchor, one slash or two, and the components that
    follow have no separator in them.  The empty tuple is [Path('.')]. *)
Definition path := list str.

Definition is_anchor (s : str) : bool := str_eqb s [47%N] || str_eqb s [47%N; 47%N].

(** [p.name]: the last component, which the anchor is not. *)
Definition name (p : path) : str :=
  match p with
  | [a] => if is_anchor a then [] else a
  | _ => List.last p []
  end.

(** [p.parent]: the anchor is its own parent. *)
Definition parent (p : path) : path :=
  match p with
  | [a] => if is_anchor a then p else []
  | _ => removelast p
  end.

(** [p / s] for a string [s] without separators, which is what the callers
    pass: an empty string or a single period adds nothing. *)
Definition div (p : path) (s : str) : path :=
  if str_eqb s [] || str_eqb s [46%N] then p else p ++ [s].

(** [str(p)]: the anchor, then the components joined by slashes; a period
    for the empty path. *)
Definition path_str (p : path) : str :=
  match p with
  | [] => [46%N]
  | a :: rest => if is_anchor a then a ++ join_strs [47%N] rest else join_strs [47%N] p
  end.

(** [p.suffix] and [p.stem], from the last period of the name when it is
    neither the first nor the last character (pathlib up to Python 3.12). *)
Definition suffix_at (nm : str) : option nat :=
  let i := rindex 46%N nm in
  if (0 <? i) && (i <? Z.of_nat (length nm) - 1) then Some (Z.to_nat i) else None.

Definition suffix (p : path) : str :=
  match suffix_at (name p) with Some i => drop i (name p) | None => [] end.

Definition stem_of (nm : str) : str :=
  match suffix_at nm with Some i => take i nm | None => nm end.

(** What tag_reader.read_tags returns: it handles every exception itself. *)
Record Tags := { tag_asin : option str; tag_title : option str; tag_author : option str }.

(** The functions that touch the file system. *)
Inductive site :=
| CreateBookStructure | SafeFileOp | MoveToFailedFolder | WriteMetadataFiles
| SafeWrite | AppendToProcessedLog.

Inductive fs_op :=
| Mkdir (p : path)                      (* p.mkdir(parents=True, exist_ok=True) *)
| Copy2 (src dst : path)                (* shutil.copy2 *)
| Move (src dst : path)                 (* shutil.move *)
| WriteText (p : path) (content : pyval)  (* open(p, 'w') and f.write *)
| WriteJson (p : path) (data : pyval)   (* open(p, 'w') and json.dump *)
| Chmod (p : path) (mode : Z).

(** What a dry run decides on and logs in place of acting.  The line about
    a failed file names its destination; the source is the file that
    move_to_failed_folder was given. *)
Inductive would :=
| WouldCreateFolder (p : path)
| WouldPlace (move : bool) (src dst : path)
| WouldFail (move : bool) (src dst : path)
| WouldDownload (url : pyval) (dst : path).

Inductive event :=
| EvReadTags (file : str)
| EvGet (url : str) (num_results : option Z)     (* session.get of the catalog *)
| EvFs (by_ : site) (op : fs_op)
| EvCover (url : pyval) (dst : path)             (* the cover fetched and saved *)
| EvWould (w : would).

(** session.get: a response with its status and, when the body is JSON, the
    value it parses to; or an exception of [requests]. *)
Inductive http_outcome :=
| Response (status : Z) (body : option pyval)
| RequestException.

Inductive cover_outcome := CoverSaved | CoverRequestFailed | CoverOSError.

(** The collaborators.  Each answer may depend on everything that happened
    before, so a server or a disk that changes between calls is covered.
    [fs_ok] tells whether a file-system call succeeds; when not, the call
    raises [OSError].  The field parser of the catalog payload
    (_parse_product_json) and the text of the package document (built in
    write_opf) are taken as they come: a result or an exception for each
    input. *)
Record Env := {
  runtime : Runtime;
  read_tags : list event -> str -> Tags;
  session_get : list event -> str -> option Z -> http_outcome;
  fs_ok : list event -> fs_op -> bool;
  path_exists : list event -> path -> bool;
  cover_get : list event -> pyval -> path -> cover_outcome;
  parse_product_json : pyval -> result pyval;
  opf_document : dict -> result str
}.

(** The state of a run: what happened so far, and the dictionary of processed
    files that run_scan loads once and append_to_processed_log updates in
    place. *)
Record world := { events : list event; processed_log : dict }.

Definition emit (e : event) (w : world) : world :=
  {| events := events w ++ [e]; processed_log := processed_log w |}.

(** Computations: a result and the world after it, which an exception leaves
    as it was when raised. *)
Definition M (A : Type) : Type := world -> result A * world.

Definition ret {A} (a : A) : M A := fun w => (Ok a, w).

Definition bind {A B} (m : M A) (k : A -> M B) : M B :=
  fun w => match m w with
           | (Ok a, w') => k a w'
           | (Raise e, w') => (Raise e, w')
           end.

Definition lift {A} (r : result A) : M A := fun w => (r, w).

Definition raise {A} (e : exn) : M A := fun w => (Raise e, w).

(** [try: m except Exception: h]: every exception of the embedding is an
    [Exception]. *)
Definition try_except {A} (m : M A) (h : exn -> M A) : M A :=
  fun w => match m w with
           | (Ok a, w') => (Ok a, w')
           | (Raise e, w') => h e w'
           end.

Definition log_would (x : would) : M unit := fun w => (Ok tt, emit (EvWould x) w).

(** A file-system call: [true] when it went through, [false] when it raised
    [OSError], which every caller in the sources handles on the spot. *)
Definition fs_call (E : Env) (s : site) (op : fs_op) : M bool :=
  fun w => (Ok (fs_ok E (events w) op), emit (EvFs s op) w).

Definition exists_ (E : Env) (p : path) : M bool :=
  fun w => (Ok (path_exists E (events w) p), w).

End World.

Declare Scope m_scope.
Delimit Scope m_scope with M.
Notation "x <- m ;; k" := (World.bind m (fun x => k))
  (at level 100, m at next level, right associativity) : m_scope.
Notation "m ;;; k" := (World.bind m (fun _ => k))
  (at level 100, right associativity) : m_scope.

Local Open Scope m_scope.

(** ** audible_client.py *)

Module AudibleClient.
Import Py World.

Definition DIRECT_ASIN_URL_TEMPLATE (asin : str) : str :=
  lit "https://api.audible.com/1.0/catalog/products/" ++ asin
  ++ lit "?response_groups=contributors,media,product_desc,product_details,product_plans,rating,reviews,sample,series&image_sizes=500,700,1000".

Definition KEYWORD_SEARCH_URL_TEMPLATE (keywords : str) : str :=
  lit "https://api.audible.com/1.0/catalog/products?response_groups=product_attrs&image_sizes=100&num_results=5&products_sort_by=Relevance&keywords="
  ++ keywords.

(** _make_api_request.  Statuses 401, 403 and 404 give [None]; so do the
    other 4xx and 5xx statuses through raise_for_status, an exception of the
    transport, and a body that is not JSON (the decoding error of [requests]
    is one of its request exceptions). *)
Definition _make_api_request (E : Env) (url : str) (params : option Z) : M pyval :=
  fun w =>
    let out := session_get E (events w) url params in
    let w' := emit (EvGet url params) w in
    match out with
    | RequestException => (Ok PNone, w')
    | Response status body =>
        if (status =? 401) || (status =? 403) then (Ok PNone, w')
        else if status =? 404 then (Ok PNone, w')
        else if (400 <=? status) && (status <? 600) then (Ok PNone, w')
        else match body with
             | Some data => (Ok data, w')
             | None => (Ok PNone, w')
             end
    end.

(** The test [data and key in data]. *)
Definition has_key (data : pyval) (key : str) : result bool :=
  if truthy data then contains key data else Ok false.

Definition search_by_keywords (E : Env) (keywords : pyval) (num_results : Z)
  : M pyval :=
  let url := KEYWORD_SEARCH_URL_TEMPLATE (to_str (runtime E) keywords) in
  data <- _make_api_request E url (Some num_results) ;;
  found <- lift (has_key data (lit "products")) ;;
  if (found : bool) then lift (getitem data (lit "products"))
  else ret PNone.

Definition get_metadata_by_asin (E : Env) (asin : pyval) : M pyval :=
  let direct_url := DIRECT_ASIN_URL_TEMPLATE (to_str (runtime E) asin) in
  data <- _make_api_request E direct_url None ;;
  found <- lift (has_key data (lit "product")) ;;
  if (found : bool) then
    product <- lift (getitem data (lit "product")) ;;
    lift (parse_product_json E product)
  else
    search_results <- search_by_keywords E asin 1 ;;
    if negb (truthy search_results) then ret PNone
    else
      first <- lift (getitem0 search_results) ;;
      matched_asin <- lift (get first (lit "asin") PNone) ;;
      if negb (truthy matched_asin) then ret PNone
      else if eq (runtime E) matched_asin asin then
        let direct_url := DIRECT_ASIN_URL_TEMPLATE (to_str (runtime E) matched_asin) in
        data <- _make_api_request E direct_url None ;;
        found <- lift (has_key data (lit "product")) ;;
        if (found : bool) then
          product <- lift (getitem data (lit "product")) ;;
          lift (parse_product_json E product)
        else ret PNone
      else ret PNone.

(** download_cover.  The request exceptions are handled; an [OSError] of
    opening the file is not one of them. *)
Definition download_cover (E : Env) (cover_url : pyval) (save_path : path)
    (dry_run : bool) : M bool :=
  if negb (truthy cover_url) then ret false
  else if dry_run then (log_would (WouldDownload cover_url save_path) ;;; ret true)
  else fun w =>
    let w' := emit (EvCover cover_url save_path) w in
    match cover_get E (events w) cover_url save_path with
    | CoverSaved => (Ok true, w')
    | CoverRequestFailed => (Ok false, w')
    | CoverOSError => (Raise OSError, w')
    end.

End AudibleClient.

(** ** file_manager.py *)

Module FileManager.
Import Py World Utils.

(** The f-string of both the folder name and the file name:
    a space, then the authors and the year, each in braces. *)
Definition braces (R : Runtime) (all_authors_str year_str : pyval) : str :=
  lit " {" ++ to_str R all_authors_str ++ lit "} {" ++ to_str R year_str ++ lit "}".

Definition max_filename_length (config : pyval) : result pyval :=
  rbind (get config (lit "organizer") (PDict []))
        (fun organizer_cfg => get organizer_cfg (lit "max_filename_length") (PInt 200)).

(** create_book_structure, up to the folder it decides on: [None] when the
    title is empty. *)
Definition target_folder_of (R : Runtime) (output_dir : path) (metadata : dict)
    (config : pyval) : result (option path) :=
  rbind (max_filename_length config) (fun max_len =>
  rbind (if truthy (dget (lit "authors") PNone metadata)
         then rbind (getitem (PDict metadata) (lit "authors")) getitem0
         else Ok (PStr (lit "Unknown Author"))) (fun primary_author =>
  rbind (sanitize_filename_dyn R primary_author max_len) (fun author_folder_name =>
  let all_authors_str :=
    dget (lit "formatted_album_artist") (PStr (lit "Unknown Author")) metadata in
  rbind (sanitize_filename_dyn R (dget (lit "title") (PStr []) metadata) max_len)
        (fun title_str =>
  match title_str with
  | [] => Ok None
  | _ =>
      let year_str := dget (lit "formatted_year") (PStr []) metadata in
      rbind (sanitize_filename_dyn R (dget (lit "series") (PStr []) metadata) max_len)
            (fun series_str =>
      let book_folder_name := title_str ++ braces R all_authors_str year_str in
      rbind (sanitize_filename_dyn R (PStr book_folder_name) max_len)
            (fun book_folder_name =>
      let target_folder := div output_dir author_folder_name in
      let target_folder :=
        match series_str with [] => target_folder | _ => div target_folder series_str end in
      Ok (Some (div target_folder book_folder_name))))
  end)))).

Definition create_book_structure (E : Env) (output_dir : path) (metadata : dict)
    (config : pyval) (dry_run : bool) : M (option path) :=
  decided <- lift (target_folder_of (runtime E) output_dir metadata config) ;;
  match decided with
  | None => ret None
  | Some target_folder =>
      if dry_run then
        log_would (WouldCreateFolder target_folder) ;;; ret (Some target_folder)
      else
        ok <- fs_call E CreateBookStructure (Mkdir target_folder) ;;
        if (ok : bool) then ret (Some target_folder) else ret None
  end.

(** _safe_file_op: an [OSError] is logged and nothing else. *)
Definition _safe_file_op (E : Env) (source dest : path) (move : bool) : M unit :=
  _ok <- fs_call E SafeFileOp (if move then Move source dest else Copy2 source dest) ;;
  ret tt.

(** The new file name of organize_audio_file. *)
Definition new_filename_of (R : Runtime) (source_file : path) (metadata : dict)
    (config : pyval) : result str :=
  rbind (max_filename_length config) (fun max_len =>
  rbind (sanitize_filename_dyn R (dget (lit "title") (PStr []) metadata) max_len)
        (fun title_str =>
  rbind (sanitize_filename_dyn R (dget (lit "series") (PStr []) metadata) max_len)
        (fun series_str =>
  let all_authors_str :=
    dget (lit "formatted_album_artist") (PStr (lit "Unknown Author")) metadata in
  let year_str := dget (lit "formatted_year") (PStr []) metadata in
  let series_part :=
    match series_str with [] => [] | _ => lit " {" ++ series_str ++ lit "}" end in
  let new_filename_base := title_str ++ series_part ++ braces R all_authors_str year_str in
  sanitize_filename_dyn R (PStr (new_filename_base ++ suffix source_file)) max_len))).

Definition organize_audio_file (E : Env) (source_file output_dir : path)
    (metadata : dict) (config : pyval) (dry_run move : bool) : M (option path) :=
  target <- create_book_structure E output_dir metadata config dry_run ;;
  match target with
  | None => ret None
  | Some target_folder =>
      new_filename <- lift (new_filename_of (runtime E) source_file metadata config) ;;
      let target_file_path := div target_folder new_filename in
      (if dry_run then log_would (WouldPlace move source_file target_file_path)
       else _safe_file_op E source_file target_file_path move) ;;;
      ret (Some target_folder)
  end.

Definition FAILED_DIR : str := lit "__FAILED_TO_PROCESS__".

Definition move_to_failed_folder (E : Env) (source_file output_dir : path)
    (dry_run move : bool) : M unit :=
  let failed_dir := div output_dir FAILED_DIR in
  let dest := div failed_dir (name source_file) in
  if dry_run then log_would (WouldFail move source_file dest)
  else
    ok <- fs_call E MoveToFailedFolder (Mkdir failed_dir) ;;
    if (ok : bool) then
      _ok <- fs_call E MoveToFailedFolder
               (if move then Move source_file dest else Copy2 source_file dest) ;;
      ret tt
    else ret tt.

End FileManager.

(** ** metadata_writer.py *)

Module MetadataWriter.
Import Py World.

(** _safe_write: an [OSError] of opening the file is logged; writing
    something that is not a string raises [TypeError]. *)
Definition _safe_write (E : Env) (p : path) (content : pyval) : M unit :=
  ok <- fs_call E SafeWrite (WriteText p content) ;;
  if (ok : bool) then
    match content with PStr _ => ret tt | _ => raise TypeError end
  else ret tt.

(** write_opf; the text of the document is built before the file is opened. *)
Definition write_opf (E : Env) (metadata : dict) (folder_path : path)
    (dry_run : bool) : M unit :=
  if dry_run then ret tt
  else
    xml_content <- lift (opf_document E metadata) ;;
    _safe_write E (div folder_path (lit "book.opf")) (PStr xml_content).

Definition write_text_if (E : Env) (p : path) (content : pyval) (dry_run : bool)
  : M unit :=
  if truthy content then (if dry_run then ret tt else _safe_write E p content)
  else ret tt.

Definition write_metadata_files (E : Env) (metadata : dict) (folder_path : path)
    (dry_run : bool) (create_opf : pyval) : M unit :=
  present <- exists_ E folder_path ;;
  go_on <- (if (present : bool) then ret true
            else if dry_run then ret true
            else fs_call E WriteMetadataFiles (Mkdir folder_path)) ;;
  if (go_on : bool) then
    (if truthy create_opf then write_opf E metadata folder_path dry_run
     else
       write_text_if E (div folder_path (lit "desc.txt"))
         (dget (lit "description") PNone metadata) dry_run ;;;
       write_text_if E (div folder_path (lit "reader.txt"))
         (dget (lit "formatted_narrator") PNone metadata) dry_run) ;;;
    let raw_json_data := dget (lit "raw_json") PNone metadata in
    if truthy raw_json_data then
      if dry_run then ret tt
      else
        _ok <- fs_call E WriteMetadataFiles
                 (WriteJson (div folder_path (lit "metadata.json")) raw_json_data) ;;
        ret tt
    else ret tt
  else ret tt.

End MetadataWriter.

(** ** utils.py, the processed log *)

Module ProcessedLog.
Import Py World.

Definition PROCESSED_LOG_NAME : str := lit "processed_metadata.json".

Definition log_entry (metadata : dict) : pyval :=
  PDict [ (lit "title", dget (lit "title") PNone metadata);
          (lit "series", dget (lit "series") PNone metadata);
          (lit "year", dget (lit "formatted_year") PNone metadata);
          (lit "asin", dget (lit "asin") PNone metadata) ].

Definition set_entry (k : str) (v : pyval) : M unit :=
  fun w => (Ok tt, {| events := events w;
                      processed_log := setitem k v (processed_log w) |}).

Definition current_log : M dict := fun w => (Ok (processed_log w), w).

(** append_to_processed_log: the entry goes into the dictionary first; the
    file is then made writable, rewritten whole, and made read-only. *)
Definition append_to_processed_log (E : Env) (output_dir : path)
    (original_file_path : str) (metadata : dict) : M unit :=
  let log_path := div output_dir PROCESSED_LOG_NAME in
  set_entry original_file_path (log_entry metadata) ;;;
  present <- exists_ E log_path ;;
  writable <- (if (present : bool)
               then fs_call E AppendToProcessedLog (Chmod log_path 420)
               else ret true) ;;
  if (writable : bool) then
    processed_dict <- current_log ;;
    _ok <- fs_call E AppendToProcessedLog (WriteJson log_path (PDict processed_dict)) ;;
    _ok <- fs_call E AppendToProcessedLog (Chmod log_path 292) ;;
    ret tt
  else ret tt.

End ProcessedLog.

(** ** main.py, the formatter *)

(** apply_formatting_rules works on dictionary objects: it reads the one it is
    given, copies it and assigns into the copy.  The objects live in a store,
    and a dictionary is known by its place there.  What a dictionary holds
    under its keys is taken as a value: the function only reads the lists and
    the nested dictionaries, it has no operation that changes one. *)
Module Formatter.
Import Py.

Abbreviation loc := nat.
Abbreviation store := (list dict).

Definition S (A : Type) : Type := store -> result A * store.

Definition sret {A} (a : A) : S A := fun st => (Ok a, st).
Definition sbind {A B} (m : S A) (k : A -> S B) : S B :=
  fun st => match m st with
            | (Ok a, st') => k a st'
            | (Raise e, st') => (Raise e, st')
            end.
Definition slift {A} (r : result A) : S A := fun st => (r, st).

(** [d.get(k, default)] on the object at [l]. *)
Definition obj_get (l : loc) (k : str) (default : pyval) : S pyval :=
  fun st => match st !! l with
            | Some d => (Ok (dget k default d), st)
            | None => (Raise AttributeError, st)
            end.

(** [d[k]] on the object at [l]. *)
Definition obj_getitem (l : loc) (k : str) : S pyval :=
  fun st => match st !! l with
            | Some d => (getitem (PDict d) k, st)
            | None => (Raise TypeError, st)
            end.

(** [d[k] = v] on the object at [l]. *)
Definition obj_setitem (l : loc) (k : str) (v : pyval) : S unit :=
  fun st => match st !! l with
            | Some d => (Ok tt, <[l := setitem k v d]> st)
            | None => (Raise TypeError, st)
            end.

(** [d.copy()]: a new object with the same keys and values. *)
Definition obj_copy (l : loc) : S loc :=
  fun st => match st !! l with
            | Some d => (Ok (length st), st ++ [d])
            | None => (Raise AttributeError, st)
            end.

Notation "x <~ m ;; k" := (sbind m (fun x => k))
  (at level 100, m at next level, right associativity).
Notation "m ;;~ k" := (sbind m (fun _ => k))
  (at level 100, right associativity).

Definition apply_formatting_rules (metadata : loc) (config : pyval) : S loc :=
  fmt_cfg <~ slift (get config (lit "formatting") (PDict [])) ;;
  delimiter <~ slift (get fmt_cfg (lit "multi_value_delimiter") (PStr (lit " & "))) ;;
  authors <~ obj_get metadata (lit "authors") (PList []) ;;
  narrators <~ obj_get metadata (lit "narrators") (PList []) ;;
  release_date <~ obj_get metadata (lit "release_date") PNone ;;
  formatted <~ obj_copy metadata ;;
  full <~ slift (get fmt_cfg (lit "use_full_release_date_as_year") (PBool false)) ;;
  (if truthy full then obj_setitem formatted (lit "formatted_year") release_date
   else year <~ obj_get metadata (lit "year") PNone ;;
        obj_setitem formatted (lit "formatted_year") year) ;;~
  single <~ slift (get fmt_cfg (lit "single_album_artist") (PBool false)) ;;
  (if truthy single && truthy authors then
     first <~ slift (getitem0 authors) ;;
     obj_setitem formatted (lit "formatted_album_artist") first ;;~
     joined <~ slift (join delimiter authors) ;;
     obj_setitem formatted (lit "formatted_album_artists_list") joined
   else
     joined <~ slift (join delimiter authors) ;;
     obj_setitem formatted (lit "formatted_album_artist") joined ;;~
     obj_setitem formatted (lit "formatted_album_artists_list") PNone) ;;~
  album_artist <~ obj_getitem formatted (lit "formatted_album_artist") ;;
  with_narrators <~ slift (get fmt_cfg (lit "narrator_in_artist_field") (PBool true)) ;;
  artist_parts <~ (if truthy with_narrators && truthy narrators then
                     joined <~ slift (join delimiter narrators) ;;
                     sret [album_artist; joined]
                   else sret [album_artist]) ;;
  artist <~ slift (join (PStr (lit " & ")) (PList (List.filter truthy artist_parts))) ;;
  obj_setitem formatted (lit "formatted_artist") artist ;;~
  narrator <~ slift (join delimiter narrators) ;;
  obj_setitem formatted (lit "formatted_narrator") narrator ;;~
  sret formatted.

(** The formatter on a dictionary that nothing else holds: the value of the
    copy it returns. *)
Definition format_value (raw_metadata : dict) (config : pyval) : result dict :=
  match apply_formatting_rules 0%nat config [raw_metadata] with
  | (Ok l, st) => match st !! l with Some d => Ok d | None => Raise KeyError end
  | (Raise e, _) => Raise e
  end.

End Formatter.

(** ** main.py *)

Module Main.
Import Py World.

(** *** The patterns *)

Definition is_ascii_digit (c : N) : bool := ((48 <=? c) && (c <=? 57))%N.
Definition is_ascii_upper (c : N) : bool := ((65 <=? c) && (c <=? 90))%N.
Definition is_ascii_lower (c : N) : bool := ((97 <=? c) && (c <=? 122))%N.

(** The four letters outside ASCII that IGNORECASE folds onto ASCII ones:
    U+0130 and U+0131 onto I, U+017F onto S, U+212A onto K. *)
Definition folds_to (c : N) : option N :=
  (if (c =? 304) || (c =? 305) then Some 105
   else if c =? 383 then Some 115
   else if c =? 8490 then Some 107
   else None)%N.

(** The lower-case ASCII letter a character is matched as under IGNORECASE,
    when there is one. *)
Definition fold (c : N) : option N :=
  if is_ascii_lower c then Some c
  else if is_ascii_upper c then Some (c + 32)%N
  else folds_to c.

(** A literal lower-case letter of a pattern under IGNORECASE. *)
Definition ci (letter c : N) : bool := bool_decide (fold c = Some letter).

(** [\d] and [\w] on [str] patterns. *)
Definition is_digit (R : Runtime) (c : N) : bool :=
  if (c <? 128)%N then is_ascii_digit c else uni_decimal R c.

Definition is_word (R : Runtime) (c : N) : bool :=
  if (c <? 128)%N
  then is_ascii_digit c || is_ascii_upper c || is_ascii_lower c || (c =? 95)%N
  else uni_alnum R c || uni_decimal R c || bool_decide (is_Some (folds_to c)).

Definition last_char (s : str) : option N :=
  match s with [] => None | c :: s' => Some (List.last s' c) end.

Definition word_opt (R : Runtime) (c : option N) : bool :=
  match c with Some x => is_word R x | None => false end.

(** [\b] between the characters [prev] and [next], either of which may be
    missing at an end of the string. *)
Definition boundary (R : Runtime) (prev next : option N) : bool :=
  xorb (word_opt R prev) (word_opt R next).

(** ASIN_IN_FILENAME_RE, tried at one position: [prev] is the character before
    it and [s] the text from it on.  The class of the eight characters is
    0-9 and A-Z under IGNORECASE. *)
Definition asin_char (c : N) : bool :=
  is_ascii_digit c || bool_decide (is_Some (fold c)).

Definition asin_at (R : Runtime) (prev : option N) (s : str) : option str :=
  match s with
  | b :: z :: rest =>
      let body := take 8 rest in
      if boundary R prev (Some b) && ci 98 b && (z =? 48)%N
         && (length body =? 8)%nat && forallb asin_char body
         && boundary R (last_char body) (head (drop 8 rest))
      then Some (b :: z :: body) else None
  | _ => None
  end.

(** ASIN_IN_FILENAME_RE.search(s).group(1), the leftmost match. *)
Fixpoint asin_search (R : Runtime) (prev : option N) (s : str) : option str :=
  match asin_at R prev s with
  | Some m => Some m
  | None => match s with
            | [] => None
            | c :: rest => asin_search R (Some c) rest
            end
  end.

Definition ASIN_IN_FILENAME_RE_search (R : Runtime) (s : str) : option str :=
  asin_search R None s.

(** FILENAME_KEEP_WORDS_RE at one position.  The alternatives of the first
    group differ in their first two letters, so at most one applies; the
    separators and the number are taken greedily, and giving characters back
    cannot produce a match, since a shorter number ends inside a word. *)
Definition keywords : list (list N) :=
  [ [98; 111; 111; 107]; [112; 97; 114; 116]; [98; 107]; [112; 116];
    [97; 99; 116] ]%N.

Fixpoint ci_prefix (kw : list N) (s : str) : bool :=
  match kw, s with
  | [], _ => true
  | _ :: _, [] => false
  | k :: kw', c :: s' => ci k c && ci_prefix kw' s'
  end.

Definition keyword_at (s : str) : option nat :=
  match List.filter (fun kw => ci_prefix kw s) keywords with
  | kw :: _ => Some (length kw)
  | [] => None
  end.

Definition is_sep (c : N) : bool := ((c =? 32) || (c =? 45))%N.

Definition is_roman (c : N) : bool :=
  match fold c with
  | Some l => ((l =? 105) || (l =? 118) || (l =? 120) || (l =? 108) || (l =? 99)
               || (l =? 100) || (l =? 109))%N
  | None => false
  end.

Fixpoint span (p : N -> bool) (s : str) : str * str :=
  match s with
  | c :: s' => if p c then let '(a, b) := span p s' in (c :: a, b) else ([], s)
  | [] => ([], [])
  end.

(** A number candidate is accepted when it is not empty and ends at a word
    boundary. *)
Definition number_ok (R : Runtime) (cand : str * str) : option str :=
  match cand with
  | ([], _) => None
  | (num, rest) => if boundary R (last_char num) (head rest) then Some num else None
  end.

(** The two groups and the length of the match. *)
Definition keep_at (R : Runtime) (prev : option N) (s : str)
  : option (str * str * nat) :=
  if boundary R prev (head s) then
    match keyword_at s with
    | Some n =>
        let kw := take n s in
        let after := drop n s in
        if boundary R (last_char kw) (head after) then
          let '(seps, after) := span is_sep after in
          let found :=
            match number_ok R (span (is_digit R) after) with
            | Some num => Some num
            | None => number_ok R (span is_roman after)
            end in
          match found with
          | Some num => Some (kw, num, (n + length seps + length num)%nat)
          | None => None
          end
        else None
    | None => None
    end
  else None.

(** One pass over the text with FILENAME_KEEP_WORDS_RE: the groups of the
    successive matches (findall) and the text without the matches (sub by the
    empty string).  [skip] counts the characters still inside a match. *)
Fixpoint keep_scan (R : Runtime) (prev : option N) (skip : nat) (s : str)
  : list (str * str) * str :=
  match s with
  | [] => ([], [])
  | c :: rest =>
      match skip with
      | Datatypes.S k => keep_scan R (Some c) k rest
      | O =>
          match keep_at R prev s with
          | Some (g1, g2, n) =>
              let '(ms, txt) := keep_scan R (Some c) (n - 1) rest in
              ((g1, g2) :: ms, txt)
          | None =>
              let '(ms, txt) := keep_scan R (Some c) 0 rest in
              (ms, c :: txt)
          end
      end
  end.

(** The class of FILENAME_CLEAN_RE: underscore, hyphen, period. *)
Definition is_delim (c : N) : bool := ((c =? 95) || (c =? 45) || (c =? 46))%N.

Definition clean_filename_for_search (R : Runtime) (filename : str) : str :=
  let base_name := stem_of filename in
  let series_parts_matches := fst (keep_scan R None 0 base_name) in
  let series_parts :=
    join_strs [32%N]
      (map (fun m => join_strs [32%N] [fst m; snd m]) series_parts_matches) in
  let cleaned := sub_runs is_delim false base_name in
  let cleaned := snd (keep_scan R None 0 cleaned) in
  let final_search := strip (cleaned ++ [32%N] ++ series_parts) in
  sub_runs is_space false final_search.

(** *** The waterfall of run_scan *)

Definition nonempty (o : option str) : bool :=
  match o with Some (_ :: _) => true | _ => false end.

Definition tags_of (E : Env) (item_path : path) : M Tags :=
  fun w => (Ok (read_tags E (events w) (path_str item_path)),
            emit (EvReadTags (path_str item_path)) w).

(** [results[0].get('asin')] *)
Definition first_asin (results : pyval) : result pyval :=
  rbind (getitem0 results) (fun r => get r (lit "asin") PNone).

(** The part of the loop body that settles [best_asin] (run_scan, from
    [best_asin = None] to the end of the file name search). *)
Definition resolve (E : Env) (asin_map : pyval) (input_path item_path : path)
  : M pyval :=
  let file_name := name item_path in
  (* 1. ASIN map *)
  in_map <- lift (contains file_name asin_map) ;;
  best_asin <- (if (in_map : bool) then lift (getitem asin_map file_name)
                else ret PNone) ;;
  (* 2. ID3 or file name ASIN *)
  st <- (if negb (truthy best_asin) then
           tags <- tags_of E item_path ;;
           if nonempty (tag_asin tags)
           then ret (match tag_asin tags with Some a => PStr a | None => PNone end,
                     Some tags)
           else match ASIN_IN_FILENAME_RE_search (runtime E) file_name with
                | Some m => ret (PStr m, Some tags)
                | None => ret (best_asin, Some tags)
                end
         else ret (best_asin, None)) ;;
  let '(best_asin, tags) := st in
  (* 3. ID3 title and author search *)
  best_asin <- (if negb (truthy best_asin) then
                  tags <- match tags with
                          | Some t => ret t
                          | None => tags_of E item_path
                          end ;;
                  if nonempty (tag_title tags) && nonempty (tag_author tags) then
                    let search_term :=
                      default [] (tag_author tags) ++ [32%N] ++ default [] (tag_title tags) in
                    results <- AudibleClient.search_by_keywords E (PStr search_term) 1 ;;
                    if truthy results then lift (first_asin results) else ret best_asin
                  else ret best_asin
                else ret best_asin) ;;
  (* 4. File name search *)
  if negb (truthy best_asin) then
    let combined_search_string :=
      if bool_decide (parent item_path = input_path) then file_name
      else name (parent item_path) ++ [32%N] ++ file_name in
    let search_term := clean_filename_for_search (runtime E) combined_search_string in
    results <- AudibleClient.search_by_keywords E (PStr search_term) 1 ;;
    if truthy results then lift (first_asin results) else ret best_asin
  else ret best_asin.

(** *** The rest of the loop body *)

(** What run_scan takes from its arguments and its configuration. *)
Record Run := {
  config : pyval;
  asin_map : pyval;
  input_path : path;
  output_path : path;
  move_files : bool;
  dry_run : bool;
  create_opf : pyval
}.

Inductive outcome := Processed | Failed.

(** The three lines that give a candidate up: relocation to the failed
    folder, [failed_count += 1], [continue]. *)
Definition fail (E : Env) (r : Run) (item_path : path) : M outcome :=
  FileManager.move_to_failed_folder E item_path (output_path r) (dry_run r) (move_files r) ;;;
  ret Failed.

(** The body of the [try] of run_scan, from the metadata fetch to
    [processed_count += 1]. *)
Definition process_body (E : Env) (r : Run) (item_path : path) (best_asin : pyval)
  : M outcome :=
  raw_metadata <- AudibleClient.get_metadata_by_asin E best_asin ;;
  if negb (truthy raw_metadata) then fail E r item_path
  else
    title <- lift (get raw_metadata (lit "title") PNone) ;;
    if negb (truthy title) then fail E r item_path
    else
      match raw_metadata with
      | PDict raw =>
          metadata <- lift (Formatter.format_value raw (config r)) ;;
          target <- FileManager.organize_audio_file E item_path (output_path r)
                      metadata (config r) (dry_run r) (move_files r) ;;
          match target with
          | None => fail E r item_path
          | Some target_folder =>
              MetadataWriter.write_metadata_files E metadata target_folder
                (dry_run r) (create_opf r) ;;;
              _saved <- AudibleClient.download_cover E
                          (dget (lit "cover_url") PNone metadata)
                          (div target_folder (lit "cover.jpg")) (dry_run r) ;;
              (if dry_run r then ret tt
               else ProcessedLog.append_to_processed_log E (output_path r)
                      (path_str item_path) metadata) ;;;
              ret Processed
          end
      | _ => raise AttributeError
      end.

(** The [try] with its handler. *)
Definition process (E : Env) (r : Run) (item_path : path) (best_asin : pyval)
  : M outcome :=
  try_except (process_body E r item_path best_asin) (fun _ => fail E r item_path).

(** The two counters of run_scan. *)
Record counts := { processed_count : Z; failed_count : Z }.

Definition tally (c : counts) (o : outcome) : counts :=
  match o with
  | Processed => {| processed_count := processed_count c + 1;
                    failed_count := failed_count c |}
  | Failed => {| processed_count := processed_count c;
                 failed_count := failed_count c + 1 |}
  end.

(** One turn of the loop. *)
Definition process_item (E : Env) (r : Run) (c : counts) (item_path : path)
  : M counts :=
  best_asin <- resolve E (asin_map r) (input_path r) item_path ;;
  o <- (if negb (truthy best_asin) then fail E r item_path
        else process E r item_path best_asin) ;;
  ret (tally c o).

(** The loop over the candidates found by the scan. *)
Fixpoint run_loop (E : Env) (r : Run) (c : counts) (book_items : list path)
  : M counts :=
  match book_items with
  | [] => ret c
  | item_path :: rest => c' <- process_item E r c item_path ;; run_loop E r c' rest
  end.

(** run_scan from the candidates on: both counters start at zero. *)
Definition run_scan (E : Env) (r : Run) (book_items : list path) : M counts :=
  run_loop E r {| processed_count := 0; failed_count := 0 |} book_items.

(** A world in which nothing has happened and no file was processed before. *)
Definition start : world := {| events := []; processed_log := [] |}.

End Main.


(** ** A sample library *)

Module Sample.
Import Py World Main.

Definition rt : Runtime :=
  {| repr_other := fun _ => lit "<object>";
     eq_other := fun _ _ => false;
     int_gt_float := fun _ _ => false;
     uni_alnum := fun _ => false;
     uni_decimal := fun _ => false |}.

Definition ps (s : string) : pyval := PStr (lit s).

(** The payload of the catalog for one book, and what the field parser makes
    of it. *)
Definition product : pyval :=
  PDict [ (lit "asin", ps "B0ABCD1234"); (lit "title", ps "My Book");
          (lit "authors", PList [PDict [(lit "name", ps "Jane Doe")]]);
          (lit "release_date", ps "2020-05-01") ].

Definition parsed : dict :=
  [ (lit "asin", ps "B0ABCD1234"); (lit "title", ps "My Book");
    (lit "subtitle", PNone); (lit "authors", PList [ps "Jane Doe"]);
    (lit "narrators", PList []); (lit "series", PNone);
    (lit "series_part", PNone); (lit "release_date", ps "2020-05-01");
    (lit "year", ps "2020"); (lit "description", ps "");
    (lit "rating", PNone); (lit "cover_url", PNone);
    (lit "product_url", ps "https://www.audible.com/pd/B0ABCD1234");
    (lit "raw_json", product) ].

Definition no_tags : Tags := {| tag_asin := None; tag_title := None; tag_author := None |}.

(** A catalog that knows the book by its identifier and finds it for any
    keywords. *)
Definition catalog (url : str) : http_outcome :=
  if str_eqb url (AudibleClient.DIRECT_ASIN_URL_TEMPLATE (lit "B0ABCD1234"))
  then Response 200 (Some (PDict [(lit "product", product)]))
  else if is_prefix (AudibleClient.KEYWORD_SEARCH_URL_TEMPLATE []) url
  then Response 200 (Some (PDict [(lit "products", PList [product])]))
  else Response 404 None.

(** Nothing fails. *)
Definition env : Env :=
  {| runtime := rt;
     read_tags := fun _ _ => no_tags;
     session_get := fun _ url _ => catalog url;
     fs_ok := fun _ _ => true;
     path_exists := fun _ _ => false;
     cover_get := fun _ _ _ => CoverSaved;
     parse_product_json := fun _ => Ok (PDict parsed);
     opf_document := fun _ => Ok (lit "<package/>") |}.

(** A catalog that does not know B0ABCD1234 by its identifier and whose
    search answers with another book. *)
Definition other_product : pyval :=
  PDict [ (lit "asin", ps "B0ZZZZ9999"); (lit "title", ps "Another Book") ].

Definition catalog_mismatch (url : str) : http_outcome :=
  if str_eqb url (AudibleClient.DIRECT_ASIN_URL_TEMPLATE (lit "B0ZZZZ9999"))
  then Response 200 (Some (PDict [(lit "product", other_product)]))
  else if is_prefix (AudibleClient.KEYWORD_SEARCH_URL_TEMPLATE []) url
  then Response 200 (Some (PDict [(lit "products", PList [other_product])]))
  else Response 404 None.

Definition env_mismatch : Env :=
  {| runtime := rt;
     read_tags := fun _ _ => no_tags;
     session_get := fun _ url _ => catalog_mismatch url;
     fs_ok := fun _ _ => true;
     path_exists := fun _ _ => false;
     cover_get := fun _ _ _ => CoverSaved;
     parse_product_json := fun _ => Ok other_product;
     opf_document := fun _ => Ok (lit "<package/>") |}.

(** A file that carries an identifier in its tags and another in its name. *)
Definition tagged : Tags :=
  {| tag_asin := Some (lit "B0TAGTAG01"); tag_title := Some (lit "My Book");
     tag_author := Some (lit "Jane Doe") |}.

Definition env_tagged : Env :=
  {| runtime := rt;
     read_tags := fun _ _ => tagged;
     session_get := fun _ url _ => catalog url;
     fs_ok := fun _ _ => true;
     path_exists := fun _ _ => false;
     cover_get := fun _ _ _ => CoverSaved;
     parse_product_json := fun _ => Ok (PDict parsed);
     opf_document := fun _ => Ok (lit "<package/>") |}.

Definition tagged_book : path := [lit "in"; lit "MyBook B0FILE0001.m4b"].

(** A destination on which copying fails, everything else going through. *)
Definition env_copy_fails : Env :=
  {| runtime := rt;
     read_tags := fun _ _ => no_tags;
     session_get := fun _ url _ => catalog url;
     fs_ok := fun _ op => match op with Copy2 _ _ => false | _ => true end;
     path_exists := fun _ _ => false;
     cover_get := fun _ _ _ => CoverSaved;
     parse_product_json := fun _ => Ok (PDict parsed);
     opf_document := fun _ => Ok (lit "<package/>") |}.

(** A catalog whose search answers with a list of names in place of a list
    of products. *)
Definition env_odd_catalog : Env :=
  {| runtime := rt;
     read_tags := fun _ _ => no_tags;
     session_get := fun _ _ _ =>
       Response 200 (Some (PDict [(lit "products", PList [ps "My Book"])]));
     fs_ok := fun _ _ => true;
     path_exists := fun _ _ => false;
     cover_get := fun _ _ _ => CoverSaved;
     parse_product_json := fun _ => Ok (PDict parsed);
     opf_document := fun _ => Ok (lit "<package/>") |}.

(** A catalog whose payload the field parser cannot take. *)
Definition env_parser_raises : Env :=
  {| runtime := rt;
     read_tags := fun _ _ => no_tags;
     session_get := fun _ url _ => catalog url;
     fs_ok := fun _ _ => true;
     path_exists := fun _ _ => false;
     cover_get := fun _ _ _ => CoverSaved;
     parse_product_json := fun _ => Raise AttributeError;
     opf_document := fun _ => Ok (lit "<package/>") |}.

(** An output root in which the folder of the failed files can be created
    and no other. *)
Definition env_no_book_folder : Env :=
  {| runtime := rt;
     read_tags := fun _ _ => no_tags;
     session_get := fun _ url _ => catalog url;
     fs_ok := fun _ op =>
       match op with
       | Mkdir p => bool_decide (p = [lit "out"; FileManager.FAILED_DIR])
       | _ => true
       end;
     path_exists := fun _ _ => false;
     cover_get := fun _ _ _ => CoverSaved;
     parse_product_json := fun _ => Ok (PDict parsed);
     opf_document := fun _ => Ok (lit "<package/>") |}.

(** Metadata from which write_opf cannot build the package document. *)
Definition env_no_document : Env :=
  {| runtime := rt;
     read_tags := fun _ _ => no_tags;
     session_get := fun _ url _ => catalog url;
     fs_ok := fun _ _ => true;
     path_exists := fun _ _ => false;
     cover_get := fun _ _ _ => CoverSaved;
     parse_product_json := fun _ => Ok (PDict parsed);
     opf_document := fun _ => Raise AttributeError |}.

Definition run (dry : bool) : Run :=
  {| config := PDict [];
     asin_map := PDict [];
     input_path := [lit "in"];
     output_path := [lit "out"];
     move_files := false;
     dry_run := dry;
     create_opf := PBool true |}.

(** The same run with a map of manual identifiers. *)
Definition run_with_map (m : pyval) : Run :=
  {| config := PDict [];
     asin_map := m;
     input_path := [lit "in"];
     output_path := [lit "out"];
     move_files := false;
     dry_run := false;
     create_opf := PBool true |}.

Definition book : path := [lit "in"; lit "MyBook_B0ABCD1234.m4b"].
Definition second_book : path := [lit "in"; lit "Other.m4b"].

(** Its entry in the processed log. *)
Definition entry : pyval :=
  PDict [ (lit "title", ps "My Book"); (lit "series", PNone);
          (lit "year", ps "2020"); (lit "asin", ps "B0ABCD1234") ].

Definition placed : path :=
  [ lit "out"; lit "Jane Doe"; lit "My Book {Jane Doe} {2020}";
    lit "My Book {Jane Doe} {2020}.m4b" ].

Definition zero : counts := {| processed_count := 0; failed_count := 0 |}.

End Sample.

(** ** utils.py, the files it reads *)

Module UtilsFiles.
Import Py World.

(** format_contributors: nothing for an empty value, else
    [separator.join(contributors)]. *)
Definition format_contributors (contributors separator : pyval) : result pyval :=
  if negb (truthy contributors) then Ok (PStr []) else join separator contributors.

(** [s.endswith(suffix)] *)
Definition endswith (s suffix : str) : bool := is_prefix (rev suffix) (rev s).

(** What the functions below find on the disk: whether a path exists, what
    [json.load] makes of a file ([None] when opening or decoding raises), and
    the lines a loop over a text file receives before the file ends or
    reading raises. *)
Record Files := {
  file_exists : str -> bool;
  json_load : str -> option pyval;
  read_lines : str -> list str
}.

(** [line.split(',', 1)] for a line that has a comma: what precedes the first
    one and what follows it.  [None] when the line has none. *)
Fixpoint split_first (sep : N) (s : str) : option (str * str) :=
  match s with
  | [] => None
  | c :: s' =>
      if (c =? sep)%N then Some ([], s')
      else match split_first sep s' with
           | Some (a, b) => Some (c :: a, b)
           | None => None
           end
  end.

(** One turn of the loop over the lines of a CSV map. *)
Definition csv_line (asin_map : dict) (line : str) : dict :=
  let line := strip line in
  match split_first 44%N line with
  | Some (part0, part1) =>
      let filename := strip part0 in
      let asin := strip part1 in
      match filename, asin with
      | _ :: _, _ :: _ => setitem filename (PStr asin) asin_map
      | _, _ => asin_map
      end
  | None => asin_map
  end.

(** [len(v)] is defined for strings and containers. *)
Definition has_len (v : pyval) : bool :=
  match v with
  | PStr _ | PList _ | PDict _ => true
  | _ => false
  end.

(** load_asin_map.  Every exception of the reading is handled and leaves the
    map as it is at that point; the last line, outside the [try], takes the
    length of the map. *)
Definition load_asin_map (F : Files) (map_path : option str) : result pyval :=
  match map_path with
  | None | Some [] => Ok (PDict [])
  | Some p =>
      if negb (file_exists F p) then Ok (PDict [])
      else
        let asin_map :=
          if endswith p (lit ".json") then
            match json_load F p with Some v => v | None => PDict [] end
          else if endswith p (lit ".csv") then
            PDict (fold_left csv_line (read_lines F p) [])
          else PDict [] in
        if has_len asin_map then Ok asin_map else Raise TypeError
  end.

Definition SUPPORTED_AUDIO_EXTENSIONS : list str :=
  [lit ".aax"; lit ".m4b"; lit ".mp3"; lit ".m4a"].

(** [s.lower()]: letter by letter on ASCII text; the lowering of other text
    is taken from Unicode's tables as it comes. *)
Definition lower (unicode_lower : str -> str) (s : str) : str :=
  if forallb (fun c => (c <? 128)%N) s
  then map (fun c => if Main.is_ascii_upper c then (c + 32)%N else c) s
  else unicode_lower s.

(** What os.walk yields: each directory, as the path [Path(root)], with the
    names of its files; with each name comes what [stat] gives for the file,
    its size or an [OSError]. *)
Definition walked := list (path * list (str * option Z)).

(** The inner loop of find_audio_files_to_process, over the files of one
    directory. *)
Fixpoint scan_files (unicode_lower : str -> str) (processed_log : pyval)
    (min_file_size_bytes : Z) (root : path) (files : list (str * option Z))
  : result (list path) :=
  match files with
  | [] => Ok []
  | (file, size) :: rest =>
      let file_path := div root file in
      let str_path := path_str file_path in
      rbind (contains str_path processed_log) (fun seen =>
      let keep :=
        if (seen : bool) then false
        else if negb (bool_decide (lower unicode_lower (suffix file_path)
                                   ∈ SUPPORTED_AUDIO_EXTENSIONS)) then false
        else match size with
             | Some file_size => negb (file_size <? min_file_size_bytes)
             | None => false
             end in
      rbind (scan_files unicode_lower processed_log min_file_size_bytes root rest)
            (fun more => Ok (if keep then file_path :: more else more)))
  end.

Fixpoint scan_dirs (unicode_lower : str -> str) (processed_log : pyval)
    (min_file_size_bytes : Z) (dirs : walked) : result (list path) :=
  match dirs with
  | [] => Ok []
  | (root, files) :: rest =>
      if is_infix FileManager.FAILED_DIR (path_str root)
      then scan_dirs unicode_lower processed_log min_file_size_bytes rest
      else
        rbind (scan_files unicode_lower processed_log min_file_size_bytes root files)
              (fun here =>
        rbind (scan_dirs unicode_lower processed_log min_file_size_bytes rest)
              (fun more => Ok (here ++ more)))
  end.

(** find_audio_files_to_process, [dirs] being what os.walk(input_dir)
    yields. *)
Definition find_audio_files_to_process (unicode_lower : str -> str) (dirs : walked)
    (processed_log : pyval) (min_file_size_mb : Z) : result (list path) :=
  let min_file_size_bytes := min_file_size_mb * 1024 * 1024 in
  scan_dirs unicode_lower processed_log min_file_size_bytes dirs.

(** How opening and decoding the processed log file can end: with the value
    [json.load] returns; with a JSONDecodeError or an OSError, which
    load_processed_log handles; or with another exception, which it does not
    (a UnicodeDecodeError, for one, is a ValueError and no JSONDecodeError). *)
Inductive log_read :=
| LogValue (data : pyval)
| LogHandled
| LogRaises (e : exn).

(** The disk as a later run finds it. *)
Record LogFile := { log_exists : path -> bool; log_load : path -> log_read }.

(** load_processed_log.  The length of what was loaded is taken inside the
    [try], where a TypeError is not handled. *)
Definition load_processed_log (D : LogFile) (output_dir : path) : result pyval :=
  let log_path := div output_dir ProcessedLog.PROCESSED_LOG_NAME in
  if negb (log_exists D log_path) then Ok (PDict [])
  else match log_load D log_path with
       | LogValue data => if has_len data then Ok data else Raise TypeError
       | LogHandled => Ok (PDict [])
       | LogRaises e => Raise e
       end.

End UtilsFiles.

(** ** audible_client.py, the parser of the catalog payload *)

Module Parser.
Import Py World UtilsFiles.

(** What [f"{int(float(s)):02d}"] gives for a text: the number, written with
    two digits at least; a [ValueError], which the parser handles; or an
    [OverflowError], which it does not (the text of an infinity).  How Python
    reads a number is not reproduced here. *)
Inductive sequence_outcome :=
| SequenceText (s : str)
| SequenceValueError
| SequenceOverflowError.

(** The parser returns, or raises one of the exceptions of the embedding, or
    raises the [OverflowError] above. *)
Inductive parse_result (A : Type) :=
| Done (a : A)
| Failed (e : exn)
| Overflowed.
Arguments Done {A} a.
Arguments Failed {A} e.
Arguments Overflowed {A}.

Definition of_result {A} (r : result A) : parse_result A :=
  match r with Ok a => Done a | Raise e => Failed e end.

(** [for c in v]: the elements of a list, the characters of a string, the
    keys of a dictionary. *)
Definition iterate (v : pyval) : result (list pyval) :=
  match v with
  | PList xs => Ok xs
  | PStr s => Ok (map (fun c => PStr [c]) s)
  | PDict kvs => Ok (map (fun kv => PStr (fst kv)) kvs)
  | _ => Raise TypeError
  end.

(** One turn of the comprehension of get_contributors: the filter
    [c.get("name")], then [c.get("name", "").strip()]. *)
Definition contributor_name (c : pyval) : result (option str) :=
  rbind (get c (lit "name") PNone) (fun name =>
  if truthy name then
    match name with
    | PStr s => Ok (Some (strip s))
    | _ => Raise AttributeError
    end
  else Ok None).

Fixpoint contributor_names (cs : list pyval) : result (list pyval) :=
  match cs with
  | [] => Ok []
  | c :: rest =>
      rbind (contributor_name c) (fun n =>
      rbind (contributor_names rest) (fun ns =>
      Ok (match n with Some s => PStr s :: ns | None => ns end)))
  end.

Definition get_contributors (product_data : dict) (key : str) : result pyval :=
  rbind (iterate (dget key (PList []) product_data)) (fun cs =>
  rbind (contributor_names cs) (fun ns => Ok (PList ns))).

(** [s.replace(pattern, "")] for a pattern that is not empty: the
    occurrences are taken from the left and do not overlap; [skip] counts the
    characters still inside one. *)
Fixpoint remove_all (pattern : str) (skip : nat) (s : str) : str :=
  match s with
  | [] => []
  | c :: rest =>
      match skip with
      | Datatypes.S k => remove_all pattern k rest
      | O =>
          if is_prefix pattern s then remove_all pattern (length pattern - 1) rest
          else c :: remove_all pattern 0 rest
      end
  end.

(** The name of the series and the position in it. *)
Definition series_of (R : Runtime) (unicode_lower : str -> str)
    (sequence_number : str -> sequence_outcome) (product_data : dict)
  : parse_result (pyval * pyval) :=
  let series_list := dget (lit "series") (PList []) product_data in
  match series_list with
  | PList (series_info :: _) =>
      match get series_info (lit "title") PNone with
      | Raise e => Failed e
      | Ok series_name =>
          match get series_info (lit "sequence") PNone with
          | Raise e => Failed e
          | Ok series_part =>
              if truthy series_part then
                let text :=
                  strip (remove_all (lit "book") 0
                           (lower unicode_lower (to_str R series_part))) in
                match sequence_number text with
                | SequenceText s => Done (series_name, PStr s)
                | SequenceValueError => Done (series_name, PStr text)
                | SequenceOverflowError => Overflowed
                end
              else Done (series_name, series_part)
          end
      end
  | _ => Done (PNone, PNone)
  end.

(** The year: what precedes the first hyphen of the release date. *)
Definition year_of (release_date : pyval) : pyval :=
  if truthy release_date then
    match release_date with
    | PStr s => PStr (hd [] (split_on 45%N s))
    | _ => PNone
    end
  else PNone.

(** The loop over the sizes of the cover. *)
Fixpoint cover_of (images : pyval) (sizes : list str) : result pyval :=
  match sizes with
  | [] => Ok PNone
  | size :: rest =>
      rbind (contains size images) (fun present =>
      if (present : bool) then getitem images size else cover_of images rest)
  end.

(** _parse_product_json; [web_base] is the attribute of the client. *)
Definition _parse_product_json (R : Runtime) (unicode_lower : str -> str)
    (sequence_number : str -> sequence_outcome) (web_base : pyval)
    (product_data : pyval) : parse_result dict :=
  match product_data with
  | PDict product =>
      match series_of R unicode_lower sequence_number product with
      | Failed e => Failed e
      | Overflowed => Overflowed
      | Done (series_name, series_part) =>
          let release_date := dget (lit "release_date") PNone product in
          let year := year_of release_date in
          of_result (
          rbind (cover_of (dget (lit "product_images") (PDict []) product)
                   [lit "1000"; lit "700"; lit "500"]) (fun cover_url =>
          let asin := dget (lit "asin") PNone product in
          let title := dget (lit "title") PNone product in
          rbind (get_contributors product (lit "authors")) (fun authors =>
          rbind (get_contributors product (lit "narrators")) (fun narrators =>
          rbind (match dget (lit "publisher_summary") (PStr []) product with
                 | PStr s => Ok (PStr (strip s))
                 | _ => Raise AttributeError
                 end) (fun description =>
          rbind (get (dget (lit "ratings_summary") (PDict []) product)
                   (lit "average_rating") PNone) (fun rating =>
          let product_url := PStr (to_str R web_base ++ lit "/pd/" ++ to_str R asin) in
          rbind (format_contributors authors (PStr (lit " & "))) (fun mp3tag_author =>
          rbind (format_contributors narrators (PStr (lit " & "))) (fun mp3tag_narrator =>
          Ok [ (lit "asin", asin);
               (lit "title", title);
               (lit "subtitle", dget (lit "subtitle") PNone product);
               (lit "authors", authors);
               (lit "narrators", narrators);
               (lit "series", series_name);
               (lit "series_part", series_part);
               (lit "release_date", release_date);
               (lit "year", year);
               (lit "description", description);
               (lit "rating", rating);
               (lit "cover_url", cover_url);
               (lit "product_url", product_url);
               (lit "raw_json", product_data);
               (lit "MP3TAG_TITLE", title);
               (lit "MP3TAG_AUTHOR", mp3tag_author);
               (lit "MP3TAG_NARRATOR", mp3tag_narrator);
               (lit "MP3TAG_SERIES", series_name);
               (lit "MP3TAG_SERIES_PART", series_part);
               (lit "MP3TAG_YEAR", year);
               (lit "MP3TAG_DESC", description);
               (lit "MP3TAG_WWWAUDIOFILE", product_url) ]))))))))
      end
  | _ => Failed AttributeError
  end.

End Parser.

(** ** metadata_writer.py, the text of the package document *)

Module Opf.
Import Py.

(** [s.replace(c, by)] for a one-character [c]. *)
Fixpoint replace_char (c : N) (by_ : str) (s : str) : str :=
  match s with
  | [] => []
  | x :: s' => (if (x =? c)%N then by_ else [x]) ++ replace_char c by_ s'
  end.

(** _escape: the ampersand first, then the two angle brackets and the double
    quote. *)
Definition _escape (R : Runtime) (s : pyval) : str :=
  let s := match s with PNone => [] | _ => to_str R s end in
  match s with
  | [] => []
  | _ =>
      let s := replace_char 38%N (lit "&amp;") s in
      let s := replace_char 60%N (lit "&lt;") s in
      let s := replace_char 62%N (lit "&gt;") s in
      replace_char 34%N (lit "&quot;") s
  end.

End Opf.

(** ** main.py, the mode that creates folders from identifiers *)

Module Cli.
Import Py World.

(** The list comprehension over [args.asin_list.split(',')]. *)
Definition asins_of (asin_list : str) : list str :=
  List.filter (fun asin => match asin with [] => false | _ => true end)
              (map strip (split_on 44%N asin_list)).

(** One turn of the loop over the identifiers; each [continue] ends it. *)
Definition create_from_asin (E : Env) (config : pyval) (output_path : path)
    (is_dry_run : bool) (create_opf : pyval) (asin : str) : M unit :=
  raw_metadata <- AudibleClient.get_metadata_by_asin E (PStr asin) ;;
  if negb (truthy raw_metadata) then ret tt
  else
    title <- lift (get raw_metadata (lit "title") PNone) ;;
    if negb (truthy title) then ret tt
    else
      match raw_metadata with
      | PDict raw =>
          metadata <- lift (Formatter.format_value raw config) ;;
          target <- FileManager.create_book_structure E output_path metadata config
                      is_dry_run ;;
          match target with
          | None => ret tt
          | Some target_folder =>
              MetadataWriter.write_metadata_files E metadata target_folder
                is_dry_run create_opf ;;;
              _saved <- AudibleClient.download_cover E
                          (dget (lit "cover_url") PNone metadata)
                          (div target_folder (lit "cover.jpg")) is_dry_run ;;
              ret tt
          end
      | _ => raise AttributeError
      end.

Fixpoint asin_loop (E : Env) (config : pyval) (output_path : path)
    (is_dry_run : bool) (create_opf : pyval) (asins : list str) : M unit :=
  match asins with
  | [] => ret tt
  | asin :: rest =>
      create_from_asin E config output_path is_dry_run create_opf asin ;;;
      asin_loop E config output_path is_dry_run create_opf rest
  end.

(** main_cli inside [if args.asin_list:]. *)
Definition asin_only_mode (E : Env) (config : pyval) (output_path : path)
    (is_dry_run : bool) (asin_list : str) : M unit :=
  create_opf <- lift (ConfigLoader.get_config_value config (lit "organizer.create_opf")
                        (PBool true)) ;;
  asin_loop E config output_path is_dry_run create_opf (asins_of asin_list).

End Cli.

(** ** More of the sample library *)

Module MoreSample.
Import Py World UtilsFiles.

(** A CSV map of one line, and nothing else on the disk. *)
Definition map_csv : str := lit "asins.csv".

Definition files : Files :=
  {| file_exists := fun p => str_eqb p map_csv;
     json_load := fun _ => None;
     read_lines := fun p =>
       if str_eqb p map_csv
       then [lit "MyBook B0FILE0001.m4b , B0MANUAL01" ++ [10%N]]
       else [] |}.

Definition manual : dict := [(lit "MyBook B0FILE0001.m4b", PStr (lit "B0MANUAL01"))].

(** Text without letters outside ASCII is lowered by [str.lower] itself. *)
Definition no_unicode (s : str) : str := s.

(** An input directory with a large book, a small one, a text file, and a
    folder of failed files. *)
Definition mib : Z := 1024 * 1024.

Definition library : walked :=
  [ ([lit "in"], [ (lit "Big.M4B", Some (100 * mib)); (lit "small.mp3", Some mib);
                   (lit "notes.txt", Some (100 * mib)) ]);
    ([lit "in"; lit "__FAILED_TO_PROCESS__"], [ (lit "Bad.m4b", Some (100 * mib)) ]) ].

(** The same library under /srv, with a processed log that has one of its
    files under [str(file_path)]. *)
Definition srv_library : walked :=
  [ ([lit "/"; lit "srv"; lit "in"],
     [ (lit "Old.m4b", Some (100 * mib)); (lit "New.m4b", Some (100 * mib)) ]) ].

Definition srv_log : pyval := PDict [(lit "/srv/in/Old.m4b", Sample.entry)].

(** A world in which one file was processed in an earlier run. *)
Definition old_file : str := lit "in/Old.m4b".

Definition later : world :=
  {| events := []; processed_log := [(old_file, Sample.entry)] |}.

(** The file of the processed log once the sample book was processed. *)
Definition log_file : LogFile :=
  {| log_exists := fun p =>
       bool_decide (p = [lit "out"; ProcessedLog.PROCESSED_LOG_NAME]);
     log_load := fun _ => LogValue (PDict [(lit "in/MyBook_B0ABCD1234.m4b", Sample.entry)]) |}.

(** The input directory once the sample book is there. *)
Definition shelf : walked :=
  [ ([lit "in"], [ (lit "MyBook_B0ABCD1234.m4b", Some (100 * mib)) ]) ].

(** The sample metadata once formatted. *)
Definition formatted : dict :=
  Sample.parsed
  ++ [ (lit "formatted_year", Sample.ps "2020");
       (lit "formatted_album_artist", Sample.ps "Jane Doe");
       (lit "formatted_album_artists_list", PNone);
       (lit "formatted_artist", Sample.ps "Jane Doe");
       (lit "formatted_narrator", Sample.ps "") ].

(** The parser on the sample payload, for a client of www.audible.com. *)
Definition web_base : pyval := Sample.ps "https://www.audible.com".

Definition no_number (s : str) : Parser.sequence_outcome := Parser.SequenceValueError.

Definition parsed_in_full : dict :=
  match Parser._parse_product_json Sample.rt no_unicode no_number web_base
          Sample.product with
  | Parser.Done d => d
  | _ => []
  end.

End MoreSample.

(** * Notions used in the statements *)

Module Notions.
Import Py World Utils Formatter Main.

(** How following a path of keys from a value can end. *)
Inductive walk_end :=
| Reached (v : pyval)
| MissingKey
| NotADict.

(** Following the keys one at a time: each step needs a dictionary that has
    the key. *)
Inductive walk : pyval -> list str -> walk_end -> Prop :=
| walk_done v :
    walk v [] (Reached v)
| walk_missing d key keys :
    lookup key d = None -> walk (PDict d) (key :: keys) MissingKey
| walk_not_dict v key keys :
    (forall d, v <> PDict d) -> walk v (key :: keys) NotADict
| walk_step d key keys v e :
    lookup key d = Some v -> walk v keys e -> walk (PDict d) (key :: keys) e.

Definition answer (default : pyval) (e : walk_end) : result pyval :=
  match e with
  | Reached v => Ok v
  | MissingKey => Ok default
  | NotADict => Raise TypeError
  end.

(** The keys apply_formatting_rules assigns. *)
Definition derived_keys : list str :=
  [ lit "formatted_year"; lit "formatted_album_artist";
    lit "formatted_album_artists_list"; lit "formatted_artist";
    lit "formatted_narrator" ].

(** The stores reached while the copy is being filled: the objects that were
    there, untouched, and one more that agrees with [d] outside the derived
    keys and has the keys [ks]. *)
Definition filling (st : store) (d : dict) (ks : list str) (st' : store) : Prop :=
  exists d', st' = st ++ [d']
             /\ (forall k, k ∉ derived_keys -> lookup k d' = lookup k d)
             /\ (forall k, k ∈ ks -> is_Some (lookup k d')).

(** A computation that keeps the store in that shape, whatever its result,
    and that, when it gives a value, has set the keys [ks'] and gives a value
    that satisfies [P]. *)
Definition keeps (st : store) (d : dict) (ks ks' : list str) {A} (P : A -> Prop)
    (m : S A) : Prop :=
  forall st1, filling st d ks st1 ->
    filling st d [] (snd (m st1))
    /\ forall a, fst (m st1) = Ok a -> filling st d ks' (snd (m st1)) /\ P a.

(** No character of the class of INVALID_FILENAME_CHARS_RE. *)
Definition free_of_invalid (s : str) : Prop := Forall (fun c => invalid_char c = false) s.

(** Every whitespace character is a space that does not follow another
    whitespace; [prev_space] tells whether one precedes the string. *)
Fixpoint tidy (prev_space : bool) (s : str) : Prop :=
  match s with
  | [] => True
  | c :: rest =>
      if is_space c then c = 32%N /\ prev_space = false /\ tidy true rest
      else tidy false rest
  end.

Definition no_lead (s : str) : Prop :=
  match s with c :: _ => is_space c = false | [] => True end.

Definition no_trail (s : str) : Prop := no_lead (rev s).

(** C0 controls and DEL. *)
Definition is_control (c : N) : bool := ((c <? 32) || (c =? 127))%N.

Definition ends_with_period (s : str) : bool :=
  match rev s with c :: _ => (c =? 46)%N | [] => false end.

(** What [clean] gives, and every prefix of it that does not end in
    whitespace. *)
Record wellformed (s : str) : Prop := {
  wf_free : free_of_invalid s;
  wf_tidy : tidy false s;
  wf_lead : no_lead s;
  wf_trail : no_trail s
}.

(** The candidates on which the waterfall returns, whatever happened before. *)
Definition resolvable (E : Env) (r : Run) (item_path : path) : Prop :=
  forall w, exists best_asin w',
    resolve E (asin_map r) (input_path r) item_path w = (Ok best_asin, w').

(** The (source, destination) pair a run decides on for a file, its
    placement or its relocation to the failed folder: logged by a dry run,
    handed to shutil by a real one, in _safe_file_op and in
    move_to_failed_folder. *)
Definition decision (e : event) : option (path * path) :=
  match e with
  | EvWould (WouldPlace _ src dst) | EvWould (WouldFail _ src dst) => Some (src, dst)
  | EvFs (SafeFileOp | MoveToFailedFolder) (Copy2 src dst | Move src dst) =>
      Some (src, dst)
  | _ => None
  end.

Definition decisions (evs : list event) : list (path * path) := omap decision evs.

(** The events that change the file system. *)
Definition mutates (e : event) : bool :=
  match e with
  | EvFs _ _ | EvCover _ _ => true
  | _ => false
  end.

(** Reading tags, asking the catalog, logging what would be done. *)
Definition benign (e : event) : Prop :=
  match e with
  | EvReadTags _ | EvGet _ _ | EvWould _ => True
  | _ => False
  end.

Definition undecided (e : event) : Prop := decision e = None.

(** The inputs of a run are fixed when the tags of a file and the answers of
    the catalog do not depend on what the run did before. *)
Definition fixed_inputs (E : Env) : Prop :=
  (forall h file, read_tags E h file = read_tags E [] file)
  /\ (forall h url params, session_get E h url params = session_get E [] url params).

Definition folders_creatable (E : Env) : Prop :=
  forall h p, fs_ok E h (Mkdir p) = true.

(** A value that can be written as text, when there is something to write. *)
Definition is_text (v : pyval) : Prop := truthy v = false \/ exists s, v = PStr s.

Definition is_ok {A} (x : result A) : bool :=
  match x with Ok _ => true | Raise _ => false end.

(** What write_metadata_files writes in a real run can be written, for the
    metadata of every book the client fetches: the package document can be
    built when the configuration asks for one, and the description is a text
    when it does not. *)
Definition artifacts_writable (E : Env) (r : Run) : Prop :=
  forall asin w raw w' metadata,
    AudibleClient.get_metadata_by_asin E asin w = (Ok (PDict raw), w') ->
    format_value raw (config r) = Ok metadata ->
    if truthy (create_opf r) then is_ok (opf_document E metadata) = true
    else is_text (dget (lit "description") PNone metadata).

(** Saving a cover raises no [OSError]. *)
Definition covers_savable (E : Env) : Prop :=
  forall h url dst, cover_get E h url dst <> CoverOSError.

Definition with_dry_run (b : bool) (r : Run) : Run :=
  {| config := config r; asin_map := asin_map r; input_path := input_path r;
     output_path := output_path r; move_files := move_files r;
     dry_run := b; create_opf := create_opf r |}.

Definition emits (P : event -> Prop) {A} (m : M A) : Prop :=
  forall w, exists evs, events (snd (m w)) = events w ++ evs /\ Forall P evs.

Definition add (evs : list event) (w : world) : world :=
  {| events := events w ++ evs; processed_log := processed_log w |}.

(** The same result and the same queries from every world. *)
Definition steady {A} (m : M A) : Prop :=
  exists res evs, Forall undecided evs /\ forall w, m w = (res, add evs w).

(** The decisions a computation adds from a world. *)
Definition grows {A} (m : M A) (w : world) (ds : list (path * path)) : Prop :=
  decisions (events (snd (m w))) = decisions (events w) ++ ds.

(** Two computations that give the same result and add the same decisions,
    whatever the worlds they start from. *)
Definition synced {A} (m1 m2 : M A) : Prop :=
  exists res ds, forall w1 w2,
    fst (m1 w1) = res /\ fst (m2 w2) = res /\ grows m1 w1 ds /\ grows m2 w2 ds.

(** A computation that returns [a] from every world. *)
Definition returns {A} (a : A) (m : M A) : Prop :=
  forall w, exists w', m w = (Ok a, w').

(** A computation that returns from every world. *)
Definition completes {A} (m : M A) : Prop :=
  forall w, exists a w', m w = (Ok a, w').

End Notions.

(** ** Notions for the rest of the code *)

Module MoreNotions.
Import Py World Utils Main Notions UtilsFiles.

(** The entity of a character in XML text: the ampersand, the two angle
    brackets and the double quote have one, any other character stands for
    itself. *)
Definition entity (c : N) : str :=
  if (c =? 38)%N then lit "&amp;"
  else if (c =? 60)%N then lit "&lt;"
  else if (c =? 62)%N then lit "&gt;"
  else if (c =? 34)%N then lit "&quot;"
  else [c].

(** The text _escape works on: [str(s)], or nothing for [None]. *)
Definition text_of (R : Runtime) (v : pyval) : str :=
  match v with PNone => [] | _ => to_str R v end.

(** No whitespace at either end. *)
Definition stripped (s : str) : Prop := no_lead s /\ no_trail s.

(** An entry of a map of manual identifiers: a file name and an identifier,
    both not empty and without whitespace around them. *)
Definition manual_entry (k : str) (v : pyval) : Prop :=
  k <> [] /\ stripped k
  /\ exists asin, v = PStr asin /\ asin <> [] /\ stripped asin.

(** A map all of whose entries are of that kind. *)
Definition manual_entries (d : dict) : Prop :=
  forall k v, lookup k d = Some v -> manual_entry k v.

Definition all_space (s : str) : Prop := Forall (fun c => is_space c = true) s.

(** What the scan asks of a file of a directory it visits: not a key of the
    processed log, an audio extension whatever its case, and a size that
    [stat] gives and that reaches the minimum. *)
Definition accepted_file (unicode_lower : str -> str) (ledger : dict)
    (min_file_size_mb : Z) (root : path) (file : str) (size : option Z) : Prop :=
  lookup (path_str (div root file)) ledger = None
  /\ lower unicode_lower (suffix (div root file)) ∈ SUPPORTED_AUDIO_EXTENSIONS
  /\ exists n, size = Some n /\ min_file_size_mb * 1024 * 1024 <= n.

(** The directories the scan visits. *)
Definition visited (root : path) : Prop :=
  is_infix FileManager.FAILED_DIR (path_str root) = false.

(** A relation between the world before a computation and the world after
    it, kept from every world. *)
Definition carries (Rel : world -> world -> Prop) {A} (m : M A) : Prop :=
  forall w, Rel w (snd (m w)).

Definition ledger_kept (w w' : world) : Prop := processed_log w' = processed_log w.

Definition ledger_grown (w w' : world) : Prop :=
  forall k, is_Some (lookup k (processed_log w)) -> is_Some (lookup k (processed_log w')).

(** The entry of the processed log under [k] is left as it is. *)
Definition entry_kept (k : str) (w w' : world) : Prop :=
  lookup k (processed_log w') = lookup k (processed_log w).

(** The candidates for which a relation survives the update of the processed
    log: all of them in a dry run, which makes none. *)
Definition loggable (Rel : world -> world -> Prop) (E : Env) (r : Run)
    (item_path : path) : Prop :=
  dry_run r = true
  \/ forall out md,
       carries Rel (ProcessedLog.append_to_processed_log E out (path_str item_path) md).

(** The events that do not come from append_to_processed_log. *)
Definition not_append (e : event) : Prop :=
  match e with EvFs AppendToProcessedLog _ => False | _ => True end.

(** A write of the processed log holds an entry under [k]; any other event
    goes. *)
Definition logs_key (k : str) (e : event) : Prop :=
  match e with
  | EvFs AppendToProcessedLog (WriteJson _ data) =>
      exists d, data = PDict d /\ is_Some (lookup k d)
  | _ => True
  end.

(** From [w] to [w'] every write of the processed log held an entry under
    [k]. *)
Definition key_logged (k : str) (w w' : world) : Prop :=
  exists evs, events w' = events w ++ evs /\ Forall (logs_key k) evs.

(** The same from a world whose processed log has the key, which it then
    keeps. *)
Definition key_kept (k : str) (w w' : world) : Prop :=
  is_Some (lookup k (processed_log w)) ->
  is_Some (lookup k (processed_log w')) /\ key_logged k w w'.

(** A computation that gives Processed only in worlds that satisfy [Q]. *)
Definition only_when (Q : world -> Prop) (m : M outcome) : Prop :=
  forall w w', m w = (Ok Processed, w') -> Q w'.

(** A write of JSON holds the processed log of the world [w']. *)
Definition writes_log_of (w' : world) (e : event) : Prop :=
  match e with
  | EvFs _ (WriteJson _ data) => data = PDict (processed_log w')
  | _ => True
  end.

(** The requests of one fetch for an identifier: the direct lookup; then the
    keyword search for it; then the direct lookup again. *)
Definition asked_for (asin : str) (evs : list event) : Prop :=
  let direct := EvGet (AudibleClient.DIRECT_ASIN_URL_TEMPLATE asin) None in
  let search := EvGet (AudibleClient.KEYWORD_SEARCH_URL_TEMPLATE asin) (Some 1) in
  evs = [direct] \/ evs = [direct; search] \/ evs = [direct; search; direct].

(** The value was parsed from the product of an answer to the direct lookup
    of the identifier. *)
Definition parsed_from_lookup (E : Env) (asin : str) (v : pyval) : Prop :=
  exists w0 data product w1,
    AudibleClient._make_api_request E (AudibleClient.DIRECT_ASIN_URL_TEMPLATE asin) None w0
    = (Ok data, w1)
    /\ getitem data (lit "product") = Ok product
    /\ parse_product_json E product = Ok v.

(** The shape ASIN_IN_FILENAME_RE asks for: a B in either case, a zero, and
    eight characters of its class. *)
Definition asin_shaped (m : str) : Prop :=
  exists b body,
    m = b :: 48%N :: body /\ (b = 66%N \/ b = 98%N)
    /\ length body = 8%nat /\ Forall (fun c => asin_char c = true) body.

(** The character before the text that follows [pre], when [prev] precedes
    [pre]. *)
Definition before (prev : option N) (pre : str) : option N :=
  match last_char pre with Some c => Some c | None => prev end.

(** [m] stands in [s] after [pre] and before [post], with no word character
    on either side of it. *)
Definition delimited (R : Runtime) (prev : option N) (s pre m post : str) : Prop :=
  s = pre ++ m ++ post
  /\ word_opt R (before prev pre) = false
  /\ word_opt R (head post) = false.

(** The identifier a file carries: the one of its tags when they have one
    that is not empty, else the one of its name. *)
Definition local_identifier (E : Env) (w : world) (item_path : path) : option str :=
  let tags := read_tags E (events w) (path_str item_path) in
  if nonempty (tag_asin tags) then tag_asin tags
  else ASIN_IN_FILENAME_RE_search (runtime E) (name item_path).

(** The map of manual identifiers has nothing to use for a file name: no
    entry, or an entry that is false. *)
Definition unmapped (manual : dict) (file_name : str) : Prop :=
  match lookup file_name manual with
  | Some v => truthy v = false
  | None => True
  end.

(** A keyword search for one result. *)
Definition is_search (e : event) : Prop :=
  exists keywords, e = EvGet (AudibleClient.KEYWORD_SEARCH_URL_TEMPLATE keywords) (Some 1).

(** What the waterfall does for a file: nothing, or one reading of its tags
    followed by at most two keyword searches. *)
Definition waterfall_events (item_path : path) (evs : list event) : Prop :=
  evs = []
  \/ exists rest, evs = EvReadTags (path_str item_path) :: rest
                  /\ (length rest <= 2)%nat /\ Forall is_search rest.

(** A computation that makes at most [n] keyword searches and nothing else. *)
Definition adds (n : nat) {A} (m : M A) : Prop :=
  forall w, exists evs, events (snd (m w)) = events w ++ evs
                        /\ (length evs <= n)%nat /\ Forall is_search evs.

(** Names that sanitize_filename leaves as they are, whatever the limit
    they fit in; texts that may stand between braces in such a name; and
    extensions that may end one. *)
Definition plain_name (s : str) : Prop :=
  s <> [] /\ wellformed s /\ ends_with_period s = false.

Definition plain_text (s : str) : Prop := free_of_invalid s /\ tidy false s.

Definition plain_suffix (s : str) : Prop :=
  Forall (fun c => invalid_char c = false /\ is_space c = false) s
  /\ ends_with_period s = false.

(** The name of a book folder: the title, then the authors and the year in
    braces. *)
Definition book_name (title artist year : str) : str :=
  title ++ lit " {" ++ artist ++ lit "} {" ++ year ++ lit "}".

(** A list of names without whitespace around them, as a value. *)
Definition names_value (names : list str) : pyval := PList (map PStr names).

(** The keys apply_formatting_rules reads in the dictionary it is given. *)
Definition source_keys : list str :=
  [ lit "authors"; lit "narrators"; lit "release_date"; lit "year" ].

(** No character of the class of FILENAME_CLEAN_RE. *)
Definition free_of_delims (s : str) : Prop := Forall (fun c => is_delim c = false) s.

(** The five values apply_formatting_rules computes from the dictionary it is
    given and the configuration, with the exception it raises when it does;
    and their assignment, in the order of the function. *)
Record derived := {
  d_year : pyval;
  d_album_artist : pyval;
  d_artists_list : pyval;
  d_artist : pyval;
  d_narrator : pyval
}.

Definition derive (raw : dict) (config : pyval) : result derived :=
  rbind (get config (lit "formatting") (PDict [])) (fun fmt_cfg =>
  rbind (get fmt_cfg (lit "multi_value_delimiter") (PStr (lit " & "))) (fun delimiter =>
  let authors := dget (lit "authors") (PList []) raw in
  let narrators := dget (lit "narrators") (PList []) raw in
  let release_date := dget (lit "release_date") PNone raw in
  rbind (get fmt_cfg (lit "use_full_release_date_as_year") (PBool false)) (fun full =>
  let year := if truthy full then release_date else dget (lit "year") PNone raw in
  rbind (get fmt_cfg (lit "single_album_artist") (PBool false)) (fun single =>
  rbind (if truthy single && truthy authors
         then rbind (getitem0 authors) (fun first =>
              rbind (join delimiter authors) (fun joined => Ok (first, joined)))
         else rbind (join delimiter authors) (fun joined => Ok (joined, PNone)))
        (fun artists =>
  rbind (get fmt_cfg (lit "narrator_in_artist_field") (PBool true)) (fun with_narrators =>
  rbind (if truthy with_narrators && truthy narrators
         then rbind (join delimiter narrators) (fun joined => Ok [fst artists; joined])
         else Ok [fst artists]) (fun artist_parts =>
  rbind (join (PStr (lit " & ")) (PList (List.filter truthy artist_parts))) (fun artist =>
  rbind (join delimiter narrators) (fun narrator =>
  Ok {| d_year := year; d_album_artist := fst artists; d_artists_list := snd artists;
        d_artist := artist; d_narrator := narrator |}))))))))).

Definition assign (v : derived) (d : dict) : dict :=
  setitem (lit "formatted_narrator") (d_narrator v)
    (setitem (lit "formatted_artist") (d_artist v)
       (setitem (lit "formatted_album_artists_list") (d_artists_list v)
          (setitem (lit "formatted_album_artist") (d_album_artist v)
             (setitem (lit "formatted_year") (d_year v) d)))).

(** Events other than moving a file, and other than copying or moving one. *)
Definition no_move (e : event) : Prop :=
  match e with
  | EvFs _ (Move _ _) => False
  | _ => True
  end.

Definition no_copy_or_move (e : event) : Prop :=
  match e with
  | EvFs _ (Move _ _) | EvFs _ (Copy2 _ _) => False
  | _ => True
  end.

End MoreNotions.

(** * Properties *)

(** ** config_loader.py *)

Module ConfigLoaderFacts.
Import Py ConfigLoader Notions.

Lemma traverse_walk value keys e :
  walk value keys e ->
  traverse value keys =
    match e with
    | Reached v => Ok v
    | MissingKey => Raise KeyError
    | NotADict => Raise TypeError
    end.
Proof.
  induction 1 as [v|d key keys Hk|v key keys Hv|d key keys v e Hk Hw IH]; simpl.
  - reflexivity.
  - rewrite Hk. reflexivity.
  - destruct v; try reflexivity. exfalso. eapply Hv. reflexivity.
  - rewrite Hk. simpl. exact IH.
Qed.

(** Every path ends in one of the three ways. *)
Lemma walk_total value keys : exists e, walk value keys e.
Proof.
  revert value. induction keys as [|key keys IH]; intros value.
  - eexists. constructor.
  - destruct value as [| | | | |xs|d];
      try (exists NotADict; constructor; intros d' Hd; discriminate).
    destruct (lookup key d) as [v|] eqn:Hk.
    + destruct (IH v) as [e He]. exists e. econstructor; eassumption.
    + exists MissingKey. constructor. exact Hk.
Qed.

(** C9: get_config_value gives the value when the whole path is there, the
    default when a key is missing from a dictionary on the way, and raises
    TypeError, instead of giving the default, when a value on the way is
    present and is not a dictionary.  So whenever it returns, it returns
    either the value found or, for a missing key, the default. *)
Theorem get_config_value_default_only_for_missing_key
    (config : pyval) (key_path : str) (default : pyval) (e : walk_end)
    (H : walk config (split_on 46%N key_path) e) :
  get_config_value config key_path default = answer default e
  /\ (e = NotADict -> get_config_value config key_path default = Raise TypeError)
  /\ (forall v, get_config_value config key_path default = Ok v ->
        e = Reached v \/ (e = MissingKey /\ v = default)).
Proof.
  assert (Hg : get_config_value config key_path default = answer default e).
  { unfold get_config_value. rewrite (traverse_walk _ _ _ H).
    destruct e; reflexivity. }
  split; [exact Hg|]. split.
  - intros ->. exact Hg.
  - intros v Hv. rewrite Hg in Hv. destruct e; simpl in Hv.
    + left. congruence.
    + right. split; [reflexivity|congruence].
    + discriminate.
Qed.

(** An intermediate value that is a string: the default is not used. *)
Lemma get_config_value_witness :
  get_config_value (PDict [(lit "organizer", PStr (lit "off"))])
                   (lit "organizer.create_opf") (PBool true)
  = Raise TypeError.
Proof.
  refine (proj1 (proj2
    (get_config_value_default_only_for_missing_key
       (PDict [(lit "organizer", PStr (lit "off"))])
       (lit "organizer.create_opf") (PBool true) NotADict _)) eq_refl).
  apply (walk_step _ _ _ (PStr (lit "off"))); [reflexivity|].
  apply walk_not_dict. intros d Hd. discriminate Hd.
Defined.

End ConfigLoaderFacts.

(** ** main.py, the formatter *)

Module FormatterFacts.
Import Py Formatter Notions.

Lemma str_eqb_eq a b : str_eqb a b = true <-> a = b.
Proof. unfold str_eqb. apply bool_decide_eq_true. Qed.

Lemma lookup_setitem_ne k k' v d : k <> k' -> lookup k (setitem k' v d) = lookup k d.
Proof.
  intros Hne. induction d as [|[k0 v0] d IH]; simpl.
  - destruct (str_eqb k k') eqn:H; [|reflexivity].
    apply str_eqb_eq in H. contradiction.
  - destruct (str_eqb k' k0) eqn:H0; simpl.
    + apply str_eqb_eq in H0. subst k0.
      destruct (str_eqb k k') eqn:H; [|reflexivity].
      apply str_eqb_eq in H. contradiction.
    + rewrite IH. reflexivity.
Qed.

Lemma lookup_setitem_eq k v d : lookup k (setitem k v d) = Some v.
Proof.
  induction d as [|[k0 v0] d IH]; simpl.
  - replace (str_eqb k k) with true; [reflexivity|].
    symmetry. apply str_eqb_eq. reflexivity.
  - destruct (str_eqb k k0) eqn:H0; simpl; rewrite H0; [reflexivity|exact IH].
Qed.

Lemma lookup_setitem_some k k' v d :
  is_Some (lookup k d) -> is_Some (lookup k (setitem k' v d)).
Proof.
  intros H. destruct (decide (k = k')) as [->|Hne].
  - rewrite lookup_setitem_eq. eauto.
  - rewrite lookup_setitem_ne by exact Hne. exact H.
Qed.

Lemma filling_start st d : filling st d [] (st ++ [d]).
Proof.
  exists d. split; [reflexivity|]. split; [intros; reflexivity|].
  intros k Hk. inversion Hk.
Qed.

Lemma filling_forget st d ks st' : filling st d ks st' -> filling st d [] st'.
Proof.
  intros (d' & -> & Hd' & _). exists d'. split; [reflexivity|].
  split; [exact Hd'|]. intros k Hk. inversion Hk.
Qed.

Lemma filling_setitem st d ks st' k v :
  filling st d ks st' -> k ∈ derived_keys ->
  exists st'', obj_setitem (length st) k v st' = (Ok tt, st'')
               /\ filling st d (k :: ks) st''.
Proof.
  intros (d' & -> & Hd' & Hks) Hk. unfold obj_setitem.
  rewrite lookup_app_r by lia. rewrite Nat.sub_diag. simpl.
  eexists. split; [reflexivity|].
  exists (setitem k v d'). split; [|split].
  - rewrite insert_app_r_alt by lia. rewrite Nat.sub_diag. reflexivity.
  - intros k0 Hk0. rewrite lookup_setitem_ne; [apply Hd'; exact Hk0|].
    intros ->. contradiction.
  - intros k0 Hk0. apply list_elem_of_In in Hk0. destruct Hk0 as [<-|Hin].
    + rewrite lookup_setitem_eq. eauto.
    + apply lookup_setitem_some, Hks, list_elem_of_In, Hin.
Qed.

Lemma keeps_sret st d ks {A} (P : A -> Prop) a : P a -> keeps st d ks ks P (sret a).
Proof.
  intros Ha st1 F. split; [eapply filling_forget; exact F|].
  simpl. intros ? [= <-]. split; [exact F|exact Ha].
Qed.

Lemma keeps_slift st d ks {A} (r : result A) : keeps st d ks ks (fun _ => True) (slift r).
Proof.
  intros st1 F. split; [eapply filling_forget; exact F|].
  intros; split; [exact F|exact I].
Qed.

Lemma keeps_sbind st d ks ks1 ks2 {A B} (Q : A -> Prop) (P : B -> Prop)
    (m : S A) (k : A -> S B) :
  keeps st d ks ks1 Q m -> (forall a, Q a -> keeps st d ks1 ks2 P (k a)) ->
  keeps st d ks ks2 P (sbind m k).
Proof.
  intros Hm Hk st1 F. unfold sbind.
  destruct (Hm st1 F) as [F1 Hq]. destruct (m st1) as [[a|e] st2]; simpl in *.
  - destruct (Hq a eq_refl) as [F2 Ha]. apply Hk; assumption.
  - split; [exact F1|]. intros ? [=].
Qed.

Lemma keeps_setitem st d ks k v :
  k ∈ derived_keys ->
  keeps st d ks (k :: ks) (fun _ => True) (obj_setitem (length st) k v).
Proof.
  intros Hk st1 F. destruct (filling_setitem st d ks st1 k v F Hk) as (st2 & E & F2).
  rewrite E. split; [eapply filling_forget; exact F2|].
  intros; split; [exact F2|exact I].
Qed.

Lemma keeps_get st d ks l k dflt : keeps st d ks ks (fun _ => True) (obj_get l k dflt).
Proof.
  intros st1 F. unfold obj_get.
  destruct (st1 !! l); simpl;
    (split; [eapply filling_forget; exact F|intros; split; [exact F|exact I]]).
Qed.

Lemma keeps_getitem st d ks l k : keeps st d ks ks (fun _ => True) (obj_getitem l k).
Proof.
  intros st1 F. unfold obj_getitem.
  destruct (st1 !! l); simpl;
    (split; [eapply filling_forget; exact F|intros; split; [exact F|exact I]]).
Qed.

Ltac keeps_tac :=
  repeat first
    [ apply keeps_setitem; apply list_elem_of_In; simpl; tauto
    | apply keeps_get
    | apply keeps_getitem
    | apply keeps_slift
    | apply keeps_sret; exact I
    | eapply keeps_sbind; [|intros ? _]
    | match goal with
      | |- keeps _ _ _ _ _ (if ?b then _ else _) => destruct b
      end ].

Lemma sbind_slift {A B} (r : result A) (k : A -> S B) st :
  sbind (slift r) k st = match r with Ok a => k a st | Raise e => (Raise e, st) end.
Proof. unfold sbind, slift. destruct r; reflexivity. Qed.

Lemma sbind_obj_get {B} l key dflt (k : pyval -> S B) (st : store) d :
  st !! l = Some d -> sbind (obj_get l key dflt) k st = k (dget key dflt d) st.
Proof. intros H. unfold sbind, obj_get. rewrite H. reflexivity. Qed.

Lemma sbind_obj_get_none {B} l key dflt (k : pyval -> S B) (st : store) :
  st !! l = None -> sbind (obj_get l key dflt) k st = (Raise AttributeError, st).
Proof. intros H. unfold sbind, obj_get. rewrite H. reflexivity. Qed.

Lemma sbind_obj_copy {B} l (k : loc -> S B) (st : store) d :
  st !! l = Some d -> sbind (obj_copy l) k st = k (length st) (st ++ [d]).
Proof. intros H. unfold sbind, obj_copy. rewrite H. reflexivity. Qed.

(** apply_formatting_rules on a dictionary [d] at [metadata]: it stops before
    the copy and leaves the store as it was, or it leaves one more object;
    what it returns is that object, with the derived keys set. *)
Lemma apply_formatting_rules_fills (st : store) d metadata config :
  st !! metadata = Some d ->
  (filling st d [] (snd (apply_formatting_rules metadata config st))
   \/ snd (apply_formatting_rules metadata config st) = st
      /\ exists e, fst (apply_formatting_rules metadata config st) = Raise e)
  /\ forall l, fst (apply_formatting_rules metadata config st) = Ok l ->
       l = length st
       /\ filling st d (rev derived_keys) (snd (apply_formatting_rules metadata config st)).
Proof.
  intros Hm. unfold apply_formatting_rules.
  rewrite sbind_slift.
  destruct (get config (lit "formatting") (PDict [])) as [fmt_cfg|];
    [|split; [right; eauto|intros ? [=]]].
  rewrite sbind_slift.
  destruct (get fmt_cfg (lit "multi_value_delimiter") _) as [delimiter|];
    [|split; [right; eauto|intros ? [=]]].
  rewrite !(sbind_obj_get _ _ _ _ _ _ Hm).
  rewrite (sbind_obj_copy _ _ _ _ Hm).
  match goal with
  | |- (filling st d [] (snd (?m (st ++ [d]))) \/ _) /\ _ =>
      assert (keeps st d [] (rev derived_keys) (fun l => l = length st) m) as K
  end.
  { eapply keeps_sbind; [apply keeps_slift|intros full _].
    eapply keeps_sbind with (Q := fun _ => True); [keeps_tac|intros _ _].
    eapply keeps_sbind; [apply keeps_slift|intros single _].
    eapply keeps_sbind with (Q := fun _ => True); [keeps_tac|intros _ _].
    eapply keeps_sbind; [apply keeps_getitem|intros album_artist _].
    eapply keeps_sbind; [apply keeps_slift|intros wn _].
    eapply keeps_sbind with (Q := fun _ => True); [keeps_tac|intros parts _].
    eapply keeps_sbind; [apply keeps_slift|intros artist _].
    eapply keeps_sbind with (Q := fun _ => True); [keeps_tac|intros _ _].
    eapply keeps_sbind; [apply keeps_slift|intros narrator _].
    eapply keeps_sbind with (Q := fun _ => True); [keeps_tac|intros _ _].
    apply keeps_sret. reflexivity. }
  destruct (K _ (filling_start st d)) as [F HP].
  split; [left; exact F|].
  intros l Hl. destruct (HP l Hl) as [F' ->]. split; [reflexivity|exact F'].
Qed.

(** Without an object at [metadata] there is nothing to read or copy. *)
Lemma apply_formatting_rules_dangling (st : store) metadata config :
  st !! metadata = None ->
  snd (apply_formatting_rules metadata config st) = st
  /\ exists e, fst (apply_formatting_rules metadata config st) = Raise e.
Proof.
  intros Hm. unfold apply_formatting_rules.
  rewrite sbind_slift.
  destruct (get config (lit "formatting") (PDict [])) as [fmt_cfg|];
    [|split; [reflexivity|eexists; reflexivity]].
  rewrite sbind_slift.
  destruct (get fmt_cfg (lit "multi_value_delimiter") _) as [delimiter|];
    [|split; [reflexivity|eexists; reflexivity]].
  rewrite (sbind_obj_get_none _ _ _ _ _ Hm).
  split; [reflexivity|eexists; reflexivity].
Qed.

(** C10: apply_formatting_rules never changes the dictionary it is given, nor
    any other dictionary that existed before the call: whether it returns or
    raises, each of them has the same keys and values afterwards.  When it
    returns, the result is a new dictionary, which holds the derived fields
    and agrees with the input on every other key. *)
Theorem apply_formatting_rules_leaves_input_unchanged
    (st : store) (metadata : loc) (config : pyval) :
  let '(res, st') := apply_formatting_rules metadata config st in
  st' !! metadata = st !! metadata
  /\ (forall l d, st !! l = Some d -> st' !! l = Some d)
  /\ (forall formatted, res = Ok formatted ->
        st !! formatted = None
        /\ exists d d', st !! metadata = Some d /\ st' !! formatted = Some d'
             /\ (forall k, k ∈ derived_keys -> is_Some (lookup k d'))
             /\ (forall k, k ∉ derived_keys -> lookup k d' = lookup k d)).
Proof.
  destruct (apply_formatting_rules metadata config st) as [res st'] eqn:E.
  destruct (st !! metadata) as [d|] eqn:Hm.
  - destruct (apply_formatting_rules_fills st d metadata config Hm) as [Hs Hl].
    rewrite E in Hs, Hl. simpl in Hs, Hl.
    destruct Hs as [(d' & -> & Hd' & _)|[-> [e He]]].
    + split; [|split].
      * rewrite lookup_app_l by (eapply lookup_lt_Some; exact Hm). exact Hm.
      * intros l d0 Hl0. rewrite lookup_app_l by (eapply lookup_lt_Some; exact Hl0).
        exact Hl0.
      * intros formatted ->. destruct (Hl _ eq_refl) as [-> (d2 & E2 & _ & Hks)].
        apply app_inj_tail in E2. destruct E2 as [_ <-].
        split; [apply lookup_ge_None; lia|].
        exists d, d'. split; [reflexivity|]. split.
        { rewrite lookup_app_r by lia. rewrite Nat.sub_diag. reflexivity. }
        split; [|exact Hd'].
        intros k Hk. apply Hks. apply list_elem_of_In in Hk.
        apply list_elem_of_In. unfold derived_keys in Hk. simpl in Hk |- *. tauto.
    + split; [exact Hm|]. split; [auto|]. intros formatted ->. discriminate He.
  - destruct (apply_formatting_rules_dangling st metadata config Hm) as [Hs [e He]].
    rewrite E in Hs, He. simpl in Hs, He. subst st'.
    split; [exact Hm|]. split; [auto|]. intros formatted ->. discriminate He.
Qed.

End FormatterFacts.

(** ** audible_client.py *)

Module AudibleClientFacts.
Import Py World AudibleClient.

Lemma bind_eq {A B} (m : M A) (k : A -> M B) w a w1 :
  m w = (Ok a, w1) -> bind m k w = k a w1.
Proof. intros H. unfold bind. rewrite H. reflexivity. Qed.

Lemma bind_lift {A B} (r : result A) (k : A -> M B) w :
  bind (lift r) k w = match r with Ok a => k a w | Raise e => (Raise e, w) end.
Proof. unfold bind, lift. destruct r; reflexivity. Qed.

Lemma _make_api_request_events E url params w :
  exists data, _make_api_request E url params w = (Ok data, emit (EvGet url params) w).
Proof.
  unfold _make_api_request.
  destruct (session_get E (events w) url params) as [status body|]; [|eauto].
  destruct ((status =? 401) || (status =? 403)); [eauto|].
  destruct (status =? 404); [eauto|].
  destruct ((400 <=? status) && (status <? 600)); [eauto|].
  destruct body; eauto.
Qed.

Lemma search_by_keywords_events E keywords n w r w' :
  search_by_keywords E keywords n w = (r, w') ->
  w' = emit (EvGet (KEYWORD_SEARCH_URL_TEMPLATE (to_str (runtime E) keywords)) (Some n)) w.
Proof.
  unfold search_by_keywords.
  destruct (_make_api_request_events E
    (KEYWORD_SEARCH_URL_TEMPLATE (to_str (runtime E) keywords)) (Some n) w) as [data Hd].
  rewrite (bind_eq _ _ _ _ _ Hd), bind_lift.
  destruct (has_key data (lit "products")) as [[]|]; unfold lift, ret; congruence.
Qed.

(** When [v] is not the string [s], [v == s] is false whatever the
    interpreter does with other types. *)
Lemma eq_str_false R v s : v <> PStr s -> eq R v (PStr s) = false.
Proof.
  intros Hne. destruct v; simpl; try reflexivity.
  unfold str_eqb. apply bool_decide_eq_false. congruence.
Qed.

(** C2: when the direct lookup of an identifier gives no product and the top
    result of the keyword search for it carries another identifier, the fetch
    returns None.  The only requests made are that lookup and that search:
    the data of the other identifier is not even asked for. *)
Theorem mismatched_identifier_is_refused
    (E : Env) (asin : str) (w w1 w2 : world) (data results top matched : pyval)
    (Hdirect : _make_api_request E (DIRECT_ASIN_URL_TEMPLATE asin) None w = (Ok data, w1))
    (Hfail : has_key data (lit "product") = Ok false)
    (Hsearch : search_by_keywords E (PStr asin) 1 w1 = (Ok results, w2))
    (Htop : getitem0 results = Ok top)
    (Hid : get top (lit "asin") PNone = Ok matched)
    (Hdiff : matched <> PStr asin) :
  get_metadata_by_asin E (PStr asin) w = (Ok PNone, w2)
  /\ events w2 = events w ++ [ EvGet (DIRECT_ASIN_URL_TEMPLATE asin) None;
                               EvGet (KEYWORD_SEARCH_URL_TEMPLATE asin) (Some 1) ].
Proof.
  split.
  - unfold get_metadata_by_asin. simpl to_str.
    rewrite (bind_eq _ _ _ _ _ Hdirect), bind_lift, Hfail.
    rewrite (bind_eq _ _ _ _ _ Hsearch).
    destruct (truthy results); simpl; [|reflexivity].
    rewrite bind_lift, Htop, bind_lift, Hid.
    destruct (truthy matched); simpl; [|reflexivity].
    rewrite (eq_str_false _ _ _ Hdiff). reflexivity.
  - apply search_by_keywords_events in Hsearch. simpl in Hsearch.
    destruct (_make_api_request_events E (DIRECT_ASIN_URL_TEMPLATE asin) None w)
      as [data' Hd]. rewrite Hd in Hdirect. inversion Hdirect; subst.
    simpl. rewrite <- app_assoc. reflexivity.
Qed.

(** The catalog answers 404 to the lookup of B0ABCD1234 and its search finds
    B0ZZZZ9999. *)
Lemma mismatched_identifier_witness :
  get_metadata_by_asin Sample.env_mismatch (Sample.ps "B0ABCD1234") Main.start
  = (Ok PNone,
     emit (EvGet (KEYWORD_SEARCH_URL_TEMPLATE (lit "B0ABCD1234")) (Some 1))
          (emit (EvGet (DIRECT_ASIN_URL_TEMPLATE (lit "B0ABCD1234")) None) Main.start)).
Proof.
  refine (proj1 (mismatched_identifier_is_refused Sample.env_mismatch
    (lit "B0ABCD1234") Main.start _ _ PNone
    (PList [Sample.other_product]) Sample.other_product (Sample.ps "B0ZZZZ9999")
    _ _ _ _ _ _)).
  - vm_compute. reflexivity.
  - reflexivity.
  - vm_compute. reflexivity.
  - reflexivity.
  - reflexivity.
  - discriminate.
Defined.

End AudibleClientFacts.

(** ** utils.py, sanitize_filename *)

Module UtilsFacts.
Import Py Utils Notions.

(** *** The three substitutions *)

Lemma invalid_sub_free first s : free_of_invalid (invalid_sub first s).
Proof.
  revert first. induction s as [|c rest IH]; intros first; simpl.
  - constructor.
  - destruct (invalid_char c) eqn:Hc; simpl; [apply IH|].
    destruct ((c =? 46)%N && at_dollar rest || first && is_space c
              || is_space c && at_dollar rest); [apply IH|].
    constructor; [exact Hc|apply IH].
Qed.

Lemma sub_runs_free b s :
  free_of_invalid s -> free_of_invalid (sub_runs is_space b s).
Proof.
  intros H. revert b. induction H as [|c rest Hc Hrest IH]; intros b; simpl.
  - constructor.
  - destruct (is_space c); [destruct b|].
    + apply IH.
    + constructor; [reflexivity|apply IH].
    + constructor; [exact Hc|apply IH].
Qed.

Lemma sub_runs_tidy b s : tidy b (sub_runs is_space b s).
Proof.
  revert b. induction s as [|c rest IH]; intros b; simpl; [exact I|].
  destruct (is_space c) eqn:Hc; [destruct b|]; simpl.
  - apply IH.
  - split; [reflexivity|]. split; [reflexivity|apply IH].
  - rewrite Hc. apply IH.
Qed.

Lemma tidy_any b s : tidy b s -> tidy false s.
Proof.
  destruct s as [|c rest]; simpl; [trivial|].
  destruct (is_space c); [|trivial]. intros (? & -> & ?). auto.
Qed.

Lemma tidy_head b c rest : is_space c = false -> tidy b (c :: rest) <-> tidy false rest.
Proof. intros Hc. simpl. rewrite Hc. reflexivity. Qed.

Lemma tidy_prefix b s t : tidy b (s ++ t) -> tidy b s.
Proof.
  revert b. induction s as [|c rest IH]; intros b; simpl; [trivial|].
  destruct (is_space c).
  - intros (? & ? & H). split; [assumption|]. split; [assumption|]. eapply IH, H.
  - apply IH.
Qed.

(** *** strip *)

Lemma lstrip_suffix s : exists p, s = p ++ lstrip s.
Proof.
  induction s as [|c rest [p Hp]]; simpl.
  - exists []. reflexivity.
  - destruct (is_space c).
    + exists (c :: p). simpl. congruence.
    + exists []. reflexivity.
Qed.

Lemma lstrip_no_lead s : no_lead (lstrip s).
Proof.
  induction s as [|c rest IH]; simpl; [exact I|].
  destruct (is_space c) eqn:Hc; [exact IH|]. simpl. exact Hc.
Qed.

Lemma lstrip_id s : no_lead s -> lstrip s = s.
Proof. destruct s as [|c rest]; simpl; [reflexivity|]. intros ->. reflexivity. Qed.

Lemma lstrip_tidy b s : tidy b s -> tidy false (lstrip s).
Proof.
  revert b. induction s as [|c rest IH]; intros b; simpl; [trivial|].
  destruct (is_space c) eqn:Hc.
  - intros (_ & _ & H). eapply IH, H.
  - intros H. simpl. rewrite Hc. exact H.
Qed.

Lemma rstrip_prefix s : exists t, s = rstrip s ++ t.
Proof.
  unfold rstrip. destruct (lstrip_suffix (rev s)) as [p Hp].
  exists (rev p). rewrite <- rev_app_distr, <- Hp, rev_involutive. reflexivity.
Qed.

Lemma rstrip_no_trail s : no_trail (rstrip s).
Proof. unfold no_trail, rstrip. rewrite rev_involutive. apply lstrip_no_lead. Qed.

Lemma rstrip_id s : no_trail s -> rstrip s = s.
Proof. intros H. unfold rstrip. rewrite lstrip_id by exact H. apply rev_involutive. Qed.

Lemma no_lead_prefix s t : no_lead (s ++ t) -> no_lead s.
Proof. destruct s; simpl; trivial. Qed.

Lemma free_prefix s t : free_of_invalid (s ++ t) -> free_of_invalid s.
Proof. intros H. apply Forall_app in H. tauto. Qed.

Lemma free_suffix s t : free_of_invalid (s ++ t) -> free_of_invalid t.
Proof. intros H. apply Forall_app in H. tauto. Qed.

Lemma clean_wellformed s : wellformed (clean s).
Proof.
  unfold clean, strip, multi_space_sub.
  set (a := sub_runs is_space false (invalid_sub true s)).
  assert (Ha : free_of_invalid a) by apply sub_runs_free, invalid_sub_free.
  assert (Ta : tidy false a) by apply sub_runs_tidy.
  destruct (lstrip_suffix a) as [p Hp].
  destruct (rstrip_prefix (lstrip a)) as [t Ht].
  split.
  - eapply free_prefix. rewrite <- Ht. eapply free_suffix. rewrite <- Hp. exact Ha.
  - eapply tidy_prefix. rewrite <- Ht. eapply lstrip_tidy, Ta.
  - eapply no_lead_prefix. rewrite <- Ht. apply lstrip_no_lead.
  - apply rstrip_no_trail.
Qed.

(** *** The truncation *)

Lemma rindex_range c s : -1 <= rindex c s < Z.of_nat (length s).
Proof.
  induction s as [|x rest IH]; simpl length; simpl rindex; [lia|].
  destruct (0 <=? rindex c rest) eqn:H; [lia|].
  destruct (x =? c)%N; lia.
Qed.

Lemma rindex_absent c s : rindex c s < 0 -> Forall (fun x => x <> c) s.
Proof.
  induction s as [|x rest IH]; simpl; [constructor|].
  destruct (0 <=? rindex c rest) eqn:H.
  - pose proof (rindex_range c rest). lia.
  - destruct (x =? c)%N eqn:Hx; [lia|]. intros _.
    constructor; [apply N.eqb_neq, Hx|apply IH; lia].
Qed.

Lemma rindex_found c s :
  0 <= rindex c s -> exists rest, s = take (Z.to_nat (rindex c s)) s ++ c :: rest.
Proof.
  induction s as [|x s' IH]; simpl; [lia|].
  destruct (0 <=? rindex c s') eqn:H.
  - intros _. destruct IH as [rest Hrest]; [lia|].
    exists rest. replace (Z.to_nat (rindex c s' + 1)) with (Datatypes.S (Z.to_nat (rindex c s'))) by lia.
    simpl. f_equal. exact Hrest.
  - destruct (x =? c)%N eqn:Hx; [|lia]. intros _.
    apply N.eqb_eq in Hx. subst x. exists s'. reflexivity.
Qed.

Lemma no_trail_cons x u : u <> [] -> no_trail (x :: u) <-> no_trail u.
Proof.
  intros Hu. unfold no_trail. simpl rev.
  destruct (rev u) as [|y r] eqn:Hr.
  - apply (f_equal (@rev N)) in Hr. rewrite rev_involutive in Hr. contradiction.
  - reflexivity.
Qed.

Lemma tidy_before_space b u c r :
  tidy b (u ++ c :: r) -> is_space c = true -> no_trail u.
Proof.
  intros H Hc. revert b H. induction u as [|x u' IH]; intros b H; [exact I|].
  destruct u' as [|y u''].
  - simpl in H. unfold no_trail. simpl. destruct (is_space x); [|reflexivity].
    rewrite Hc in H. destruct H as (_ & _ & _ & ? & _). discriminate.
  - apply no_trail_cons; [discriminate|].
    simpl app in H. simpl tidy in H. destruct (is_space x).
    + destruct H as (_ & _ & H). eapply IH, H.
    + eapply IH, H.
Qed.

Lemma tidy_spaces b u :
  tidy b u -> Forall (fun x => x <> 32%N) u -> Forall (fun x => is_space x = false) u.
Proof.
  intros H F. revert b H. induction F as [|x u' Hx F IH]; intros b H; [constructor|].
  simpl in H. destruct (is_space x) eqn:Hs.
  - destruct H as [? _]. contradiction.
  - constructor; [exact Hs|]. eapply IH, H.
Qed.

Lemma no_space_no_trail u : Forall (fun x => is_space x = false) u -> no_trail u.
Proof.
  intros F. unfold no_trail. apply Forall_rev in F.
  destruct (rev u); [exact I|]. inversion F. assumption.
Qed.

(** The two cuts, for a limit that is not negative and shorter than the
    string. *)
Lemma slice_to_take s k :
  0 <= k <= Z.of_nat (length s) -> slice_to s k = take (Z.to_nat k) s.
Proof.
  intros Hk. unfold slice_to, slice_end.
  destruct (k <? 0) eqn:H; [lia|]. f_equal. lia.
Qed.

Lemma truncate_wellformed s max_length :
  0 <= max_length -> wellformed s ->
  wellformed (truncate s max_length)
  /\ Z.of_nat (length (truncate s max_length)) <= max_length.
Proof.
  intros Hmax [Hf Ht Hl Hr]. unfold truncate.
  destruct (Z.of_nat (length s) >? max_length) eqn:Hlen;
    [|split; [split; assumption|lia]].
  assert (Hlt : max_length < Z.of_nat (length s)) by lia.
  cbv zeta. unfold rfind. rewrite (slice_to_take s max_length) by lia.
  set (n := Z.to_nat max_length).
  set (i := rindex 32%N (take n s)).
  pose proof (rindex_range 32%N (take n s)) as Hi. fold i in Hi.
  rewrite length_take in Hi.
  assert (Hpre : forall k, exists t, s = take k s ++ t).
  { intros k. exists (drop k s). symmetry. apply take_drop. }
  destruct (i >? 0) eqn:Hpos.
  - rewrite (slice_to_take s i) by lia.
    destruct (rindex_found 32%N (take n s)) as [rest Hrest]; [fold i; lia|].
    fold i in Hrest. rewrite take_take in Hrest.
    replace (Z.to_nat i `min` n)%nat with (Z.to_nat i) in Hrest by lia.
    destruct (Hpre (Z.to_nat i)) as [t Hs].
    split; [split|].
    + eapply free_prefix. rewrite <- Hs. exact Hf.
    + eapply tidy_prefix. rewrite <- Hs. exact Ht.
    + eapply no_lead_prefix. rewrite <- Hs. exact Hl.
    + destruct (Hpre n) as [t' Hs']. rewrite Hrest, <- app_assoc in Hs'.
      simpl in Hs'. rewrite Hs' in Ht. eapply tidy_before_space; [exact Ht|reflexivity].
    + rewrite length_take. lia.
  - destruct (Hpre n) as [t Hs].
    assert (Tn : tidy false (take n s)) by (eapply tidy_prefix; rewrite <- Hs; exact Ht).
    assert (Ln : no_lead (take n s)) by (eapply no_lead_prefix; rewrite <- Hs; exact Hl).
    split; [split|].
    + eapply free_prefix. rewrite <- Hs. exact Hf.
    + exact Tn.
    + exact Ln.
    + assert (Hneg : i < 0).
      { destruct (Z.eq_dec i 0) as [Hz|]; [|lia]. exfalso.
        destruct (rindex_found 32%N (take n s)) as [rest Hrest]; [fold i; lia|].
        fold i in Hrest. rewrite Hz in Hrest. simpl in Hrest.
        rewrite Hrest in Ln. simpl in Ln. discriminate. }
      apply no_space_no_trail. eapply tidy_spaces; [exact Tn|].
      apply rindex_absent. exact Hneg.
    + rewrite length_take. lia.
Qed.

Lemma wellformed_nil : wellformed [].
Proof. split; [constructor|exact I|exact I|exact I]. Qed.

Lemma sanitize_filename_wellformed s max_length :
  0 <= max_length ->
  wellformed (sanitize_filename s max_length)
  /\ Z.of_nat (length (sanitize_filename s max_length)) <= max_length.
Proof.
  intros Hmax. unfold sanitize_filename. destruct s as [|c rest].
  - split; [apply wellformed_nil|simpl; lia].
  - apply truncate_wellformed; [exact Hmax|apply clean_wellformed].
Qed.

Lemma tidy_only_spaces b s c : tidy b s -> c ∈ s -> is_space c = true -> c = 32%N.
Proof.
  intros H Hc Hs. revert b H. induction Hc as [c rest|c x rest Hc IH]; intros b H; simpl in H.
  - rewrite Hs in H. tauto.
  - destruct (is_space x); [destruct H as (_ & _ & H)|]; eapply (IH Hs), H.
Qed.

(** C7: for a limit that is not negative, the output of sanitize_filename has
    none of the characters the pattern names (the angle brackets, colon,
    double quote, slash, backslash, pipe, question mark, asterisk, newline,
    carriage return, tab); every whitespace character in it is a space, and
    no space follows another ([tidy]: no run of whitespace is left); it has
    no whitespace at either end; and it is not longer than the limit.
    Control characters other than those of the pattern and the whitespace
    ones are not covered. *)
Theorem sanitize_filename_output (s : str) (max_length : Z) (H : 0 <= max_length) :
  let t := sanitize_filename s max_length in
  (forall c, c ∈ t -> c ∉ [60; 62; 58; 34; 47; 92; 124; 63; 42; 10; 13; 9]%N)
  /\ (forall c, c ∈ t -> is_space c = true -> c = 32%N)
  /\ tidy false t
  /\ no_lead t /\ no_trail t
  /\ Z.of_nat (length t) <= max_length.
Proof.
  destruct (sanitize_filename_wellformed s max_length H) as [[Hf Ht Hl Hr] Hlen].
  cbv zeta. split; [|split; [|split; [|split; [|split]]]]; try assumption.
  - intros c Hc Hin. unfold free_of_invalid in Hf. rewrite Forall_forall in Hf.
    apply list_elem_of_In in Hc.
    specialize (Hf c Hc). apply list_elem_of_In in Hin. simpl in Hin.
    unfold invalid_char in Hf.
    repeat match goal with
           | H : _ \/ _ |- _ => destruct H as [<-|H]; [discriminate Hf|]
           end.
    exact Hin.
  - intros c Hc Hs. eapply tidy_only_spaces; eassumption.
Qed.

Lemma sanitize_filename_output_witness :
  sanitize_filename (lit "  My: Book?   part 1. ") 200 = lit "My Book part 1."
  /\ tidy false (sanitize_filename (lit "  My: Book?   part 1. ") 200)
  /\ Z.of_nat (length (sanitize_filename (lit "  My: Book?   part 1. ") 200)) <= 200.
Proof.
  split; [reflexivity|].
  pose proof (sanitize_filename_output (lit "  My: Book?   part 1. ") 200 ltac:(lia))
    as (_ & _ & Htidy & _ & _ & Hlen).
  split; [exact Htidy|exact Hlen].
Defined.

(** A control character that the pattern does not name goes through. *)
Lemma sanitize_filename_keeps_control_character :
  sanitize_filename [97; 1; 98]%N 200 = [97; 1; 98]%N
  /\ is_control 1 = true /\ 1%N ∈ sanitize_filename [97; 1; 98]%N 200.
Proof.
  split; [reflexivity|]. split; [reflexivity|].
  apply list_elem_of_In. simpl. tauto.
Qed.

(** *** A second pass *)

Lemma at_dollar_free rest : free_of_invalid rest -> rest <> [] -> at_dollar rest = false.
Proof.
  intros Hf Hne. destruct rest as [|x [|y r]]; [contradiction| |reflexivity].
  inversion Hf as [|? ? Hx _]; subst. simpl.
  destruct (x =? 10)%N eqn:E; [|reflexivity].
  apply N.eqb_eq in E. subst x. discriminate Hx.
Qed.

Lemma ends_with_period_cons c rest :
  rest <> [] -> ends_with_period (c :: rest) = ends_with_period rest.
Proof.
  intros Hne. unfold ends_with_period. simpl rev.
  destruct (rev rest) as [|y r] eqn:Hr; [|reflexivity].
  apply (f_equal (@rev N)) in Hr. rewrite rev_involutive in Hr. contradiction.
Qed.

Lemma invalid_sub_keep first c rest :
  invalid_char c = false -> (c =? 46)%N && at_dollar rest = false ->
  first && is_space c = false -> is_space c && at_dollar rest = false ->
  invalid_sub first (c :: rest) = c :: invalid_sub false rest.
Proof. intros H1 H2 H3 H4. simpl. rewrite H1, H2, H3, H4. reflexivity. Qed.

Lemma invalid_sub_id first t :
  free_of_invalid t -> (first = true -> no_lead t) -> no_trail t ->
  ends_with_period t = false -> invalid_sub first t = t.
Proof.
  intros Hf. revert first. induction Hf as [|c rest Hc Hrest IH];
    intros first Hl Hr Hp; [reflexivity|].
  assert (Hfirst : first && is_space c = false).
  { destruct first; [|reflexivity]. simpl. apply Hl. reflexivity. }
  destruct rest as [|x rest'].
  - unfold ends_with_period in Hp. simpl in Hp.
    unfold no_trail in Hr. simpl in Hr.
    rewrite invalid_sub_keep; [reflexivity|assumption| |assumption|].
    + rewrite Hp. reflexivity.
    + rewrite Hr. reflexivity.
  - pose proof (at_dollar_free (x :: rest') Hrest ltac:(discriminate)) as Hd.
    rewrite invalid_sub_keep; [|assumption| |assumption|];
      try (rewrite Hd; apply andb_false_r).
    f_equal. apply IH.
    + discriminate.
    + apply no_trail_cons in Hr; [exact Hr|discriminate].
    + rewrite ends_with_period_cons in Hp by discriminate. exact Hp.
Qed.

Lemma sub_runs_id b t : tidy b t -> sub_runs is_space b t = t.
Proof.
  revert b. induction t as [|c rest IH]; intros b H; [reflexivity|].
  simpl in *. destruct (is_space c).
  - destruct H as (-> & -> & H). f_equal. apply IH, H.
  - f_equal. apply IH, H.
Qed.

Lemma clean_id t : wellformed t -> ends_with_period t = false -> clean t = t.
Proof.
  intros [Hf Ht Hl Hr] Hp. unfold clean, multi_space_sub, strip.
  rewrite invalid_sub_id by auto.
  rewrite sub_runs_id by exact Ht.
  rewrite lstrip_id by exact Hl.
  apply rstrip_id, Hr.
Qed.

(** Where a second pass changes nothing: for a limit that is not negative,
    whenever the first result does not end with a period. *)
Theorem sanitize_filename_idempotent_without_final_period
    (s : str) (max_length : Z) (H : 0 <= max_length)
    (Hperiod : ends_with_period (sanitize_filename s max_length) = false) :
  sanitize_filename (sanitize_filename s max_length) max_length
  = sanitize_filename s max_length.
Proof.
  destruct (sanitize_filename_wellformed s max_length H) as [Hw Hlen].
  set (t := sanitize_filename s max_length) in *.
  unfold sanitize_filename at 1. destruct t as [|c rest] eqn:Et; [reflexivity|].
  rewrite clean_id by assumption.
  unfold truncate. destruct (Z.of_nat (length (c :: rest)) >? max_length) eqn:E; [lia|].
  reflexivity.
Qed.

Lemma sanitize_filename_idempotent_witness :
  sanitize_filename (sanitize_filename (lit "  My: Book?   part 1 ") 200) 200
  = sanitize_filename (lit "  My: Book?   part 1 ") 200.
Proof.
  apply (sanitize_filename_idempotent_without_final_period
           (lit "  My: Book?   part 1 ") 200).
  - lia.
  - reflexivity.
Defined.

(** C6: sanitize_filename is not idempotent, because it can return a name
    that ends with a period, which the alternative [\.$] of its pattern is
    there to take off.  The pattern takes one period off the end of the
    input, before the whitespace is stripped and before the name is cut: of
    two final periods one is left; a period before final whitespace is left;
    and a cut at a space can end the name on a period.  A second pass takes
    that period off, so it does not give what the first gave. *)
Theorem sanitize_filename_not_idempotent :
  (sanitize_filename (lit "a..") 200 = lit "a."
   /\ sanitize_filename (sanitize_filename (lit "a..") 200) 200 = lit "a")
  /\ (sanitize_filename (lit "a. ") 200 = lit "a."
      /\ sanitize_filename (sanitize_filename (lit "a. ") 200) 200 = lit "a")
  /\ (sanitize_filename (lit "aaa. bbb") 5 = lit "aaa."
      /\ sanitize_filename (sanitize_filename (lit "aaa. bbb") 5) 5 = lit "aaa")
  /\ ends_with_period (sanitize_filename (lit "a..") 200) = true
  /\ sanitize_filename (sanitize_filename (lit "a..") 200) 200
     <> sanitize_filename (lit "a..") 200.
Proof.
  split; [split; reflexivity|]. split; [split; reflexivity|].
  split; [split; reflexivity|]. split; [reflexivity|]. discriminate.
Qed.

End UtilsFacts.

(** ** main.py, the waterfall *)

Module ResolveFacts.
Import Py World Main AudibleClientFacts.

(** C1: when the file name is a key of the manual map and the identifier
    stored under it is not empty, the waterfall returns that identifier and
    does nothing else: the tags are not read, the file name is not searched
    for an identifier, and no keyword search is made, whatever they would
    have given. *)
Theorem manual_map_entry_wins
    (E : Env) (manual : dict) (input_path item_path : path) (w : world) (v : pyval)
    (Hkey : lookup (name item_path) manual = Some v)
    (Hset : truthy v = true) :
  resolve E (PDict manual) input_path item_path w = (Ok v, w).
Proof.
  unfold resolve. rewrite bind_lift. simpl contains. rewrite Hkey.
  rewrite bool_decide_eq_true_2 by eauto.
  rewrite bind_lift. simpl getitem. rewrite Hkey.
  unfold bind, ret.
  repeat first [ rewrite Hset
               | progress change (negb true) with false
               | progress cbv beta iota ].
  reflexivity.
Qed.

(** The file has an identifier in its tags and one in its name; the one of
    the map is returned and no event is recorded. *)
Lemma manual_map_entry_wins_witness :
  (read_tags Sample.env_tagged [] (path_str Sample.tagged_book)).(tag_asin)
    = Some (lit "B0TAGTAG01")
  /\ ASIN_IN_FILENAME_RE_search Sample.rt (name Sample.tagged_book)
     = Some (lit "B0FILE0001")
  /\ resolve Sample.env_tagged
       (PDict [(lit "MyBook B0FILE0001.m4b", Sample.ps "B0MANUAL01")])
       [lit "in"] Sample.tagged_book start
     = (Ok (Sample.ps "B0MANUAL01"), start).
Proof.
  split; [reflexivity|]. split; [reflexivity|].
  apply (manual_map_entry_wins Sample.env_tagged
           [(lit "MyBook B0FILE0001.m4b", Sample.ps "B0MANUAL01")]).
  - reflexivity.
  - reflexivity.
Defined.

(** With an empty identifier under the key the waterfall goes on to the tags. *)
Lemma manual_map_empty_entry_falls_through :
  lookup (name Sample.tagged_book) [(lit "MyBook B0FILE0001.m4b", PStr [])]
    = Some (PStr [])
  /\ resolve Sample.env_tagged (PDict [(lit "MyBook B0FILE0001.m4b", PStr [])])
       [lit "in"] Sample.tagged_book start
     = (Ok (Sample.ps "B0TAGTAG01"),
        emit (EvReadTags (path_str Sample.tagged_book)) start).
Proof. split; reflexivity. Qed.

(** C8: on MyBook_B0ABCD1234.m4b the pattern of the file-name stage finds
    nothing, because the underscore before the identifier is a word
    character and the pattern asks for a word boundary there; with no tags
    the waterfall then makes the keyword search for the cleaned file name.
    With a space in place of the underscore the identifier is found. *)
Theorem underscore_hides_filename_identifier (R : Runtime) :
  ASIN_IN_FILENAME_RE_search R (lit "MyBook_B0ABCD1234.m4b") = None
  /\ ASIN_IN_FILENAME_RE_search R (lit "MyBook B0ABCD1234.m4b") = Some (lit "B0ABCD1234")
  /\ clean_filename_for_search R (lit "MyBook_B0ABCD1234.m4b") = lit "MyBook B0ABCD1234"
  /\ snd (resolve Sample.env (PDict []) [lit "in"] Sample.book start)
     = emit (EvGet (AudibleClient.KEYWORD_SEARCH_URL_TEMPLATE (lit "MyBook B0ABCD1234"))
                   (Some 1))
            (emit (EvReadTags (path_str Sample.book)) start).
Proof. repeat split; reflexivity. Qed.

End ResolveFacts.

(** ** main.py, the loop *)

Module LoopFacts.
Import Py World Main AudibleClientFacts Notions.

(** *** Exceptions *)

Lemma move_to_failed_folder_returns E source_file output_dir dry move w :
  exists w', FileManager.move_to_failed_folder E source_file output_dir dry move w
             = (Ok tt, w').
Proof.
  unfold FileManager.move_to_failed_folder. destruct dry.
  - eexists. reflexivity.
  - unfold bind, fs_call, ret.
    destruct (fs_ok E (events w) _); eexists; reflexivity.
Qed.

Lemma fail_returns E r item_path w :
  exists w', fail E r item_path w = (Ok Failed, w')
             /\ FileManager.move_to_failed_folder E item_path (output_path r)
                  (dry_run r) (move_files r) w = (Ok tt, w').
Proof.
  unfold fail.
  destruct (move_to_failed_folder_returns E item_path (output_path r)
              (dry_run r) (move_files r) w) as [w' Hw'].
  exists w'. split; [|exact Hw'].
  unfold bind. rewrite Hw'. reflexivity.
Qed.

Lemma process_returns E r item_path best_asin w :
  exists o w', process E r item_path best_asin w = (Ok o, w').
Proof.
  unfold process, try_except.
  destruct (process_body E r item_path best_asin w) as [[o|e] w1].
  - eauto.
  - destruct (fail_returns E r item_path w1) as (w2 & Hw2 & _). eauto.
Qed.

Lemma tally_total c o :
  processed_count (tally c o) + failed_count (tally c o)
  = processed_count c + failed_count c + 1.
Proof. destruct o; simpl; lia. Qed.

Lemma process_item_returns E r c item_path w :
  resolvable E r item_path ->
  exists c' w', process_item E r c item_path w = (Ok c', w')
    /\ processed_count c' + failed_count c' = processed_count c + failed_count c + 1.
Proof.
  intros Hres. destruct (Hres w) as (best_asin & w1 & H1).
  unfold process_item. rewrite (bind_eq _ _ _ _ _ H1).
  destruct (negb (truthy best_asin)).
  - destruct (fail_returns E r item_path w1) as (w2 & H2 & _).
    rewrite (bind_eq _ _ _ _ _ H2). eexists _, _. split; [reflexivity|].
    apply tally_total.
  - destruct (process_returns E r item_path best_asin w1) as (o & w2 & H2).
    rewrite (bind_eq _ _ _ _ _ H2). eexists _, _. split; [reflexivity|].
    apply tally_total.
Qed.

Lemma run_loop_returns E r c book_items w :
  Forall (resolvable E r) book_items ->
  exists c' w', run_loop E r c book_items w = (Ok c', w')
    /\ processed_count c' + failed_count c'
       = processed_count c + failed_count c + Z.of_nat (length book_items).
Proof.
  intros Hall. revert c w. induction Hall as [|item_path rest Hres Hrest IH];
    intros c w; simpl run_loop.
  - eexists _, _. split; [reflexivity|]. simpl. lia.
  - destruct (process_item_returns E r c item_path w Hres) as (c1 & w1 & H1 & Hc1).
    rewrite (bind_eq _ _ _ _ _ H1).
    destruct (IH c1 w1) as (c2 & w2 & H2 & Hc2).
    eexists _, _. split; [exact H2|]. simpl length. lia.
Qed.

(** What the handler of the loop does take.  Once the identifier of a
    candidate is settled, nothing that is raised while the candidate is
    processed (fetching, formatting, organizing, writing the files, the cover,
    the processed log) leaves the turn of the loop: the turn returns, the
    handler has relocated the file to the failed folder, and of the two
    counters the one of the failures, and it alone, is one higher.  So a
    batch whose candidates all come out of the waterfall runs to its end, and
    every candidate is counted once, as processed or as failed. *)
Theorem exceptions_after_resolution_are_contained
    (E : Env) (r : Run) (c : counts) (book_items : list path) (w : world)
    (Hres : Forall (resolvable E r) book_items) :
  (forall item_path best_asin w0 w1 e w2,
      resolve E (asin_map r) (input_path r) item_path w0 = (Ok best_asin, w1) ->
      truthy best_asin = true ->
      process_body E r item_path best_asin w1 = (Raise e, w2) ->
      exists w3,
        process_item E r c item_path w0
        = (Ok {| processed_count := processed_count c;
                 failed_count := failed_count c + 1 |}, w3)
        /\ FileManager.move_to_failed_folder E item_path (output_path r)
             (dry_run r) (move_files r) w2 = (Ok tt, w3))
  /\ exists c' w', run_loop E r c book_items w = (Ok c', w')
       /\ processed_count c' + failed_count c'
          = processed_count c + failed_count c + Z.of_nat (length book_items).
Proof.
  split.
  - intros item_path best_asin w0 w1 e w2 Hresolve Htrue Hbody.
    destruct (fail_returns E r item_path w2) as (w3 & H3 & Hm).
    exists w3. split; [|exact Hm].
    unfold process_item. rewrite (bind_eq _ _ _ _ _ Hresolve), Htrue.
    cbn [negb]. cbv beta iota.
    assert (Hp : process E r item_path best_asin w1 = (Ok Failed, w3)).
    { unfold process, try_except. rewrite Hbody. exact H3. }
    rewrite (bind_eq _ _ _ _ _ Hp). reflexivity.
  - apply run_loop_returns, Hres.
Qed.

(** The field parser raises on the payload of the only candidate: the
    candidate is relocated and counted as failed, and the loop ends. *)
Lemma exceptions_after_resolution_witness :
  run_loop Sample.env_parser_raises (Sample.run false) Sample.zero [Sample.book] start
  = (Ok {| processed_count := 0; failed_count := 1 |},
     {| events :=
          [ EvReadTags (path_str Sample.book);
            EvGet (AudibleClient.KEYWORD_SEARCH_URL_TEMPLATE (lit "MyBook B0ABCD1234")) (Some 1);
            EvGet (AudibleClient.DIRECT_ASIN_URL_TEMPLATE (lit "B0ABCD1234")) None;
            EvFs MoveToFailedFolder (Mkdir [lit "out"; FileManager.FAILED_DIR]);
            EvFs MoveToFailedFolder
              (Copy2 Sample.book
                 [lit "out"; FileManager.FAILED_DIR; lit "MyBook_B0ABCD1234.m4b"]) ];
        processed_log := [] |})
  /\ exists c' w',
       run_loop Sample.env_parser_raises (Sample.run false) Sample.zero [Sample.book] start
       = (Ok c', w')
       /\ processed_count c' + failed_count c' = 0 + 0 + Z.of_nat 1.
Proof.
  split; [vm_compute; reflexivity|].
  refine (proj2 (exceptions_after_resolution_are_contained
    Sample.env_parser_raises (Sample.run false) Sample.zero [Sample.book] start _)).
  constructor; [|constructor].
  intros w. eexists _, _. vm_compute. reflexivity.
Defined.

(** C3: an exception raised in the waterfall leaves run_scan.  The keyword
    search of the catalog answers with a list of names in place of a list of
    products, so that [results[0].get("asin")] raises.  In the waterfall,
    which comes before the [try] of the loop, the exception ends the batch:
    the candidate is not relocated, no counter moves, and the candidates
    after it are never reached.  Inside the [try], where
    get_metadata_by_asin evaluates the same expression for a candidate that
    carries its identifier in its name, the handler takes it: the candidate
    is relocated to the failed folder and the loop goes on to the next. *)
Theorem exception_in_waterfall_ends_the_batch :
  run_scan Sample.env_odd_catalog (Sample.run false)
    [Sample.second_book; Sample.book] start
  = (Raise AttributeError,
     {| events :=
          [ EvReadTags (path_str Sample.second_book);
            EvGet (AudibleClient.KEYWORD_SEARCH_URL_TEMPLATE (lit "Other")) (Some 1) ];
        processed_log := [] |})
  /\ run_scan Sample.env_odd_catalog (Sample.run false)
       [Sample.tagged_book; Sample.second_book; Sample.book] start
     = (Raise AttributeError,
        {| events :=
             [ EvReadTags (path_str Sample.tagged_book);
               EvGet (AudibleClient.DIRECT_ASIN_URL_TEMPLATE (lit "B0FILE0001")) None;
               EvGet (AudibleClient.KEYWORD_SEARCH_URL_TEMPLATE (lit "B0FILE0001"))
                 (Some 1);
               EvFs MoveToFailedFolder (Mkdir [lit "out"; FileManager.FAILED_DIR]);
               EvFs MoveToFailedFolder
                 (Copy2 Sample.tagged_book
                    [lit "out"; FileManager.FAILED_DIR; lit "MyBook B0FILE0001.m4b"]);
               EvReadTags (path_str Sample.second_book);
               EvGet (AudibleClient.KEYWORD_SEARCH_URL_TEMPLATE (lit "Other")) (Some 1) ];
           processed_log := [] |})
  /\ run_scan Sample.env_odd_catalog (Sample.run false) [Sample.tagged_book] start
     = (Ok {| processed_count := 0; failed_count := 1 |},
        {| events :=
             [ EvReadTags (path_str Sample.tagged_book);
               EvGet (AudibleClient.DIRECT_ASIN_URL_TEMPLATE (lit "B0FILE0001")) None;
               EvGet (AudibleClient.KEYWORD_SEARCH_URL_TEMPLATE (lit "B0FILE0001"))
                 (Some 1);
               EvFs MoveToFailedFolder (Mkdir [lit "out"; FileManager.FAILED_DIR]);
               EvFs MoveToFailedFolder
                 (Copy2 Sample.tagged_book
                    [lit "out"; FileManager.FAILED_DIR; lit "MyBook B0FILE0001.m4b"]) ];
           processed_log := [] |}).
Proof. split; [|split]; vm_compute; reflexivity. Qed.

(** The same with a map of manual identifiers that is a list of file names
    and not a dictionary. *)
Lemma exception_in_manual_map_ends_the_batch :
  run_scan Sample.env
    (Sample.run_with_map (PList [Sample.ps "MyBook_B0ABCD1234.m4b"]))
    [Sample.book; Sample.second_book] start
  = (Raise TypeError, start).
Proof. reflexivity. Qed.

(** *** The processed log *)

(** C4: the copy of the candidate to its destination fails, and the candidate
    is all the same counted as processed and entered in the processed log,
    in memory and in the file written from it. *)
Theorem processed_log_entry_despite_failed_copy :
  (forall h, fs_ok Sample.env_copy_fails h (Copy2 Sample.book Sample.placed) = false)
  /\ let '(res, w) :=
       run_scan Sample.env_copy_fails (Sample.run false) [Sample.book] start in
     res = Ok {| processed_count := 1; failed_count := 0 |}
     /\ EvFs SafeFileOp (Copy2 Sample.book Sample.placed) ∈ events w
     /\ lookup (path_str Sample.book) (processed_log w) = Some Sample.entry
     /\ EvFs AppendToProcessedLog
          (WriteJson [lit "out"; ProcessedLog.PROCESSED_LOG_NAME]
             (PDict [(path_str Sample.book, Sample.entry)]))
        ∈ events w.
Proof.
  split; [reflexivity|].
  vm_compute run_scan.
  split; [reflexivity|]. split; [|split; [reflexivity|]].
  - apply list_elem_of_In. vm_compute. tauto.
  - apply list_elem_of_In. vm_compute. tauto.
Qed.

End LoopFacts.

(** ** Dry runs *)

Module DryRunFacts.
Import Py World Main AudibleClientFacts LoopFacts Notions.

(** *** Computations that only add events of one kind *)

Section Emits.
Context (P : event -> Prop).

Lemma emits_ret {A} (a : A) : emits P (ret a).
Proof. intros w. exists []. rewrite app_nil_r. split; [reflexivity|constructor]. Qed.

Lemma emits_lift {A} (r : result A) : emits P (lift r).
Proof. intros w. exists []. rewrite app_nil_r. split; [reflexivity|constructor]. Qed.

Lemma emits_raise {A} e : emits P (@raise A e).
Proof. intros w. exists []. rewrite app_nil_r. split; [reflexivity|constructor]. Qed.

Lemma emits_bind {A B} (m : M A) (k : A -> M B) :
  emits P m -> (forall a, emits P (k a)) -> emits P (bind m k).
Proof.
  intros Hm Hk w. destruct (Hm w) as (evs & He & Hp). unfold bind.
  destruct (m w) as [[a|e] w1]; simpl in He.
  - destruct (Hk a w1) as (evs' & He' & Hp'). exists (evs ++ evs').
    rewrite He', He, app_assoc. split; [reflexivity|]. apply Forall_app; auto.
  - exists evs. auto.
Qed.

Lemma emits_try_except {A} (m : M A) (h : exn -> M A) :
  emits P m -> (forall e, emits P (h e)) -> emits P (try_except m h).
Proof.
  intros Hm Hh w. destruct (Hm w) as (evs & He & Hp). unfold try_except.
  destruct (m w) as [[a|e] w1]; simpl in He.
  - exists evs. auto.
  - destruct (Hh e w1) as (evs' & He' & Hp'). exists (evs ++ evs').
    rewrite He', He, app_assoc. split; [reflexivity|]. apply Forall_app; auto.
Qed.

Lemma emits_one {A} (f : world -> result A) (e : event) :
  P e -> emits P (fun w => (f w, emit e w)).
Proof. intros He w. exists [e]. split; [reflexivity|]. constructor; [exact He|constructor]. Qed.

Lemma emits_fs_call E s op : P (EvFs s op) -> emits P (fs_call E s op).
Proof. intros He. apply (emits_one (fun w => Ok (fs_ok E (events w) op))), He. Qed.

Lemma emits_log_would x : P (EvWould x) -> emits P (log_would x).
Proof. intros He. apply (emits_one (fun _ => Ok tt)), He. Qed.

Lemma emits_exists E p : emits P (exists_ E p).
Proof. intros w. exists []. rewrite app_nil_r. split; [reflexivity|constructor]. Qed.

Lemma emits_tags_of E item_path :
  P (EvReadTags (path_str item_path)) -> emits P (tags_of E item_path).
Proof.
  intros He.
  apply (emits_one (fun w => Ok (read_tags E (events w) (path_str item_path)))), He.
Qed.

Lemma emits_request E url params :
  P (EvGet url params) -> emits P (AudibleClient._make_api_request E url params).
Proof.
  intros He w. exists [EvGet url params].
  destruct (_make_api_request_events E url params w) as [data Hd]. rewrite Hd.
  split; [reflexivity|]. constructor; [exact He|constructor].
Qed.

Lemma emits_set_entry k v : emits P (ProcessedLog.set_entry k v).
Proof. intros w. exists []. rewrite app_nil_r. split; [reflexivity|constructor]. Qed.

Lemma emits_current_log : emits P ProcessedLog.current_log.
Proof. intros w. exists []. rewrite app_nil_r. split; [reflexivity|constructor]. Qed.

End Emits.

Lemma emits_weaken (P Q : event -> Prop) {A} (m : M A) :
  (forall e, P e -> Q e) -> emits P m -> emits Q m.
Proof.
  intros HPQ Hm w. destruct (Hm w) as (evs & He & Hp). exists evs.
  split; [exact He|]. eapply Forall_impl; eauto.
Qed.

Create HintDb emits.

(** One step of such a proof: a function already dealt with, the structure of
    the computation, or the event at a leaf. *)
Ltac emits_leaf := first [ solve [auto] | reflexivity | exact I ].

Ltac emits_step :=
  first
    [ solve [eauto 3 with emits]
    | apply emits_ret | apply emits_lift | apply emits_raise
    | apply emits_exists | apply emits_set_entry | apply emits_current_log
    | apply emits_bind; [|intros ?]
    | apply emits_try_except; [|intros ?]
    | apply emits_fs_call; emits_leaf
    | apply emits_log_would; emits_leaf
    | apply emits_tags_of; emits_leaf
    | apply emits_request; emits_leaf
    | match goal with
      | |- emits _ (if ?b then _ else _) => destruct b
      | |- emits _ (match ?x with _ => _ end) => destruct x
      end ].

Ltac emits_tac := repeat emits_step.

(** *** What each function adds *)

Section Queries.
Context (P : event -> Prop).
Context (Htags : forall file, P (EvReadTags file)).
Context (Hget : forall url params, P (EvGet url params)).

Lemma emits_search E keywords n : emits P (AudibleClient.search_by_keywords E keywords n).
Proof. unfold AudibleClient.search_by_keywords. emits_tac. Qed.
#[local] Hint Resolve emits_search : emits.

Lemma emits_get_metadata E asin : emits P (AudibleClient.get_metadata_by_asin E asin).
Proof. unfold AudibleClient.get_metadata_by_asin. emits_tac. Qed.

Lemma emits_resolve E manual input_path item_path :
  emits P (resolve E manual input_path item_path).
Proof. unfold resolve. emits_tac. Qed.

End Queries.

#[export] Hint Resolve emits_search emits_get_metadata emits_resolve : emits.

(** In a dry run nothing but queries and log lines. *)
Section Dry.
Context (P : event -> Prop).
Context (Htags : forall file, P (EvReadTags file)).
Context (Hget : forall url params, P (EvGet url params)).
Context (Hwould : forall x, P (EvWould x)).

Lemma emits_failed_dry E source_file output_dir move :
  emits P (FileManager.move_to_failed_folder E source_file output_dir true move).
Proof. unfold FileManager.move_to_failed_folder. emits_tac. Qed.

Lemma emits_organize_dry E source_file output_dir metadata config move :
  emits P (FileManager.organize_audio_file E source_file output_dir metadata config true move).
Proof.
  unfold FileManager.organize_audio_file, FileManager.create_book_structure.
  emits_tac.
Qed.

Lemma emits_write_dry E metadata folder_path create_opf :
  emits P (MetadataWriter.write_metadata_files E metadata folder_path true create_opf).
Proof.
  unfold MetadataWriter.write_metadata_files, MetadataWriter.write_opf,
    MetadataWriter.write_text_if.
  emits_tac.
Qed.

Lemma emits_cover_dry E cover_url save_path :
  emits P (AudibleClient.download_cover E cover_url save_path true).
Proof. unfold AudibleClient.download_cover. emits_tac. Qed.

End Dry.

#[export] Hint Resolve emits_failed_dry emits_organize_dry emits_write_dry
  emits_cover_dry : emits.

Lemma emits_run_loop_dry E r c book_items :
  dry_run r = true -> emits benign (run_loop E r c book_items).
Proof.
  intros Hdry. revert c. induction book_items as [|item_path rest IH]; intros c;
    simpl run_loop.
  - apply emits_ret.
  - apply emits_bind; [|intros c'; apply IH].
    unfold process_item, process, process_body, fail. rewrite Hdry.
    assert (forall file, benign (EvReadTags file)) by (intros; exact I).
    assert (forall url params, benign (EvGet url params)) by (intros; exact I).
    assert (forall x, benign (EvWould x)) by (intros; exact I).
    emits_tac.
Qed.

(** Fetching a cover, writing the metadata files and updating the processed
    log decide nothing. *)
Lemma emits_cover (P : event -> Prop) E cover_url save_path dry :
  P (EvWould (WouldDownload cover_url save_path)) -> P (EvCover cover_url save_path) ->
  emits P (AudibleClient.download_cover E cover_url save_path dry).
Proof.
  intros Hw Hc. unfold AudibleClient.download_cover.
  destruct (negb (truthy cover_url)); [apply emits_ret|].
  destruct dry; [emits_tac|].
  intros w. exists [EvCover cover_url save_path].
  destruct (cover_get E (events w) cover_url save_path);
    (split; [reflexivity|constructor; [exact Hc|constructor]]).
Qed.

Lemma emits_write_undecided E metadata folder_path dry create_opf :
  emits undecided (MetadataWriter.write_metadata_files E metadata folder_path dry create_opf).
Proof.
  unfold MetadataWriter.write_metadata_files, MetadataWriter.write_opf,
    MetadataWriter.write_text_if, MetadataWriter._safe_write.
  emits_tac.
Qed.

Lemma emits_append_undecided E output_dir original_file_path metadata :
  emits undecided
    (ProcessedLog.append_to_processed_log E output_dir original_file_path metadata).
Proof. unfold ProcessedLog.append_to_processed_log. emits_tac. Qed.

(** *** Computations that do not depend on the world *)

Lemma add_nil w : add [] w = w.
Proof. destruct w. unfold add. simpl. rewrite app_nil_r. reflexivity. Qed.

Lemma add_add a b w : add b (add a w) = add (a ++ b) w.
Proof. unfold add. simpl. rewrite app_assoc. reflexivity. Qed.

Lemma decisions_app a b : decisions (a ++ b) = decisions a ++ decisions b.
Proof. apply omap_app. Qed.

Lemma decisions_undecided evs : Forall undecided evs -> decisions evs = [].
Proof.
  induction 1 as [|e evs He _ IH]; [reflexivity|].
  unfold decisions. simpl. rewrite He. exact IH.
Qed.

Lemma steady_ret {A} (a : A) : steady (ret a).
Proof. exists (Ok a), []. split; [constructor|]. intros w. rewrite add_nil. reflexivity. Qed.

Lemma steady_lift {A} (r : result A) : steady (lift r).
Proof. exists r, []. split; [constructor|]. intros w. rewrite add_nil. reflexivity. Qed.

Lemma steady_bind {A B} (m : M A) (k : A -> M B) :
  steady m -> (forall a, steady (k a)) -> steady (bind m k).
Proof.
  intros (res & evs & Hu & Hm) Hk. destruct res as [a|e].
  - destruct (Hk a) as (res' & evs' & Hu' & Hk').
    exists res', (evs ++ evs'). split; [apply Forall_app; auto|].
    intros w. unfold bind. rewrite Hm, Hk', add_add. reflexivity.
  - exists (Raise e), evs. split; [exact Hu|].
    intros w. unfold bind. rewrite Hm. reflexivity.
Qed.

Section Fixed.
Context (E : Env) (Hfixed : fixed_inputs E).

Lemma steady_tags_of item_path : steady (tags_of E item_path).
Proof.
  exists (Ok (read_tags E [] (path_str item_path))), [EvReadTags (path_str item_path)].
  split; [constructor; [reflexivity|constructor]|].
  intros w. unfold tags_of. rewrite (proj1 Hfixed). reflexivity.
Qed.

Lemma steady_request url params : steady (AudibleClient._make_api_request E url params).
Proof.
  exists (fst (AudibleClient._make_api_request E url params start)), [EvGet url params].
  split; [constructor; [reflexivity|constructor]|].
  intros w. unfold AudibleClient._make_api_request.
  rewrite (proj2 Hfixed (events w)). simpl events.
  destruct (session_get E [] url params) as [status body|]; [|reflexivity].
  destruct ((status =? 401) || (status =? 403)); [reflexivity|].
  destruct (status =? 404); [reflexivity|].
  destruct ((400 <=? status) && (status <? 600)); [reflexivity|].
  destruct body; reflexivity.
Qed.

Ltac steady_step :=
  lazymatch goal with
  | |- steady (ret _) => apply steady_ret
  | |- steady (lift _) => apply steady_lift
  | |- steady (tags_of _ _) => apply steady_tags_of
  | |- steady (AudibleClient._make_api_request _ _ _) => apply steady_request
  | |- steady (bind _ _) => apply steady_bind; [|intros ?]
  | |- steady (if ?b then _ else _) => destruct b
  | |- steady (match ?x with _ => _ end) => destruct x
  end.

Lemma steady_search keywords n : steady (AudibleClient.search_by_keywords E keywords n).
Proof. unfold AudibleClient.search_by_keywords. repeat steady_step. Qed.

Ltac steady_tac :=
  repeat lazymatch goal with
         | |- steady (AudibleClient.search_by_keywords _ _ _) => apply steady_search
         | _ => steady_step
         end.

Lemma steady_get_metadata asin : steady (AudibleClient.get_metadata_by_asin E asin).
Proof.
  unfold AudibleClient.get_metadata_by_asin. steady_tac.
Qed.

Lemma steady_resolve manual input_path item_path :
  steady (resolve E manual input_path item_path).
Proof.
  unfold resolve. steady_tac.
Qed.

End Fixed.

End DryRunFacts.

(** ** utils.py, more on sanitize_filename *)

Module SanitizeFacts.
Import Py Utils Notions UtilsFacts.

Lemma invalid_sub_length first s : (length (invalid_sub first s) <= length s)%nat.
Proof.
  revert first. induction s as [|c rest IH]; intros first; simpl; [lia|].
  specialize (IH false).
  match goal with |- context [if ?b then _ else _] => destruct b end; simpl; lia.
Qed.

Lemma sub_runs_length cls b s : (length (sub_runs cls b s) <= length s)%nat.
Proof.
  revert b. induction s as [|c rest IH]; intros b; simpl; [lia|].
  pose proof (IH true). pose proof (IH false).
  destruct (cls c); [destruct b|]; simpl; lia.
Qed.

Lemma lstrip_length s : (length (lstrip s) <= length s)%nat.
Proof. induction s as [|c rest IH]; simpl; [lia|]. destruct (is_space c); simpl; lia. Qed.

Lemma rstrip_length s : (length (rstrip s) <= length s)%nat.
Proof.
  unfold rstrip. rewrite length_rev. pose proof (lstrip_length (rev s)) as H.
  rewrite length_rev in H. exact H.
Qed.

Lemma clean_length s : (length (clean s) <= length s)%nat.
Proof.
  unfold clean, strip, multi_space_sub.
  pose proof (rstrip_length (lstrip (sub_runs is_space false (invalid_sub true s)))).
  pose proof (lstrip_length (sub_runs is_space false (invalid_sub true s))).
  pose proof (sub_runs_length is_space false (invalid_sub true s)).
  pose proof (invalid_sub_length true s). lia.
Qed.

Lemma slice_to_length s k : (length (slice_to s k) <= length s)%nat.
Proof. unfold slice_to. rewrite length_take. lia. Qed.

Lemma truncate_length s max_length : (length (truncate s max_length) <= length s)%nat.
Proof.
  unfold truncate. destruct (_ >? _); [|lia]. cbv zeta.
  destruct (_ >? _); apply slice_to_length.
Qed.

(** X1: whatever the limit, the output of sanitize_filename is never longer
    than its input. *)
Theorem sanitize_filename_never_longer (filename : str) (max_length : Z) :
  (length (sanitize_filename filename max_length) <= length filename)%nat.
Proof.
  unfold sanitize_filename. destruct filename as [|c rest]; [simpl; lia|].
  pose proof (truncate_length (clean (c :: rest)) max_length).
  pose proof (clean_length (c :: rest)). lia.
Qed.

Lemma invalid_sub_drops_final_period first t :
  ends_with_period t = true -> (length (invalid_sub first t) < length t)%nat.
Proof.
  revert first. induction t as [|c rest IH]; intros first Hp; [discriminate Hp|].
  destruct rest as [|x rest'].
  - unfold ends_with_period in Hp. simpl in Hp. simpl. rewrite Hp.
    rewrite orb_true_r. simpl. lia.
  - rewrite ends_with_period_cons in Hp by discriminate.
    specialize (IH false Hp).
    change (invalid_sub first (c :: x :: rest'))
      with (if invalid_char c || (c =? 46)%N && at_dollar (x :: rest')
               || first && is_space c || is_space c && at_dollar (x :: rest')
            then invalid_sub false (x :: rest')
            else c :: invalid_sub false (x :: rest')).
    destruct (_ || _); simpl length in *; lia.
Qed.

Lemma sanitize_filename_id t max_length :
  wellformed t -> ends_with_period t = false -> Z.of_nat (length t) <= max_length ->
  sanitize_filename t max_length = t.
Proof.
  intros Hw Hp Hlen. unfold sanitize_filename.
  destruct t as [|c rest]; [reflexivity|].
  rewrite clean_id by assumption. unfold truncate.
  destruct (Z.of_nat (length (c :: rest)) >? max_length) eqn:E; [lia|reflexivity].
Qed.

(** X2: for a limit that is not negative, the strings sanitize_filename
    leaves as they are are exactly those that have no character of the
    pattern, no whitespace other than single inner spaces, no period at the
    end, and are within the limit. *)
Theorem sanitize_filename_fixed_points (t : str) (max_length : Z)
    (H : 0 <= max_length) :
  sanitize_filename t max_length = t
  <-> wellformed t /\ ends_with_period t = false /\ Z.of_nat (length t) <= max_length.
Proof.
  split.
  - intros Heq.
    destruct (sanitize_filename_wellformed t max_length H) as [Hw Hlen].
    rewrite Heq in Hw, Hlen. split; [exact Hw|]. split; [|exact Hlen].
    destruct (ends_with_period t) eqn:Hp; [exfalso|reflexivity].
    destruct t as [|c rest]; [discriminate Hp|].
    unfold sanitize_filename in Heq.
    pose proof (truncate_length (clean (c :: rest)) max_length) as H1.
    rewrite Heq in H1. unfold clean, strip, multi_space_sub in H1.
    pose proof (rstrip_length (lstrip (sub_runs is_space false (invalid_sub true (c :: rest))))).
    pose proof (lstrip_length (sub_runs is_space false (invalid_sub true (c :: rest)))).
    pose proof (sub_runs_length is_space false (invalid_sub true (c :: rest))).
    pose proof (invalid_sub_drops_final_period true (c :: rest) Hp). lia.
  - intros (Hw & Hp & Hlen). apply sanitize_filename_id; assumption.
Qed.

Lemma sanitize_filename_fixed_points_witness :
  sanitize_filename (lit "My Book") 200 = lit "My Book"
  <-> wellformed (lit "My Book") /\ ends_with_period (lit "My Book") = false
      /\ Z.of_nat (length (lit "My Book")) <= 200.
Proof. apply (sanitize_filename_fixed_points (lit "My Book") 200). lia. Defined.

(** X3: when the cleaned name is longer than the limit, the output is the
    part of it before one of its spaces, and is not empty; or, when there is
    no space within the limit, its first [max_length] characters. *)
Theorem sanitize_filename_cuts_at_a_space (filename : str) (max_length : Z)
    (H : 0 <= max_length)
    (Hlong : max_length < Z.of_nat (length (clean filename))) :
  let t := sanitize_filename filename max_length in
  (exists rest, clean filename = t ++ 32%N :: rest /\ t <> [])
  \/ (t = take (Z.to_nat max_length) (clean filename)
      /\ Forall (fun c => c <> 32%N) t).
Proof.
  cbv zeta. unfold sanitize_filename.
  destruct filename as [|c0 rest0]; [simpl in Hlong; lia|].
  pose proof (clean_wellformed (c0 :: rest0)) as [_ _ Hl _].
  set (s := clean (c0 :: rest0)) in *. unfold truncate.
  destruct (Z.of_nat (length s) >? max_length) eqn:Hlen; [|lia].
  cbv zeta. unfold rfind. rewrite (slice_to_take s max_length) by lia.
  set (n := Z.to_nat max_length).
  set (i := rindex 32%N (take n s)).
  pose proof (rindex_range 32%N (take n s)) as Hi. fold i in Hi.
  rewrite length_take in Hi.
  destruct (i >? 0) eqn:Hpos.
  - left. rewrite (slice_to_take s i) by lia.
    destruct (rindex_found 32%N (take n s)) as [rest Hrest]; [fold i; lia|].
    fold i in Hrest. rewrite take_take in Hrest.
    replace (Z.to_nat i `min` n)%nat with (Z.to_nat i) in Hrest by lia.
    exists (rest ++ drop n s). split.
    + rewrite <- (take_drop n s) at 1. rewrite Hrest, <- app_assoc. reflexivity.
    + intros Hnil. apply (f_equal (@length N)) in Hnil.
      rewrite length_take in Hnil. simpl in Hnil. lia.
  - right. split; [reflexivity|].
    apply rindex_absent. fold i.
    destruct (Z.eq_dec i 0) as [Hz|]; [|lia]. exfalso.
    destruct (rindex_found 32%N (take n s)) as [rest Hrest]; [fold i; lia|].
    fold i in Hrest. rewrite Hz in Hrest. simpl in Hrest.
    assert (Ln : no_lead (take n s)).
    { eapply no_lead_prefix. rewrite take_drop. exact Hl. }
    rewrite Hrest in Ln. simpl in Ln. discriminate.
Qed.

Lemma sanitize_filename_cuts_at_a_space_witness :
  (exists rest, clean (lit "aaa bbb ccc") = sanitize_filename (lit "aaa bbb ccc") 5 ++ 32%N :: rest
                /\ sanitize_filename (lit "aaa bbb ccc") 5 <> [])
  \/ (sanitize_filename (lit "aaa bbb ccc") 5 = take (Z.to_nat 5) (clean (lit "aaa bbb ccc"))
      /\ Forall (fun c => c <> 32%N) (sanitize_filename (lit "aaa bbb ccc") 5)).
Proof.
  apply (sanitize_filename_cuts_at_a_space (lit "aaa bbb ccc") 5).
  - lia.
  - vm_compute. reflexivity.
Defined.

End SanitizeFacts.

(** ** metadata_writer.py, _escape *)

Module OpfFacts.
Import Py Opf MoreNotions.

Lemma replace_char_app c by_ s t :
  replace_char c by_ (s ++ t) = replace_char c by_ s ++ replace_char c by_ t.
Proof.
  induction s as [|x s' IH]; [reflexivity|].
  simpl. rewrite IH, app_assoc. reflexivity.
Qed.

(** The four replacements, one after the other, on one character. *)
Lemma replace_char_entity x :
  replace_char 34%N (lit "&quot;")
    (replace_char 62%N (lit "&gt;")
       (replace_char 60%N (lit "&lt;")
          (replace_char 38%N (lit "&amp;") [x])))
  = entity x.
Proof.
  unfold entity.
  destruct (x =? 38)%N eqn:E1.
  { apply N.eqb_eq in E1. subst x. reflexivity. }
  destruct (x =? 60)%N eqn:E2.
  { apply N.eqb_eq in E2. subst x. reflexivity. }
  destruct (x =? 62)%N eqn:E3.
  { apply N.eqb_eq in E3. subst x. reflexivity. }
  destruct (x =? 34)%N eqn:E4.
  { apply N.eqb_eq in E4. subst x. reflexivity. }
  simpl. rewrite E1. simpl. rewrite E2. simpl. rewrite E3. simpl. rewrite E4.
  reflexivity.
Qed.

Lemma replacements_one_pass s :
  replace_char 34%N (lit "&quot;")
    (replace_char 62%N (lit "&gt;")
       (replace_char 60%N (lit "&lt;")
          (replace_char 38%N (lit "&amp;") s)))
  = flat_map entity s.
Proof.
  induction s as [|x s' IH]; [reflexivity|].
  change (x :: s') with ([x] ++ s').
  rewrite !replace_char_app, IH, replace_char_entity. reflexivity.
Qed.

Lemma _escape_flat_map R v : _escape R v = flat_map entity (text_of R v).
Proof.
  change (_escape R v)
    with (match text_of R v with
          | [] => []
          | _ => replace_char 34%N (lit "&quot;")
                   (replace_char 62%N (lit "&gt;")
                      (replace_char 60%N (lit "&lt;")
                         (replace_char 38%N (lit "&amp;") (text_of R v))))
          end).
  destruct (text_of R v) as [|c rest]; [reflexivity|]. apply replacements_one_pass.
Qed.

(** X4: the four replacements of _escape, made one after the other, amount to
    one pass over the text in which each ampersand, angle bracket and double
    quote becomes its entity and every other character is kept: the
    ampersands of the entities are not escaped again. *)
Theorem _escape_is_one_pass (R : Runtime) (s : str) :
  _escape R (PStr s) = flat_map entity s.
Proof. apply (_escape_flat_map R (PStr s)). Qed.

Lemma entity_no_markup c : Forall (fun x => x <> 60 /\ x <> 62 /\ x <> 34)%N (entity c).
Proof.
  unfold entity.
  destruct (c =? 38)%N eqn:E1; [repeat constructor; discriminate|].
  destruct (c =? 60)%N eqn:E2; [repeat constructor; discriminate|].
  destruct (c =? 62)%N eqn:E3; [repeat constructor; discriminate|].
  destruct (c =? 34)%N eqn:E4; [repeat constructor; discriminate|].
  apply N.eqb_neq in E2, E3, E4. repeat constructor; assumption.
Qed.

(** X5: whatever value it is given, the text _escape returns has no angle
    bracket and no double quote. *)
Theorem _escape_leaves_no_markup (R : Runtime) (v : pyval) :
  Forall (fun x => x <> 60 /\ x <> 62 /\ x <> 34)%N (_escape R v).
Proof.
  rewrite _escape_flat_map. induction (text_of R v) as [|c rest IH]; [constructor|].
  simpl. apply Forall_app. split; [apply entity_no_markup|exact IH].
Qed.

Lemma flat_map_entity_injective a b :
  flat_map entity a = flat_map entity b -> a = b.
Proof.
  revert b. induction a as [|x a' IH]; intros [|y b'] H.
  - reflexivity.
  - exfalso. simpl in H. unfold entity in H.
    repeat match type of H with context [if ?c then _ else _] => destruct c end;
      discriminate H.
  - exfalso. simpl in H. unfold entity in H.
    repeat match type of H with context [if ?c then _ else _] => destruct c end;
      discriminate H.
  - simpl in H. unfold entity in H.
    destruct (x =? 38)%N eqn:X1;
      [|destruct (x =? 60)%N eqn:X2;
        [|destruct (x =? 62)%N eqn:X3; [|destruct (x =? 34)%N eqn:X4]]];
    (destruct (y =? 38)%N eqn:Y1;
      [|destruct (y =? 60)%N eqn:Y2;
        [|destruct (y =? 62)%N eqn:Y3; [|destruct (y =? 34)%N eqn:Y4]]]);
    repeat match goal with
           | E : (_ =? _)%N = true |- _ => apply N.eqb_eq in E; subst
           end;
    simpl in H; try discriminate H;
    inversion H; subst;
    try match goal with
        | E : (?u =? ?v)%N = false |- _ => solve [vm_compute in E; discriminate E]
        end;
    f_equal; apply IH; assumption.
Qed.

(** X6: _escape loses nothing: two texts that it turns into the same text
    are the same. *)
Theorem _escape_is_injective (R : Runtime) (a b : str)
    (H : _escape R (PStr a) = _escape R (PStr b)) :
  a = b.
Proof.
  rewrite !_escape_flat_map in H. simpl text_of in H.
  apply flat_map_entity_injective, H.
Qed.

Lemma _escape_is_injective_witness : lit "Q&A <1>" = lit "Q&A <1>".
Proof. apply (_escape_is_injective Sample.rt (lit "Q&A <1>") (lit "Q&A <1>")). reflexivity. Defined.

End OpfFacts.

(** ** utils.py, the map of manual identifiers *)

Module AsinMapFacts.
Import Py World Utils Main Notions UtilsFiles MoreNotions UtilsFacts FormatterFacts
  AudibleClientFacts.

(** *** Stripping *)

Lemma lstrip_spaces p x : all_space p -> lstrip (p ++ x) = lstrip x.
Proof.
  induction 1 as [|c p Hc Hp IH]; [reflexivity|]. simpl. rewrite Hc. exact IH.
Qed.

Lemma lstrip_all_space p : all_space p -> lstrip p = [].
Proof. intros H. rewrite <- (app_nil_r p). rewrite lstrip_spaces by exact H. reflexivity. Qed.

Lemma lstrip_split s : exists p, s = p ++ lstrip s /\ all_space p.
Proof.
  induction s as [|c rest (p & Hp & Hs)].
  - exists []. split; [reflexivity|constructor].
  - simpl. destruct (is_space c) eqn:Hc.
    + exists (c :: p). split; [simpl; f_equal; exact Hp|constructor; assumption].
    + exists []. split; [reflexivity|constructor].
Qed.

Lemma rstrip_spaces x q : all_space q -> rstrip (x ++ q) = rstrip x.
Proof.
  intros H. unfold rstrip. rewrite rev_app_distr, lstrip_spaces; [reflexivity|].
  apply Forall_rev, H.
Qed.

Lemma rstrip_split s : exists q, s = rstrip s ++ q /\ all_space q.
Proof.
  destruct (lstrip_split (rev s)) as (p & Hp & Hs).
  exists (rev p). split.
  - unfold rstrip. rewrite <- rev_app_distr, <- Hp, rev_involutive. reflexivity.
  - apply Forall_rev, Hs.
Qed.

Lemma strip_split s : exists p q, s = p ++ strip s ++ q /\ all_space p /\ all_space q.
Proof.
  destruct (lstrip_split s) as (p & Hp & Hps).
  destruct (rstrip_split (lstrip s)) as (q & Hq & Hqs).
  exists p, q. unfold strip. rewrite <- Hq. auto.
Qed.

Lemma strip_stripped s : stripped (strip s).
Proof.
  unfold stripped, strip. split; [|apply rstrip_no_trail].
  destruct (rstrip_prefix (lstrip s)) as [t Ht].
  eapply no_lead_prefix. rewrite <- Ht. apply lstrip_no_lead.
Qed.

Lemma no_lead_app m x : m <> [] -> no_lead m -> no_lead (m ++ x).
Proof. destruct m; [contradiction|]. simpl. trivial. Qed.

Lemma no_trail_app x m : m <> [] -> no_trail m -> no_trail (x ++ m).
Proof.
  intros Hne H. unfold no_trail in *. rewrite rev_app_distr.
  apply no_lead_app; [|exact H].
  intros Hr. apply Hne. apply (f_equal (@rev N)) in Hr.
  rewrite rev_involutive in Hr. exact Hr.
Qed.

Lemma strip_sandwich p m q :
  all_space p -> all_space q -> stripped m -> strip (p ++ m ++ q) = m.
Proof.
  intros Hp Hq [Hl Hr]. unfold strip. rewrite lstrip_spaces by exact Hp.
  destruct m as [|c m'].
  - simpl. rewrite lstrip_all_space by exact Hq. reflexivity.
  - rewrite lstrip_id by (apply no_lead_app; [discriminate|exact Hl]).
    rewrite rstrip_spaces by exact Hq. apply rstrip_id, Hr.
Qed.

(** *** The lines of a CSV map *)

Lemma split_first_app sep u v :
  Forall (fun c => c <> sep) u -> split_first sep (u ++ sep :: v) = Some (u, v).
Proof.
  induction 1 as [|c u Hc Hu IH]; simpl.
  - rewrite N.eqb_refl. reflexivity.
  - apply N.eqb_neq in Hc. rewrite Hc, IH. reflexivity.
Qed.

(** X7: a line of a CSV map that has a name without comma, a comma, and an
    identifier, both with something other than whitespace in them, binds the
    name to the identifier, each without the whitespace around it.  Only the
    first comma separates: what follows it is the identifier, commas
    included. *)
Theorem csv_line_binds_name_to_identifier (asin_map : dict) (f a : str)
    (Hcomma : Forall (fun c => c <> 44%N) f)
    (Hf : strip f <> []) (Ha : strip a <> []) :
  csv_line asin_map (f ++ 44%N :: a) = setitem (strip f) (PStr (strip a)) asin_map.
Proof.
  destruct (strip_split f) as (pf & qf & Hfe & Hpf & Hqf).
  destruct (strip_split a) as (pa & qa & Hae & Hpa & Hqa).
  pose proof (strip_stripped f) as Sf. pose proof (strip_stripped a) as Sa.
  remember (strip f) as mf eqn:Emf. remember (strip a) as ma eqn:Ema.
  assert (Hline : strip (f ++ 44%N :: a) = (mf ++ qf) ++ 44%N :: pa ++ ma).
  { rewrite Hfe, Hae.
    replace ((pf ++ mf ++ qf) ++ 44%N :: pa ++ ma ++ qa)
      with (pf ++ ((mf ++ qf) ++ 44%N :: pa ++ ma) ++ qa)
      by (rewrite <- !app_assoc; simpl; rewrite <- !app_assoc; reflexivity).
    apply strip_sandwich; [exact Hpf|exact Hqa|]. split.
    - rewrite <- app_assoc. apply no_lead_app; [exact Hf|apply Sf].
    - change ((mf ++ qf) ++ 44%N :: pa ++ ma) with ((mf ++ qf) ++ [44%N] ++ pa ++ ma).
      rewrite !app_assoc. apply no_trail_app; [exact Ha|apply Sa]. }
  unfold csv_line. cbv zeta. rewrite Hline.
  rewrite split_first_app.
  - assert (H0 : strip (mf ++ qf) = mf)
      by exact (strip_sandwich [] mf qf (Forall_nil _) Hqf Sf).
    assert (H1 : strip (pa ++ ma) = ma).
    { pose proof (strip_sandwich pa ma [] Hpa (Forall_nil _) Sa) as H.
      rewrite app_nil_r in H. exact H. }
    rewrite H0, H1.
    destruct mf; [contradiction|]. destruct ma; [contradiction|]. reflexivity.
  - rewrite Hfe in Hcomma. apply Forall_app in Hcomma as [_ Hcomma]. exact Hcomma.
Qed.

Lemma csv_line_binds_witness :
  csv_line [] (lit " A.m4b " ++ 44%N :: lit " B0AAAAAAAA, second ")
  = setitem (strip (lit " A.m4b ")) (PStr (strip (lit " B0AAAAAAAA, second "))) [].
Proof.
  apply (csv_line_binds_name_to_identifier [] (lit " A.m4b ") (lit " B0AAAAAAAA, second ")).
  - repeat constructor; discriminate.
  - vm_compute. discriminate.
  - vm_compute. discriminate.
Defined.

Lemma csv_line_entries d line : manual_entries d -> manual_entries (csv_line d line).
Proof.
  intros Hd. unfold csv_line. cbv zeta.
  destruct (split_first 44%N (strip line)) as [[p0 p1]|]; [|exact Hd].
  destruct (strip p0) as [|c k'] eqn:Ek; [exact Hd|].
  destruct (strip p1) as [|a0 a'] eqn:Ea; [exact Hd|].
  intros k v Hl. destruct (decide (k = c :: k')) as [->|Hne].
  - rewrite lookup_setitem_eq in Hl. injection Hl as <-.
    split; [discriminate|]. split; [rewrite <- Ek; apply strip_stripped|].
    eexists. split; [reflexivity|]. split; [discriminate|].
    rewrite <- Ea. apply strip_stripped.
  - rewrite lookup_setitem_ne in Hl by exact Hne. apply Hd, Hl.
Qed.

Lemma csv_lines_entries lines d :
  manual_entries d -> manual_entries (fold_left csv_line lines d).
Proof.
  revert d. induction lines as [|line rest IH]; intros d Hd; [exact Hd|].
  simpl. apply IH, csv_line_entries, Hd.
Qed.

Lemma csv_is_not_json p : endswith p (lit ".csv") = true -> endswith p (lit ".json") = false.
Proof.
  unfold endswith.
  change (rev (lit ".csv")) with [118; 115; 99; 46]%N.
  change (rev (lit ".json")) with [110; 111; 115; 106; 46]%N.
  destruct (rev p) as [|c r]; cbn [is_prefix]; [discriminate|].
  destruct (118 =? c)%N eqn:E; cbn [andb]; [|discriminate].
  intros _. apply N.eqb_eq in E. subst c. reflexivity.
Qed.

Lemma load_asin_map_csv F p :
  endswith p (lit ".csv") = true ->
  exists d, load_asin_map F (Some p) = Ok (PDict d) /\ manual_entries d.
Proof.
  intros Hcsv. unfold load_asin_map.
  assert (Hnil : manual_entries []) by (intros k v H; discriminate H).
  destruct p as [|c p']; [exists []; auto|].
  destruct (file_exists F (c :: p')); simpl negb; cbv iota; [|exists []; auto].
  rewrite (csv_is_not_json _ Hcsv), Hcsv. cbv zeta. simpl has_len. cbv iota.
  eexists. split; [reflexivity|]. apply csv_lines_entries, Hnil.
Qed.

(** X8: a map loaded from a file whose name ends in .csv is a dictionary in
    which every key is a file name and every value an identifier, both not
    empty and without whitespace around them; this holds whether or not the
    file exists and whatever its lines are. *)
Theorem csv_map_holds_only_usable_entries (F : Files) (p : str)
    (Hcsv : endswith p (lit ".csv") = true) :
  exists d, load_asin_map F (Some p) = Ok (PDict d)
            /\ forall k v, lookup k d = Some v -> manual_entry k v.
Proof. apply load_asin_map_csv, Hcsv. Qed.

Lemma csv_map_holds_only_usable_entries_witness :
  exists d, load_asin_map MoreSample.files (Some MoreSample.map_csv) = Ok (PDict d)
            /\ forall k v, lookup k d = Some v -> manual_entry k v.
Proof.
  apply (csv_map_holds_only_usable_entries MoreSample.files MoreSample.map_csv).
  reflexivity.
Defined.

(** The waterfall with a map that has the file name and something true under
    it. *)
Lemma resolve_takes_map_entry E manual input_path item_path w v :
  lookup (name item_path) manual = Some v -> truthy v = true ->
  resolve E (PDict manual) input_path item_path w = (Ok v, w).
Proof.
  intros Hkey Hset.
  unfold resolve. rewrite bind_lift. simpl contains. rewrite Hkey.
  rewrite bool_decide_eq_true_2 by eauto.
  rewrite bind_lift. simpl getitem. rewrite Hkey.
  unfold bind, ret.
  repeat first [ rewrite Hset
               | progress change (negb true) with false
               | progress cbv beta iota ].
  reflexivity.
Qed.

(** X9: with a map loaded from a CSV file, a file whose name is a key of the
    map gets the identifier of the map and nothing else is done for it: no
    tag is read and no request is made.  (A CSV map cannot hold the empty
    identifier that makes the waterfall go on.) *)
Theorem csv_map_entry_always_wins
    (E : Env) (F : Files) (p : str) (d : dict) (input_path item_path : path)
    (w : world) (v : pyval)
    (Hcsv : endswith p (lit ".csv") = true)
    (Hload : load_asin_map F (Some p) = Ok (PDict d))
    (Hkey : lookup (name item_path) d = Some v) :
  resolve E (PDict d) input_path item_path w = (Ok v, w).
Proof.
  destruct (load_asin_map_csv F p Hcsv) as (d' & Hd' & Hent).
  rewrite Hload in Hd'. injection Hd' as <-.
  destruct (Hent _ _ Hkey) as (_ & _ & asin & -> & Hne & _).
  apply resolve_takes_map_entry; [exact Hkey|].
  destruct asin; [contradiction|reflexivity].
Qed.

Lemma csv_map_entry_always_wins_witness :
  resolve Sample.env_tagged (PDict MoreSample.manual) [lit "in"] Sample.tagged_book start
  = (Ok (PStr (lit "B0MANUAL01")), start).
Proof.
  apply (csv_map_entry_always_wins Sample.env_tagged MoreSample.files MoreSample.map_csv).
  - reflexivity.
  - vm_compute. reflexivity.
  - reflexivity.
Defined.

End AsinMapFacts.

(** ** utils.py, the scan *)

Module ScanFacts.
Import Py World Utils Main Notions UtilsFiles MoreNotions.

(** The test of the inner loop, as a proposition. *)
Lemma keep_accepted unicode_lower ledger min_file_size_mb root file size :
  (if bool_decide (is_Some (lookup (path_str (div root file)) ledger)) then false
   else if negb (bool_decide (lower unicode_lower (suffix (div root file))
                              ∈ SUPPORTED_AUDIO_EXTENSIONS)) then false
   else match size with
        | Some file_size => negb (file_size <? min_file_size_mb * 1024 * 1024)
        | None => false
        end) = true
  <-> accepted_file unicode_lower ledger min_file_size_mb root file size.
Proof.
  unfold accepted_file.
  destruct (lookup (path_str (div root file)) ledger) as [v|] eqn:Hl.
  - rewrite bool_decide_eq_true_2 by eauto. split; [discriminate|].
    intros (H & _). discriminate H.
  - rewrite bool_decide_eq_false_2 by (intros [? ?]; discriminate).
    destruct (bool_decide (lower unicode_lower (suffix (div root file))
                            ∈ SUPPORTED_AUDIO_EXTENSIONS)) eqn:Hs; simpl negb; cbv iota.
    + apply bool_decide_eq_true in Hs.
      destruct size as [n|].
      * rewrite negb_true_iff, Z.ltb_ge. split.
        -- intros Hn. split; [reflexivity|]. split; [exact Hs|]. exists n. auto.
        -- intros (_ & _ & n' & Hn' & Hle). injection Hn' as <-. exact Hle.
      * split; [discriminate|]. intros (_ & _ & n' & Hn' & _). discriminate Hn'.
    + apply bool_decide_eq_false in Hs. split; [discriminate|].
      intros (_ & Hs' & _). contradiction.
Qed.

Lemma scan_files_found unicode_lower ledger min_file_size_mb root files :
  exists found,
    scan_files unicode_lower (PDict ledger) (min_file_size_mb * 1024 * 1024) root files
    = Ok found
    /\ forall p, p ∈ found
         <-> exists file size, (file, size) ∈ files /\ p = div root file
               /\ accepted_file unicode_lower ledger min_file_size_mb root file size.
Proof.
  induction files as [|[file size] rest (more & Hmore & Hiff)].
  - exists []. split; [reflexivity|]. intros p. split.
    + intros H. inversion H.
    + intros (f & s & H & _). inversion H.
  - simpl scan_files. rewrite Hmore. simpl contains. cbn [rbind].
    pose proof (keep_accepted unicode_lower ledger min_file_size_mb root file size) as Hk.
    match goal with
    | |- context [Ok (if ?b then _ else _)] => destruct b eqn:Hkeep
    end; (eexists; split; [reflexivity|]); intros p.
    + rewrite elem_of_cons, Hiff. split.
      * intros [->|(f & s & Hin & Hp & Ha)].
        -- exists file, size. split; [left|]. split; [reflexivity|]. apply Hk. reflexivity.
        -- exists f, s. split; [right; exact Hin|auto].
      * intros (f & s & Hin & Hp & Ha). apply elem_of_cons in Hin as [Heq|Hin].
        -- injection Heq as -> ->. left. exact Hp.
        -- right. exists f, s. auto.
    + rewrite Hiff. split.
      * intros (f & s & Hin & Hp & Ha). exists f, s. split; [right; exact Hin|auto].
      * intros (f & s & Hin & Hp & Ha). apply elem_of_cons in Hin as [Heq|Hin].
        -- injection Heq as -> ->. apply Hk in Ha. discriminate Ha.
        -- exists f, s. auto.
Qed.

Lemma find_audio_files_found unicode_lower dirs ledger min_file_size_mb :
  exists found,
    find_audio_files_to_process unicode_lower dirs (PDict ledger) min_file_size_mb
    = Ok found
    /\ forall p, p ∈ found
         <-> exists root files file size,
               (root, files) ∈ dirs /\ (file, size) ∈ files /\ p = div root file
               /\ visited root
               /\ accepted_file unicode_lower ledger min_file_size_mb root file size.
Proof.
  unfold find_audio_files_to_process. cbv zeta.
  induction dirs as [|[root files] rest (more & Hmore & Hiff)].
  - exists []. split; [reflexivity|]. intros p. split.
    + intros H. inversion H.
    + intros (r & fs & f & s & H & _). inversion H.
  - simpl scan_dirs. rewrite Hmore.
    destruct (is_infix FileManager.FAILED_DIR (path_str root)) eqn:Hroot.
    + exists more. split; [reflexivity|]. intros p. rewrite Hiff. split.
      * intros (r & fs & f & s & Hin & H). exists r, fs, f, s. split; [right; exact Hin|exact H].
      * intros (r & fs & f & s & Hin & Hf & Hp & Hv & Ha).
        apply elem_of_cons in Hin as [Heq|Hin].
        -- injection Heq as -> ->. unfold visited in Hv. congruence.
        -- exists r, fs, f, s. auto.
    + destruct (scan_files_found unicode_lower ledger min_file_size_mb root files)
        as (here & Hhere & Hiff').
      rewrite Hhere. cbn [rbind]. exists (here ++ more). split; [reflexivity|].
      intros p. rewrite elem_of_app, Hiff, Hiff'. split.
      * intros [(f & s & Hin & Hp & Ha)|(r & fs & f & s & Hin & H)].
        -- exists root, files, f, s. split; [left|]. auto.
        -- exists r, fs, f, s. split; [right; exact Hin|exact H].
      * intros (r & fs & f & s & Hin & Hf & Hp & Hv & Ha).
        apply elem_of_cons in Hin as [Heq|Hin].
        -- injection Heq as -> ->. left. exists f, s. auto.
        -- right. exists r, fs, f, s. auto.
Qed.

(** X10: with a processed log that is a dictionary, the scan returns, and
    the files it returns are exactly the files that os.walk lists in a
    directory whose path does not contain __FAILED_TO_PROCESS__, whose path is
    not a key of the processed log, whose extension is .aax, .m4b, .mp3 or
    .m4a in any case, and whose size can be read and is at least the minimum
    in MiB. *)
Theorem scan_returns_exactly_the_accepted_files
    (unicode_lower : str -> str) (dirs : walked) (ledger : dict)
    (min_file_size_mb : Z) :
  exists found,
    find_audio_files_to_process unicode_lower dirs (PDict ledger) min_file_size_mb
    = Ok found
    /\ forall p, p ∈ found
         <-> exists root files file size,
               (root, files) ∈ dirs /\ (file, size) ∈ files /\ p = div root file
               /\ visited root
               /\ accepted_file unicode_lower ledger min_file_size_mb root file size.
Proof. apply find_audio_files_found. Qed.

(** The sample library: the large book is found whatever the case of its
    extension; the small file, the text file and the file of the failed
    folder are not. *)
Lemma scan_of_the_sample_library :
  find_audio_files_to_process MoreSample.no_unicode MoreSample.library (PDict []) 80
  = Ok [[lit "in"; lit "Big.M4B"]].
Proof. vm_compute. reflexivity. Qed.

(** An absolute input directory: the path of a file is written with one
    slash for the anchor, and the file that the processed log has under that
    path is skipped. *)
Lemma scan_of_an_absolute_library :
  path_str [lit "/"; lit "srv"; lit "in"; lit "Old.m4b"] = lit "/srv/in/Old.m4b"
  /\ find_audio_files_to_process MoreSample.no_unicode MoreSample.srv_library
       MoreSample.srv_log 80
     = Ok [[lit "/"; lit "srv"; lit "in"; lit "New.m4b"]].
Proof. split; vm_compute; reflexivity. Qed.

End ScanFacts.

(** ** The processed log over a run *)

Module LedgerFacts.
Import Py World Main Notions MoreNotions FormatterFacts AudibleClientFacts LoopFacts.

(** *** Relations that every step keeps *)

Section Carries.
Context (Rel : world -> world -> Prop).
Context (Rrefl : forall w, Rel w w).
Context (Rtrans : forall a b c, Rel a b -> Rel b c -> Rel a c).
Context (Remit : forall e w, not_append e -> Rel w (emit e w)).

Lemma carries_ret {A} (a : A) : carries Rel (ret a).
Proof. intros w. apply Rrefl. Qed.

Lemma carries_lift {A} (x : result A) : carries Rel (lift x).
Proof. intros w. apply Rrefl. Qed.

Lemma carries_raise {A} e : carries Rel (@raise A e).
Proof. intros w. apply Rrefl. Qed.

Lemma carries_bind {A B} (m : M A) (k : A -> M B) :
  carries Rel m -> (forall a, carries Rel (k a)) -> carries Rel (bind m k).
Proof.
  intros Hm Hk w. unfold bind. specialize (Hm w).
  destruct (m w) as [[a|e] w1]; simpl in *; [|exact Hm].
  eapply Rtrans; [exact Hm|apply Hk].
Qed.

Lemma carries_try_except {A} (m : M A) (h : exn -> M A) :
  carries Rel m -> (forall e, carries Rel (h e)) -> carries Rel (try_except m h).
Proof.
  intros Hm Hh w. unfold try_except. specialize (Hm w).
  destruct (m w) as [[a|e] w1]; simpl in *; [exact Hm|].
  eapply Rtrans; [exact Hm|apply Hh].
Qed.

Lemma carries_fs_call E s op :
  not_append (EvFs s op) -> carries Rel (fs_call E s op).
Proof. intros Hs w. apply Remit, Hs. Qed.

Lemma carries_log_would x : carries Rel (log_would x).
Proof. intros w. apply Remit. exact I. Qed.

Lemma carries_exists E p : carries Rel (exists_ E p).
Proof. intros w. apply Rrefl. Qed.

Lemma carries_current_log : carries Rel ProcessedLog.current_log.
Proof. intros w. apply Rrefl. Qed.

Lemma carries_tags_of E item_path : carries Rel (tags_of E item_path).
Proof. intros w. apply Remit. exact I. Qed.

Lemma carries_request E url params :
  carries Rel (AudibleClient._make_api_request E url params).
Proof.
  intros w. destruct (_make_api_request_events E url params w) as [data H].
  rewrite H. apply Remit. exact I.
Qed.

Lemma carries_cover E cover_url save_path dry :
  carries Rel (AudibleClient.download_cover E cover_url save_path dry).
Proof.
  unfold AudibleClient.download_cover.
  destruct (negb (truthy cover_url)); [apply carries_ret|].
  destruct dry.
  - apply carries_bind; [apply carries_log_would|intros; apply carries_ret].
  - intros w. simpl.
    destruct (cover_get E (events w) cover_url save_path); apply Remit; exact I.
Qed.

Ltac carries_step :=
  cbv beta iota;
  lazymatch goal with
  | |- carries _ (ret _) => apply carries_ret
  | |- carries _ (lift _) => apply carries_lift
  | |- carries _ (raise _) => apply carries_raise
  | |- carries _ (bind _ _) => apply carries_bind; [|intros ?]
  | |- carries _ (try_except _ _) => apply carries_try_except; [|intros ?]
  | |- carries _ (fs_call _ _ _) => apply carries_fs_call; exact I
  | |- carries _ (log_would _) => apply carries_log_would
  | |- carries _ (exists_ _ _) => apply carries_exists
  | |- carries _ (tags_of _ _) => apply carries_tags_of
  | |- carries _ (AudibleClient._make_api_request _ _ _) => apply carries_request
  | |- carries _ (AudibleClient.download_cover _ _ _ _) => apply carries_cover
  | |- carries _ ProcessedLog.current_log => apply carries_current_log
  | |- carries _ (if ?b then _ else _) => destruct b eqn:?
  | |- carries _ (match ?x with _ => _ end) => destruct x
  end.

Lemma carries_search E keywords n :
  carries Rel (AudibleClient.search_by_keywords E keywords n).
Proof. unfold AudibleClient.search_by_keywords. repeat carries_step. Qed.

Ltac carries_query :=
  lazymatch goal with
  | |- carries _ (AudibleClient.search_by_keywords _ _ _) => apply carries_search
  | _ => carries_step
  end.

Lemma carries_get_metadata E asin :
  carries Rel (AudibleClient.get_metadata_by_asin E asin).
Proof. unfold AudibleClient.get_metadata_by_asin. repeat carries_query. Qed.

Lemma carries_resolve E manual input_path item_path :
  carries Rel (resolve E manual input_path item_path).
Proof. unfold resolve. repeat carries_query. Qed.

Lemma carries_failed E source_file output_dir dry move :
  carries Rel (FileManager.move_to_failed_folder E source_file output_dir dry move).
Proof. unfold FileManager.move_to_failed_folder. cbv zeta. repeat carries_step. Qed.

Lemma carries_fail E r item_path : carries Rel (fail E r item_path).
Proof. unfold fail. apply carries_bind; [apply carries_failed|intros; apply carries_ret]. Qed.

Lemma carries_create E output_dir metadata config dry :
  carries Rel (FileManager.create_book_structure E output_dir metadata config dry).
Proof. unfold FileManager.create_book_structure. repeat carries_step. Qed.

Lemma carries_organize E source_file output_dir metadata config dry move :
  carries Rel (FileManager.organize_audio_file E source_file output_dir metadata config
                 dry move).
Proof.
  unfold FileManager.organize_audio_file, FileManager._safe_file_op.
  apply carries_bind; [apply carries_create|intros target].
  repeat carries_step.
Qed.

Lemma carries_write E metadata folder_path dry create_opf :
  carries Rel (MetadataWriter.write_metadata_files E metadata folder_path dry create_opf).
Proof.
  unfold MetadataWriter.write_metadata_files, MetadataWriter.write_opf,
    MetadataWriter.write_text_if, MetadataWriter._safe_write.
  repeat carries_step.
Qed.

Ltac carries_part :=
  lazymatch goal with
  | |- carries _ (AudibleClient.get_metadata_by_asin _ _) => apply carries_get_metadata
  | |- carries _ (fail _ _ _) => apply carries_fail
  | |- carries _ (FileManager.create_book_structure _ _ _ _ _) => apply carries_create
  | |- carries _ (FileManager.organize_audio_file _ _ _ _ _ _ _) => apply carries_organize
  | |- carries _ (MetadataWriter.write_metadata_files _ _ _ _ _) => apply carries_write
  | _ => carries_step
  end.

(** The mode that creates folders never reaches the processed log. *)
Lemma carries_asin_only_mode E config output_path dry asin_list :
  carries Rel (Cli.asin_only_mode E config output_path dry asin_list).
Proof.
  unfold Cli.asin_only_mode. apply carries_bind; [apply carries_lift|intros create_opf].
  induction (Cli.asins_of asin_list) as [|asin rest IH]; simpl Cli.asin_loop.
  - apply carries_ret.
  - apply carries_bind; [|intros _; exact IH].
    unfold Cli.create_from_asin. repeat carries_part.
Qed.

(** The loop of run_scan, for a relation that the update of the processed
    log keeps for each candidate, or in a dry run. *)
Section Loop.
Context (E : Env) (r : Run).

Local Abbreviation loggable := (loggable Rel E r).

Lemma carries_process_body item_path best_asin :
  loggable item_path -> carries Rel (process_body E r item_path best_asin).
Proof.
  intros Hlog. unfold process_body.
  repeat lazymatch goal with
         | |- carries _ (ProcessedLog.append_to_processed_log _ _ _ _) =>
             destruct Hlog as [Hdry|Happ]; [congruence|apply Happ]
         | _ => carries_part
         end.
Qed.

Lemma carries_process item_path best_asin :
  loggable item_path -> carries Rel (process E r item_path best_asin).
Proof.
  intros Hlog. unfold process. apply carries_try_except;
    [apply carries_process_body, Hlog|intros; apply carries_fail].
Qed.

Lemma carries_process_item c item_path :
  loggable item_path -> carries Rel (process_item E r c item_path).
Proof.
  intros Hlog.
  unfold process_item. apply carries_bind; [apply carries_resolve|intros best_asin].
  apply carries_bind; [|intros; apply carries_ret].
  destruct (negb (truthy best_asin)); [apply carries_fail|apply carries_process, Hlog].
Qed.

Lemma carries_run_loop c book_items :
  Forall loggable book_items -> carries Rel (run_loop E r c book_items).
Proof.
  intros Hlog. revert c.
  induction Hlog as [|item_path rest Hitem Hrest IH]; intros c; simpl run_loop.
  - apply carries_ret.
  - apply carries_bind; [apply carries_process_item, Hitem|intros c'; apply IH].
Qed.

End Loop.

End Carries.

(** *** The three relations *)

Lemma ledger_kept_emit e w : ledger_kept w (emit e w).
Proof. reflexivity. Qed.

Lemma ledger_kept_trans a b c : ledger_kept a b -> ledger_kept b c -> ledger_kept a c.
Proof. unfold ledger_kept. congruence. Qed.

Lemma ledger_grown_refl w : ledger_grown w w.
Proof. intros k H. exact H. Qed.

Lemma ledger_grown_trans a b c : ledger_grown a b -> ledger_grown b c -> ledger_grown a c.
Proof. intros H1 H2 k H. apply H2, H1, H. Qed.

Lemma ledger_grown_emit e w : ledger_grown w (emit e w).
Proof. intros k H. exact H. Qed.

Lemma entry_kept_trans k a b c : entry_kept k a b -> entry_kept k b c -> entry_kept k a c.
Proof. unfold entry_kept. congruence. Qed.

(** *** append_to_processed_log *)

Lemma append_to_processed_log_log E output_dir p metadata w :
  processed_log (snd (ProcessedLog.append_to_processed_log E output_dir p metadata w))
  = setitem p (ProcessedLog.log_entry metadata) (processed_log w).
Proof.
  unfold ProcessedLog.append_to_processed_log, ProcessedLog.set_entry,
    ProcessedLog.current_log, bind, exists_, fs_call, ret. simpl.
  repeat match goal with
         | |- context [if ?b then _ else _] => destruct b; simpl
         end; reflexivity.
Qed.

Lemma append_to_processed_log_grows E output_dir p metadata :
  carries ledger_grown (ProcessedLog.append_to_processed_log E output_dir p metadata).
Proof.
  intros w k H. rewrite append_to_processed_log_log. apply lookup_setitem_some, H.
Qed.

Lemma append_to_processed_log_keeps k E output_dir p metadata :
  k <> p ->
  carries (entry_kept k) (ProcessedLog.append_to_processed_log E output_dir p metadata).
Proof.
  intros Hne w. unfold entry_kept. rewrite append_to_processed_log_log.
  apply lookup_setitem_ne, Hne.
Qed.


(** *** The loop *)

(** X12: a dry run leaves the processed log as it was, whatever happens to
    the candidates. *)
Theorem dry_run_leaves_the_processed_log
    (E : Env) (r : Run) (c : counts) (book_items : list path) (w : world)
    (Hdry : dry_run r = true) :
  processed_log (snd (run_loop E r c book_items w)) = processed_log w.
Proof.
  apply (carries_run_loop ledger_kept (fun _ => eq_refl) ledger_kept_trans
           (fun e w _ => ledger_kept_emit e w) E r).
  apply Forall_forall. intros item_path _. left. exact Hdry.
Qed.

Lemma dry_run_leaves_the_processed_log_witness :
  processed_log (snd (run_loop Sample.env (Sample.run true) Sample.zero [Sample.book]
                        MoreSample.later))
  = processed_log MoreSample.later.
Proof.
  apply (dry_run_leaves_the_processed_log Sample.env (Sample.run true)).
  reflexivity.
Defined.

(** X13: a run never removes a path from the processed log: a key it had
    before the loop it has after it, whatever fails in between. *)
Theorem run_keeps_the_keys_of_the_processed_log
    (E : Env) (r : Run) (c : counts) (book_items : list path) (w : world) (k : str)
    (Hk : is_Some (lookup k (processed_log w))) :
  is_Some (lookup k (processed_log (snd (run_loop E r c book_items w)))).
Proof.
  apply (carries_run_loop ledger_grown ledger_grown_refl ledger_grown_trans
           (fun e w _ => ledger_grown_emit e w) E r c book_items); [|exact Hk].
  apply Forall_forall. intros item_path _. right. intros out md.
  apply append_to_processed_log_grows.
Qed.

Lemma run_keeps_the_keys_witness :
  is_Some (lookup MoreSample.old_file
             (processed_log (snd (run_loop Sample.env (Sample.run false) Sample.zero
                                    [Sample.book] MoreSample.later)))).
Proof.
  apply (run_keeps_the_keys_of_the_processed_log Sample.env (Sample.run false)).
  exists Sample.entry. reflexivity.
Defined.

(** X14: a run leaves as it is the entry of every path that is not the path
    of one of its candidates. *)
Theorem run_changes_only_the_entries_of_its_candidates
    (E : Env) (r : Run) (c : counts) (book_items : list path) (w : world) (k : str)
    (Hk : k ∉ map path_str book_items) :
  lookup k (processed_log (snd (run_loop E r c book_items w)))
  = lookup k (processed_log w).
Proof.
  apply (carries_run_loop (entry_kept k) (fun _ => eq_refl) (entry_kept_trans k)
           (fun _ _ _ => eq_refl) E r c book_items).
  apply Forall_forall. intros item_path Hin. right. intros out md.
  apply append_to_processed_log_keeps. intros ->. apply Hk.
  apply list_elem_of_In, in_map, Hin.
Qed.

Lemma run_changes_only_the_entries_witness :
  lookup MoreSample.old_file
    (processed_log (snd (run_loop Sample.env (Sample.run false) Sample.zero
                           [Sample.book] MoreSample.later)))
  = lookup MoreSample.old_file (processed_log MoreSample.later).
Proof.
  apply (run_changes_only_the_entries_of_its_candidates Sample.env (Sample.run false)).
  apply (bool_decide_unpack _). vm_compute. exact Logic.I.
Defined.

(** X15: the mode that creates folders from identifiers leaves the processed
    log as it was. *)
Theorem asin_only_mode_leaves_the_processed_log
    (E : Env) (config : pyval) (output_path : path) (is_dry_run : bool)
    (asin_list : str) (w : world) :
  processed_log (snd (Cli.asin_only_mode E config output_path is_dry_run asin_list w))
  = processed_log w.
Proof.
  apply (carries_asin_only_mode ledger_kept (fun _ => eq_refl) ledger_kept_trans
           (fun e w _ => ledger_kept_emit e w)).
Qed.

End LedgerFacts.

(** ** From one run to the next scan *)

Module RescanFacts.
Import Py World Main Notions MoreNotions UtilsFiles FormatterFacts AudibleClientFacts
  LoopFacts LedgerFacts ScanFacts.

Lemma only_when_bind {A} Q (m : M A) (k : A -> M outcome) :
  (forall a, only_when Q (k a)) -> only_when Q (bind m k).
Proof.
  intros Hk w w' H. unfold bind in H.
  destruct (m w) as [[a|e] w1]; [eapply Hk, H|discriminate H].
Qed.

Lemma only_when_fail Q E r item_path : only_when Q (fail E r item_path).
Proof.
  intros w w' H. destruct (fail_returns E r item_path w) as (w1 & H1 & _).
  rewrite H1 in H. discriminate H.
Qed.

Lemma only_when_raise Q e : only_when Q (raise e).
Proof. intros w w' H. discriminate H. Qed.

Lemma only_when_last {A} (Q : world -> Prop) (m : M A) :
  (forall w, Q (snd (m w))) -> only_when Q (bind m (fun _ => ret Processed)).
Proof.
  intros Hm w w' H. unfold bind, ret in H. specialize (Hm w).
  destruct (m w) as [[a|e] w1]; [|discriminate H].
  injection H as <-. exact Hm.
Qed.

(** In a real run the loop body counts a file as processed only after its
    path is in the processed log. *)
Lemma process_body_logs E r item_path best_asin :
  dry_run r = false ->
  only_when (fun w' => is_Some (lookup (path_str item_path) (processed_log w')))
    (process_body E r item_path best_asin).
Proof.
  intros Hreal. unfold process_body. rewrite Hreal.
  repeat (cbv beta iota;
          lazymatch goal with
          | |- only_when _ (fail _ _ _) => apply only_when_fail
          | |- only_when _ (raise _) => apply only_when_raise
          | |- only_when _ (bind _ (fun _ => ret Processed)) => apply only_when_last
          | |- only_when _ (bind _ _) => apply only_when_bind; intros ?
          | |- only_when _ (if ?b then _ else _) => destruct b
          | |- only_when _ (match ?x with _ => _ end) => destruct x
          end).
  intros w. rewrite append_to_processed_log_log, lookup_setitem_eq. eauto.
Qed.

Lemma process_logs E r item_path best_asin :
  dry_run r = false ->
  only_when (fun w' => is_Some (lookup (path_str item_path) (processed_log w')))
    (process E r item_path best_asin).
Proof.
  intros Hreal w w' H. unfold process, try_except in H.
  destruct (process_body E r item_path best_asin w) as [[o|e] w1] eqn:Hb.
  - injection H as -> ->. eapply (process_body_logs E r item_path best_asin Hreal), Hb.
  - eapply only_when_fail, H.
Qed.

(** *** The writes of the processed log *)

Lemma key_logged_refl k w : key_logged k w w.
Proof. exists []. rewrite app_nil_r. split; [reflexivity|constructor]. Qed.

Lemma key_logged_trans k a b c : key_logged k a b -> key_logged k b c -> key_logged k a c.
Proof.
  intros (e1 & H1 & F1) (e2 & H2 & F2). exists (e1 ++ e2).
  rewrite H2, H1, app_assoc. split; [reflexivity|apply Forall_app; auto].
Qed.

Lemma not_append_logs_key k e : not_append e -> logs_key k e.
Proof. destruct e as [| |s op| |]; try exact (fun _ => I). destruct s; simpl; tauto. Qed.

Lemma key_logged_emit k e w : not_append e -> key_logged k w (emit e w).
Proof.
  intros He. exists [e]. split; [reflexivity|].
  constructor; [apply not_append_logs_key, He|constructor].
Qed.

Lemma key_kept_refl k w : key_kept k w w.
Proof. intros H. split; [exact H|apply key_logged_refl]. Qed.

Lemma key_kept_trans k a b c : key_kept k a b -> key_kept k b c -> key_kept k a c.
Proof.
  intros H1 H2 Ha. destruct (H1 Ha) as [Hb L1]. destruct (H2 Hb) as [Hc L2].
  split; [exact Hc|eapply key_logged_trans; eassumption].
Qed.

Lemma key_kept_emit k e w : not_append e -> key_kept k w (emit e w).
Proof. intros He H. split; [exact H|apply key_logged_emit, He]. Qed.

(** What append_to_processed_log writes is the dictionary with the new
    entry in it. *)
Lemma append_to_processed_log_writes k E output_dir p metadata w :
  is_Some (lookup k (setitem p (ProcessedLog.log_entry metadata) (processed_log w))) ->
  key_logged k w
    (snd (ProcessedLog.append_to_processed_log E output_dir p metadata w)).
Proof.
  intros Hk.
  unfold ProcessedLog.append_to_processed_log, ProcessedLog.set_entry,
    ProcessedLog.current_log, bind, exists_, fs_call, ret, key_logged. simpl.
  repeat match goal with
         | |- context [if ?b then _ else _] => destruct b; simpl
         end;
    rewrite <- ?app_assoc;
    (eexists; split; [reflexivity|]);
    cbn [app];
    repeat lazymatch goal with
           | |- Forall _ [] => constructor
           | |- Forall _ (_ :: _) => constructor
           | |- logs_key _ _ =>
               first [exact I | eexists; split; [reflexivity|exact Hk]]
           end.
Qed.

Lemma append_to_processed_log_logs_own_key E output_dir p metadata :
  carries (key_logged p)
    (ProcessedLog.append_to_processed_log E output_dir p metadata).
Proof.
  intros w. apply append_to_processed_log_writes.
  rewrite lookup_setitem_eq. eauto.
Qed.

Lemma append_to_processed_log_keeps_key k E output_dir p metadata :
  carries (key_kept k) (ProcessedLog.append_to_processed_log E output_dir p metadata).
Proof.
  intros w Hk. split.
  - rewrite append_to_processed_log_log. apply lookup_setitem_some, Hk.
  - apply append_to_processed_log_writes, lookup_setitem_some, Hk.
Qed.

(** X16: when a real run counts a file as processed, and the file of the
    processed log, as a later run finds it, holds what the first run wrote
    into it while it processed the file or after, then the later run loads
    the log and its scan returns without the file, wherever it looks.  (The
    writes of the log can fail without the run noticing: what matters is the
    file that is left.) *)
Theorem processed_file_is_not_scanned_again
    (E : Env) (r : Run) (item_path : path) (best_asin : pyval) (w w' : world)
    (c : counts) (rest : list path) (evs : list event) (data : pyval)
    (D : LogFile) (unicode_lower : str -> str) (dirs : walked) (min_file_size_mb : Z)
    (Hreal : dry_run r = false)
    (Hdone : process E r item_path best_asin w = (Ok Processed, w'))
    (Hrun : events (snd (run_loop E r c rest w')) = events w ++ evs)
    (Hwrite : EvFs AppendToProcessedLog
                (WriteJson (div (output_path r) ProcessedLog.PROCESSED_LOG_NAME) data)
              ∈ evs)
    (Hexists : log_exists D (div (output_path r) ProcessedLog.PROCESSED_LOG_NAME) = true)
    (Hload : log_load D (div (output_path r) ProcessedLog.PROCESSED_LOG_NAME)
             = LogValue data) :
  exists ledger found,
    load_processed_log D (output_path r) = Ok ledger
    /\ find_audio_files_to_process unicode_lower dirs ledger min_file_size_mb = Ok found
    /\ item_path ∉ found.
Proof.
  pose proof (process_logs E r item_path best_asin Hreal w w' Hdone) as Hin.
  assert (H1 : key_logged (path_str item_path) w w').
  { pose proof (carries_process (key_logged (path_str item_path))
                  (key_logged_refl _) (key_logged_trans _)
                  (fun e w0 => key_logged_emit _ e w0) E r item_path best_asin) as Hc.
    specialize (Hc ltac:(right; intros out md; apply append_to_processed_log_logs_own_key) w).
    rewrite Hdone in Hc. exact Hc. }
  assert (H2 : key_logged (path_str item_path) w' (snd (run_loop E r c rest w'))).
  { apply (carries_run_loop (key_kept (path_str item_path))
             (key_kept_refl _) (key_kept_trans _)
             (fun e w0 => key_kept_emit _ e w0) E r c rest); [|exact Hin].
    apply Forall_forall. intros p _. right. intros out md.
    apply append_to_processed_log_keeps_key. }
  destruct (key_logged_trans _ _ _ _ H1 H2) as (evs' & He & Hall).
  rewrite Hrun in He. apply app_inv_head in He. subst evs'.
  rewrite Forall_forall in Hall. apply list_elem_of_In in Hwrite.
  destruct (Hall _ Hwrite) as (d & -> & Hkey).
  destruct (find_audio_files_found unicode_lower dirs d min_file_size_mb)
    as (found & Hfound & Hiff).
  exists (PDict d), found. split; [|split; [exact Hfound|]].
  - unfold load_processed_log. cbv zeta. rewrite Hexists, Hload. reflexivity.
  - intros Hmem. apply Hiff in Hmem as (root & files & file & size & _ & _ & -> & _ & Ha).
    destruct Ha as (Hnone & _). rewrite Hnone in Hkey. destruct Hkey as [? Hx].
    discriminate Hx.
Qed.

(** The sample book, once processed, with the processed log that the run
    wrote: the scan of the input directory, which returned the book before,
    returns nothing. *)
Lemma processed_file_is_not_scanned_again_witness :
  find_audio_files_to_process MoreSample.no_unicode MoreSample.shelf (PDict []) 80
  = Ok [Sample.book]
  /\ exists ledger found,
       load_processed_log MoreSample.log_file [lit "out"] = Ok ledger
       /\ find_audio_files_to_process MoreSample.no_unicode MoreSample.shelf ledger 80
          = Ok found
       /\ Sample.book ∉ found.
Proof.
  split; [vm_compute; reflexivity|].
  apply (processed_file_is_not_scanned_again Sample.env (Sample.run false) Sample.book
           (Sample.ps "B0ABCD1234") start
           (snd (process Sample.env (Sample.run false) Sample.book
                   (Sample.ps "B0ABCD1234") start))
           Sample.zero []
           (events (snd (process Sample.env (Sample.run false) Sample.book
                           (Sample.ps "B0ABCD1234") start)))
           (PDict [(path_str Sample.book, Sample.entry)])).
  - reflexivity.
  - vm_compute. reflexivity.
  - reflexivity.
  - apply list_elem_of_In. vm_compute. tauto.
  - reflexivity.
  - reflexivity.
Defined.

End RescanFacts.

(** ** What a run does to files *)

Module EventFacts.
Import Py World Main Notions MoreNotions AudibleClientFacts LoopFacts DryRunFacts.

(** The events of each function, for a property that the queries, the log
    lines of a dry run, the cover download and every call on the file system
    other than a copy or a move have; [mv] is the mode of the run, and the
    placement of that mode has the property too. *)
Section Plain.
Context (P : event -> Prop).
Context (Htags : forall file, P (EvReadTags file)).
Context (Hget : forall url params, P (EvGet url params)).
Context (Hwould : forall x, P (EvWould x)).
Context (Hcover : forall url dst, P (EvCover url dst)).
Context (Hmkdir : forall s p, P (EvFs s (Mkdir p))).
Context (Htext : forall s p content, P (EvFs s (WriteText p content))).
Context (Hjson : forall s p data, P (EvFs s (WriteJson p data))).
Context (Hchmod : forall s p mode, P (EvFs s (Chmod p mode))).

Lemma emits_create E output_dir metadata config dry :
  emits P (FileManager.create_book_structure E output_dir metadata config dry).
Proof. unfold FileManager.create_book_structure. emits_tac. Qed.

Lemma emits_write E metadata folder_path dry create_opf :
  emits P (MetadataWriter.write_metadata_files E metadata folder_path dry create_opf).
Proof.
  unfold MetadataWriter.write_metadata_files, MetadataWriter.write_opf,
    MetadataWriter.write_text_if, MetadataWriter._safe_write.
  emits_tac.
Qed.

Lemma emits_download E cover_url save_path dry :
  emits P (AudibleClient.download_cover E cover_url save_path dry).
Proof. apply emits_cover; auto. Qed.

Lemma emits_append E output_dir original_file_path metadata :
  emits P (ProcessedLog.append_to_processed_log E output_dir original_file_path metadata).
Proof. unfold ProcessedLog.append_to_processed_log. emits_tac. Qed.

#[local] Hint Resolve emits_create emits_write emits_download emits_append : emits.

Lemma emits_asin_only_mode E config output_path dry asin_list :
  emits P (Cli.asin_only_mode E config output_path dry asin_list).
Proof.
  unfold Cli.asin_only_mode. apply emits_bind; [apply emits_lift|intros create_opf].
  induction (Cli.asins_of asin_list) as [|asin rest IH]; simpl Cli.asin_loop.
  - apply emits_ret.
  - apply emits_bind; [|intros _; exact IH].
    unfold Cli.create_from_asin. emits_tac.
Qed.

Section Mode.
Context (mv : bool).
Context (Hplace : forall s src dst, P (EvFs s (if mv then Move src dst else Copy2 src dst))).

Lemma emits_failed E source_file output_dir dry :
  emits P (FileManager.move_to_failed_folder E source_file output_dir dry mv).
Proof. unfold FileManager.move_to_failed_folder. emits_tac. Qed.

Lemma emits_organize E source_file output_dir metadata config dry :
  emits P (FileManager.organize_audio_file E source_file output_dir metadata config dry mv).
Proof.
  unfold FileManager.organize_audio_file, FileManager._safe_file_op.
  emits_tac.
Qed.

#[local] Hint Resolve emits_failed emits_organize : emits.

Lemma emits_run_loop E r c book_items :
  move_files r = mv -> emits P (run_loop E r c book_items).
Proof.
  intros Hmv. revert c. induction book_items as [|item_path rest IH]; intros c;
    simpl run_loop.
  - apply emits_ret.
  - apply emits_bind; [|intros c'; apply IH].
    unfold process_item, process, process_body, fail. rewrite Hmv.
    emits_tac.
Qed.

End Mode.

End Plain.

(** X17: a run in copy mode never moves a file: none of the calls it makes,
    for the files it places and for those it gives up, is a move. *)
Theorem copy_mode_never_moves
    (E : Env) (r : Run) (c : counts) (book_items : list path) (w : world)
    (Hcopy : move_files r = false) :
  exists evs, events (snd (run_loop E r c book_items w)) = events w ++ evs
              /\ Forall no_move evs.
Proof.
  assert (H : emits no_move (run_loop E r c book_items)); [|apply H].
  apply (emits_run_loop no_move) with (mv := false); try (intros; exact Logic.I).
  exact Hcopy.
Qed.

Lemma copy_mode_never_moves_witness :
  exists evs, events (snd (run_loop Sample.env_copy_fails (Sample.run false) Sample.zero
                             [Sample.book; Sample.second_book] start))
              = events start ++ evs
              /\ Forall no_move evs.
Proof.
  apply (copy_mode_never_moves Sample.env_copy_fails (Sample.run false)).
  reflexivity.
Defined.

(** X18: the mode that creates folders from identifiers never copies and
    never moves a file. *)
Theorem asin_only_mode_places_no_file
    (E : Env) (config : pyval) (output_path : path) (is_dry_run : bool)
    (asin_list : str) (w : world) :
  exists evs,
    events (snd (Cli.asin_only_mode E config output_path is_dry_run asin_list w))
    = events w ++ evs
    /\ Forall no_copy_or_move evs.
Proof.
  assert (H : emits no_copy_or_move
                (Cli.asin_only_mode E config output_path is_dry_run asin_list));
    [|apply H].
  apply (emits_asin_only_mode no_copy_or_move); intros; exact Logic.I.
Qed.

End EventFacts.

(** ** audible_client.py, the fetch *)

Module FetchFacts.
Import Py World AudibleClient Notions MoreNotions AudibleClientFacts.

Lemma eq_str_true R v s : eq R v (PStr s) = true -> v = PStr s.
Proof.
  destruct v; simpl; try discriminate.
  unfold str_eqb. intros H. apply bool_decide_eq_true in H. congruence.
Qed.

Lemma bind_raise {A B} (m : M A) (k : A -> M B) w e w1 :
  m w = (Raise e, w1) -> bind m k w = (Raise e, w1).
Proof. intros H. unfold bind. rewrite H. reflexivity. Qed.

Ltac fetch_done :=
  cbv beta iota; unfold lift, ret;
  split;
  [ eexists; split; [simpl; rewrite <- ?app_assoc; reflexivity|];
    unfold asked_for; cbv zeta; tauto
  | intros v Hv; simpl in Hv;
    first [ discriminate Hv
          | injection Hv as <-; left; reflexivity
          | right; do 4 eexists; repeat split; eassumption ] ].

Lemma get_metadata_by_asin_cases E asin w :
  (exists evs, events (snd (get_metadata_by_asin E (PStr asin) w)) = events w ++ evs
               /\ asked_for asin evs)
  /\ forall v, fst (get_metadata_by_asin E (PStr asin) w) = Ok v ->
       v = PNone \/ parsed_from_lookup E asin v.
Proof.
  unfold parsed_from_lookup, get_metadata_by_asin. simpl to_str.
  destruct (_make_api_request_events E (DIRECT_ASIN_URL_TEMPLATE asin) None w)
    as [data Hd].
  rewrite (bind_eq _ _ _ _ _ Hd), bind_lift.
  destruct (has_key data (lit "product")) as [[|]|e] eqn:Hk; cbv beta iota;
    [| |fetch_done].
  - rewrite bind_lift.
    destruct (getitem data (lit "product")) as [product|e] eqn:Hg; fetch_done.
  - destruct (search_by_keywords E (PStr asin) 1
                (emit (EvGet (DIRECT_ASIN_URL_TEMPLATE asin) None) w))
      as [[results|e] w2] eqn:Hs;
      pose proof (search_by_keywords_events _ _ _ _ _ _ Hs) as Hw2;
      simpl to_str in Hw2; subst w2;
      [rewrite (bind_eq _ _ _ _ _ Hs)|rewrite (bind_raise _ _ _ _ _ Hs); fetch_done].
    cbv beta iota.
    destruct (truthy results); cbn [negb]; cbv beta iota; [|fetch_done].
    rewrite bind_lift.
    destruct (getitem0 results) as [first|e]; cbv beta iota; [|fetch_done].
    rewrite bind_lift.
    destruct (get first (lit "asin") PNone) as [matched|e]; cbv beta iota;
      [|fetch_done].
    destruct (truthy matched); cbn [negb]; cbv beta iota; [|fetch_done].
    destruct (eq (runtime E) matched (PStr asin)) eqn:He; [|fetch_done].
    apply eq_str_true in He. subst matched. simpl to_str.
    destruct (_make_api_request_events E (DIRECT_ASIN_URL_TEMPLATE asin) None
                (emit (EvGet (KEYWORD_SEARCH_URL_TEMPLATE asin) (Some 1))
                   (emit (EvGet (DIRECT_ASIN_URL_TEMPLATE asin) None) w)))
      as [data2 Hd2].
    rewrite (bind_eq _ _ _ _ _ Hd2), bind_lift.
    destruct (has_key data2 (lit "product")) as [[|]|e] eqn:Hk2; cbv beta iota;
      [|fetch_done|fetch_done].
    rewrite bind_lift.
    destruct (getitem data2 (lit "product")) as [product|e] eqn:Hg; fetch_done.
Qed.

(** X19: a fetch for an identifier makes one, two or three requests and no
    other: the direct lookup of the identifier; then the keyword search for
    it; then the direct lookup again.  This holds whatever the answers are
    and also when the fetch raises. *)
Theorem fetch_asks_only_for_the_identifier (E : Env) (asin : str) (w : world) :
  exists evs, events (snd (get_metadata_by_asin E (PStr asin) w)) = events w ++ evs
              /\ asked_for asin evs.
Proof. apply get_metadata_by_asin_cases. Qed.

(** X20: what a fetch returns, when it is not None, was parsed from the
    product of an answer to the direct lookup of the identifier asked for:
    the result of the keyword search is never parsed. *)
Theorem fetch_returns_the_product_of_the_lookup
    (E : Env) (asin : str) (w w' : world) (v : pyval)
    (H : get_metadata_by_asin E (PStr asin) w = (Ok v, w'))
    (Hv : v <> PNone) :
  parsed_from_lookup E asin v.
Proof.
  destruct (proj2 (get_metadata_by_asin_cases E asin w) v) as [Hn|Hp].
  - rewrite H. reflexivity.
  - contradiction.
  - exact Hp.
Qed.

Lemma fetch_returns_the_product_witness :
  parsed_from_lookup Sample.env (lit "B0ABCD1234") (PDict Sample.parsed).
Proof.
  apply (fetch_returns_the_product_of_the_lookup Sample.env (lit "B0ABCD1234") Main.start
           (snd (get_metadata_by_asin Sample.env (Sample.ps "B0ABCD1234") Main.start))).
  - vm_compute. reflexivity.
  - discriminate.
Defined.

End FetchFacts.

(** ** main.py, the identifier in a file name *)

Module PatternFacts.
Import Py World Main Notions MoreNotions.

Ltac bools :=
  repeat match goal with
         | H : (_ && _) = true |- _ => apply andb_true_iff in H as [? ?]
         | H : (_ || _) = true |- _ => apply orb_true_iff in H as [H|H]
         | H : (_ <=? _)%N = true |- _ => apply N.leb_le in H
         | H : (_ <? _)%N = true |- _ => apply N.ltb_lt in H
         | H : (_ <? _)%N = false |- _ => apply N.ltb_ge in H
         | H : (_ =? _)%N = true |- _ => apply N.eqb_eq in H
         end.

Lemma asin_char_word R c : asin_char c = true -> is_word R c = true.
Proof.
  unfold asin_char, is_word, fold. intros H.
  destruct (c <? 128)%N eqn:Hc.
  - destruct (is_ascii_digit c); [reflexivity|]. simpl in H.
    destruct (is_ascii_lower c) eqn:Hl; [rewrite orb_true_r; reflexivity|].
    destruct (is_ascii_upper c) eqn:Hu; [reflexivity|].
    exfalso. apply bool_decide_eq_true in H. destruct H as [l Hf].
    unfold folds_to in Hf.
    repeat match type of Hf with
           | context [if ?b then _ else _] => destruct b eqn:?
           end; try discriminate Hf; bools; lia.
  - destruct (is_ascii_digit c) eqn:Hd.
    { exfalso. clear H. unfold is_ascii_digit in Hd. bools; lia. }
    destruct (is_ascii_lower c) eqn:Hl.
    { exfalso. clear H. unfold is_ascii_lower in Hl. bools; lia. }
    destruct (is_ascii_upper c) eqn:Hu.
    { exfalso. clear H. unfold is_ascii_upper in Hu. bools; lia. }
    simpl in H. rewrite H. rewrite orb_true_r. reflexivity.
Qed.

Lemma ci_b b : ci 98 b = true <-> b = 66%N \/ b = 98%N.
Proof.
  unfold ci. rewrite bool_decide_eq_true. unfold fold, folds_to. split.
  - intros H.
    destruct (is_ascii_lower b) eqn:Hl; [injection H as ->; auto|].
    destruct (is_ascii_upper b) eqn:Hu; [injection H as H; left; lia|].
    repeat match type of H with
           | context [if ?c then _ else _] => destruct c
           end; discriminate H.
  - intros [->| ->]; reflexivity.
Qed.

Lemma last_forall (P : N -> Prop) s x : Forall P s -> P x -> P (List.last s x).
Proof.
  intros Hs. revert x. induction Hs as [|y s' Hy Hs' IH]; intros x Hx; [exact Hx|].
  destruct s' as [|z t]; [exact Hy|].
  change (P (List.last (z :: t) x)). apply IH, Hx.
Qed.

Lemma last_word_of_body R body :
  length body = 8%nat -> Forall (fun c => asin_char c = true) body ->
  word_opt R (last_char body) = true.
Proof.
  intros Hlen Hall. destruct body as [|c s']; [discriminate Hlen|].
  simpl. apply asin_char_word. inversion Hall; subst.
  apply (last_forall (fun c => asin_char c = true)); assumption.
Qed.

(** The pattern at one position. *)
Lemma asin_at_here R prev s m :
  asin_at R prev s = Some m
  <-> exists post, s = m ++ post /\ asin_shaped m
                   /\ word_opt R prev = false /\ word_opt R (head post) = false.
Proof.
  unfold asin_at. split.
  - destruct s as [|b [|z rest]]; try discriminate. cbv zeta.
    destruct (boundary R prev (Some b) && ci 98 b && (z =? 48)%N
              && (length (take 8 rest) =? 8)%nat && forallb asin_char (take 8 rest)
              && boundary R (last_char (take 8 rest)) (head (drop 8 rest))) eqn:Hc;
      [|discriminate].
    intros H. injection H as <-.
    repeat (apply andb_true_iff in Hc as [Hc ?]).
    match goal with H : ci 98 b = true |- _ => apply ci_b in H; rename H into Hb end.
    match goal with H : (z =? 48)%N = true |- _ => apply N.eqb_eq in H; subst z end.
    match goal with H : (_ =? 8)%nat = true |- _ => apply Nat.eqb_eq in H; rename H into Hlen end.
    assert (Hall' : Forall (fun c => asin_char c = true) (take 8 rest)).
    { match goal with H : forallb _ _ = true |- _ =>
        apply Forall_forall; exact (proj1 (forallb_forall _ _) H) end. }
    assert (Hbw : is_word R b = true).
    { apply asin_char_word. unfold asin_char.
      destruct Hb as [->| ->]; reflexivity. }
    exists (drop 8 rest). split; [|split; [|split]].
    + simpl. rewrite take_drop. reflexivity.
    + exists b, (take 8 rest). auto.
    + unfold boundary in Hc. simpl word_opt in Hc at 2. rewrite Hbw in Hc.
      destruct (word_opt R prev); [discriminate Hc|reflexivity].
    + match goal with H : boundary _ (last_char _) _ = true |- _ =>
        unfold boundary in H; rewrite (last_word_of_body R _ Hlen Hall') in H;
        destruct (word_opt R (head (drop 8 rest))); [discriminate H|reflexivity]
      end.
  - intros (post & -> & (b & body & -> & Hb & Hlen & Hall) & Hprev & Hpost).
    cbn [app]. cbv beta iota zeta.
    assert (Htake : take 8 (body ++ post) = body)
      by (rewrite <- Hlen; apply take_app_length).
    assert (Hdrop : drop 8 (body ++ post) = post)
      by (rewrite <- Hlen; apply drop_app_length).
    rewrite Htake, Hdrop.
    assert (Hbw : is_word R b = true).
    { apply asin_char_word. unfold asin_char.
      destruct Hb as [->| ->]; reflexivity. }
    unfold boundary. simpl word_opt at 2. rewrite Hbw, Hprev, Hpost.
    rewrite (last_word_of_body R _ Hlen Hall).
    rewrite (proj2 (ci_b b) Hb), Hlen.
    assert (Hf : forallb asin_char body = true).
    { apply (proj2 (forallb_forall _ _)). rewrite Forall_forall in Hall. exact Hall. }
    rewrite Hf. reflexivity.
Qed.

Lemma last_cons (l : list N) a d : List.last (a :: l) d = List.last l a.
Proof.
  revert a d. induction l as [|b l' IH]; intros a d; [reflexivity|].
  change (List.last (a :: b :: l') d) with (List.last (b :: l') d).
  rewrite (IH b d), (IH b a). reflexivity.
Qed.

Lemma before_cons prev c pre : before prev (c :: pre) = before (Some c) pre.
Proof.
  unfold before. destruct pre as [|n pre']; [reflexivity|].
  unfold last_char. rewrite last_cons. reflexivity.
Qed.

Lemma asin_search_sound R prev s m :
  asin_search R prev s = Some m ->
  exists pre post, delimited R prev s pre m post /\ asin_shaped m.
Proof.
  revert prev. induction s as [|c rest IH]; intros prev H.
  - simpl in H. discriminate H.
  - cbn [asin_search] in H.
    destruct (asin_at R prev (c :: rest)) as [m'|] eqn:Hat.
    + injection H as <-. apply asin_at_here in Hat as (post & Hs & Hm & Hp & Hq).
      exists [], post. split; [|exact Hm]. split; [exact Hs|]. split; assumption.
    + apply IH in H as (pre & post & (Hs & Hp & Hq) & Hm).
      exists (c :: pre), post. split; [|exact Hm]. split; [|split].
      * simpl. rewrite Hs. reflexivity.
      * rewrite before_cons. exact Hp.
      * exact Hq.
Qed.

Lemma asin_search_complete R prev s pre m post :
  delimited R prev s pre m post -> asin_shaped m -> is_Some (asin_search R prev s).
Proof.
  revert prev s. induction pre as [|c pre IH]; intros prev s (Hs & Hp & Hq) Hm.
  - assert (Hat : asin_at R prev s = Some m).
    { apply asin_at_here. exists post. auto. }
    destruct s as [|x rest]; cbn [asin_search]; rewrite Hat; eauto.
  - subst s. simpl app. cbn [asin_search].
    destruct (asin_at R prev (c :: pre ++ m ++ post)); [eauto|].
    apply IH; [|exact Hm]. split; [reflexivity|]. split; [|exact Hq].
    rewrite <- (before_cons prev). exact Hp.
Qed.

(** X21: what the search of a file name for an identifier returns is a part
    of the name made of a B in either case, a zero and eight more characters
    of the class of the pattern, with no word character right before it or
    right after it. *)
Theorem filename_identifier_is_a_delimited_token
    (R : Runtime) (file_name m : str)
    (H : ASIN_IN_FILENAME_RE_search R file_name = Some m) :
  exists pre post, delimited R None file_name pre m post /\ asin_shaped m.
Proof. apply (asin_search_sound R None), H. Qed.

Lemma filename_identifier_witness :
  exists pre post,
    delimited Sample.rt None (lit "MyBook B0FILE0001.m4b") pre (lit "B0FILE0001") post
    /\ asin_shaped (lit "B0FILE0001").
Proof.
  apply (filename_identifier_is_a_delimited_token Sample.rt
           (lit "MyBook B0FILE0001.m4b") (lit "B0FILE0001")).
  reflexivity.
Defined.

(** X22: a file name that has such a token somewhere, with no word character
    right before it or right after it, always yields an identifier. *)
Theorem delimited_token_is_found
    (R : Runtime) (file_name pre m post : str)
    (Hd : delimited R None file_name pre m post) (Hm : asin_shaped m) :
  is_Some (ASIN_IN_FILENAME_RE_search R file_name).
Proof. eapply (asin_search_complete R None); eassumption. Qed.

Lemma delimited_token_is_found_witness :
  is_Some (ASIN_IN_FILENAME_RE_search Sample.rt (lit "MyBook-b0file0001.m4b")).
Proof.
  apply (delimited_token_is_found Sample.rt (lit "MyBook-b0file0001.m4b")
           (lit "MyBook-") (lit "b0file0001") (lit ".m4b")).
  - repeat split; reflexivity.
  - exists 98%N, (lit "file0001"). repeat split; [right; reflexivity|].
    repeat constructor.
Defined.

End PatternFacts.

(** ** main.py, the search term made from a file name *)

Module SearchTermFacts.
Import Py World Utils Main Notions MoreNotions UtilsFacts AsinMapFacts PatternFacts.

Lemma delim_not_folded c : is_delim c = true -> fold c = None.
Proof.
  unfold is_delim. intros H. bools; subst c; reflexivity.
Qed.

Lemma folded_not_delim c : is_Some (fold c) -> is_delim c = false.
Proof.
  intros [l Hl]. destruct (is_delim c) eqn:Hd; [|reflexivity].
  rewrite (delim_not_folded c Hd) in Hl. discriminate Hl.
Qed.

Lemma digit_not_delim R c : is_digit R c = true -> is_delim c = false.
Proof.
  unfold is_digit, is_ascii_digit. intros H.
  destruct (is_delim c) eqn:Hd; [|reflexivity]. exfalso.
  unfold is_delim in Hd. destruct (c <? 128)%N eqn:Hc; bools; subst c;
    first [lia | discriminate Hc].
Qed.

Lemma roman_not_delim c : is_roman c = true -> is_delim c = false.
Proof.
  unfold is_roman. intros H. apply folded_not_delim.
  destruct (fold c); [eauto|discriminate H].
Qed.

Lemma span_forall p s : Forall (fun c => p c = true) (fst (span p s)).
Proof.
  induction s as [|c s' IH]; simpl; [constructor|].
  destruct (p c) eqn:Hc; [|constructor].
  destruct (span p s') as [a b]. simpl in *. constructor; assumption.
Qed.

Lemma ci_prefix_take kw s :
  ci_prefix kw s = true -> free_of_delims (take (length kw) s).
Proof.
  revert s. induction kw as [|k kw' IH]; intros s H; [constructor|].
  destruct s as [|c s']; [discriminate H|]. simpl in H.
  apply andb_true_iff in H as [Hc H]. simpl. constructor; [|apply IH, H].
  apply folded_not_delim. unfold ci in Hc. apply bool_decide_eq_true in Hc. eauto.
Qed.

Lemma keyword_at_take s n : keyword_at s = Some n -> free_of_delims (take n s).
Proof.
  unfold keyword_at, keywords. cbn [List.filter].
  repeat match goal with
         | |- context [if ci_prefix ?k s then _ else _] =>
             let Hk := fresh "Hk" in
             destruct (ci_prefix k s) eqn:Hk;
             [intros H; injection H as <-; exact (ci_prefix_take _ _ Hk)|]
         end.
  discriminate.
Qed.

Lemma number_ok_forall R p after num :
  number_ok R (span p after) = Some num -> Forall (fun c => p c = true) num.
Proof.
  pose proof (span_forall p after) as H. unfold number_ok.
  destruct (span p after) as [[|c a] b]; [discriminate|]. simpl in H.
  destruct (boundary R (last_char (c :: a)) (head b)); [|discriminate].
  intros Heq. injection Heq as <-. exact H.
Qed.

Lemma keep_at_groups R prev s g1 g2 n :
  keep_at R prev s = Some (g1, g2, n) -> free_of_delims g1 /\ free_of_delims g2.
Proof.
  unfold keep_at.
  destruct (boundary R prev (head s)); [|discriminate].
  destruct (keyword_at s) as [k|] eqn:Hk; [|discriminate]. cbv zeta.
  destruct (boundary R (last_char (take k s)) (head (drop k s))); [|discriminate].
  destruct (span is_sep (drop k s)) as [seps after].
  destruct (number_ok R (span (is_digit R) after)) as [num|] eqn:Hd.
  - intros H. injection H as <- <- _. split; [apply keyword_at_take, Hk|].
    apply number_ok_forall in Hd. eapply Forall_impl; [|exact Hd].
    intros c. apply digit_not_delim.
  - destruct (number_ok R (span is_roman after)) as [num|] eqn:Hr; [|discriminate].
    intros H. injection H as <- <- _. split; [apply keyword_at_take, Hk|].
    apply number_ok_forall in Hr. eapply Forall_impl; [|exact Hr].
    intros c. apply roman_not_delim.
Qed.

Lemma keep_scan_groups R prev skip s :
  Forall (fun m => free_of_delims (fst m) /\ free_of_delims (snd m))
    (fst (keep_scan R prev skip s)).
Proof.
  revert prev skip. induction s as [|c rest IH]; intros prev skip; [constructor|].
  cbn [keep_scan]. destruct skip as [|k]; [|apply IH].
  destruct (keep_at R prev (c :: rest)) as [[[g1 g2] n]|] eqn:Hk.
  - specialize (IH (Some c) (n - 1)%nat).
    destruct (keep_scan R (Some c) (n - 1) rest) as [ms txt]. simpl in *.
    constructor; [|exact IH]. simpl. eapply keep_at_groups, Hk.
  - specialize (IH (Some c) 0%nat).
    destruct (keep_scan R (Some c) 0 rest) as [ms txt]. exact IH.
Qed.

Lemma keep_scan_text (P : N -> Prop) R prev skip s :
  Forall P s -> Forall P (snd (keep_scan R prev skip s)).
Proof.
  intros Hs. revert prev skip. induction Hs as [|c rest Hc Hrest IH];
    intros prev skip; [constructor|].
  cbn [keep_scan]. destruct skip as [|k]; [|apply IH].
  destruct (keep_at R prev (c :: rest)) as [[[g1 g2] n]|].
  - specialize (IH (Some c) (n - 1)%nat).
    destruct (keep_scan R (Some c) (n - 1) rest) as [ms txt]. exact IH.
  - specialize (IH (Some c) 0%nat).
    destruct (keep_scan R (Some c) 0 rest) as [ms txt]. simpl in *.
    constructor; assumption.
Qed.

Lemma join_strs_forall (P : N -> Prop) sep xs :
  Forall P sep -> Forall (Forall P) xs -> Forall P (join_strs sep xs).
Proof.
  intros Hsep Hxs. induction Hxs as [|x xs' Hx Hxs' IH]; [constructor|].
  destruct xs' as [|y xs'']; [exact Hx|].
  change (join_strs sep (x :: y :: xs'')) with (x ++ sep ++ join_strs sep (y :: xs'')).
  apply Forall_app. split; [exact Hx|]. apply Forall_app. split; [exact Hsep|exact IH].
Qed.

Lemma sub_runs_forall (P : N -> Prop) cls b s :
  P 32%N -> Forall P s -> Forall P (sub_runs cls b s).
Proof.
  intros H32 Hs. revert b. induction Hs as [|c rest Hc Hrest IH]; intros b;
    [constructor|].
  simpl. destruct (cls c); [destruct b|]; try constructor; auto.
Qed.

Lemma sub_runs_class_free cls b s :
  cls 32%N = false -> Forall (fun c => cls c = false) (sub_runs cls b s).
Proof.
  intros H32. revert b. induction s as [|c rest IH]; intros b; [constructor|].
  simpl. destruct (cls c) eqn:Hc; [destruct b|]; try constructor; auto.
Qed.

Lemma strip_forall (P : N -> Prop) s : Forall P s -> Forall P (strip s).
Proof.
  intros Hs. destruct (strip_split s) as (p & q & Heq & _).
  rewrite Heq in Hs. apply Forall_app in Hs as [_ Hs].
  apply Forall_app in Hs as [Hs _]. exact Hs.
Qed.

Lemma sub_runs_snoc cls b u c :
  cls c = false -> sub_runs cls b (u ++ [c]) = sub_runs cls b u ++ [c].
Proof.
  intros Hc. revert b. induction u as [|x u' IH]; intros b; simpl.
  - rewrite Hc. reflexivity.
  - destruct (cls x); [destruct b|]; simpl; rewrite IH; reflexivity.
Qed.

Lemma sub_runs_no_trail b s : no_trail s -> no_trail (sub_runs is_space b s).
Proof.
  intros H. destruct (rev s) as [|c r] eqn:Hr.
  - assert (s = []) as ->.
    { apply (f_equal (@rev N)) in Hr. rewrite rev_involutive in Hr. exact Hr. }
    exact Logic.I.
  - assert (Hs : s = rev r ++ [c]).
    { apply (f_equal (@rev N)) in Hr. rewrite rev_involutive in Hr. exact Hr. }
    unfold no_trail in H. rewrite Hr in H. simpl in H.
    rewrite Hs, sub_runs_snoc by exact H.
    unfold no_trail. rewrite rev_app_distr. simpl. exact H.
Qed.

Lemma sub_runs_no_lead s : no_lead s -> no_lead (sub_runs is_space false s).
Proof.
  destruct s as [|c rest]; simpl; [trivial|]. intros H. rewrite H. simpl. exact H.
Qed.

(** X23: the search term made from a file name has no underscore, hyphen or
    period, no whitespace other than single inner spaces, and none at either
    end. *)
Theorem search_term_is_normalised (R : Runtime) (filename : str) :
  let term := clean_filename_for_search R filename in
  free_of_delims term /\ tidy false term /\ stripped term.
Proof.
  cbv zeta. unfold clean_filename_for_search. cbv zeta.
  set (base_name := stem_of filename).
  set (series_parts :=
         join_strs [32%N]
           (map (fun m => join_strs [32%N] [fst m; snd m])
              (fst (keep_scan R None 0 base_name)))).
  set (cleaned := snd (keep_scan R None 0 (sub_runs is_delim false base_name))).
  split; [|split; [apply sub_runs_tidy|split]].
  - apply sub_runs_forall; [reflexivity|]. apply strip_forall.
    apply Forall_app. split.
    + apply keep_scan_text, sub_runs_class_free. reflexivity.
    + constructor; [reflexivity|].
      apply join_strs_forall; [repeat constructor|].
      apply Forall_map. eapply Forall_impl; [|apply keep_scan_groups].
      intros [g1 g2] [H1 H2]. simpl in *.
      apply Forall_app. split; [exact H1|]. constructor; [reflexivity|exact H2].
  - apply sub_runs_no_lead, strip_stripped.
  - apply sub_runs_no_trail, strip_stripped.
Qed.

End SearchTermFacts.

(** ** main.py, the formatter as a function of values *)

Module FormatValueFacts.
Import Py Formatter Notions MoreNotions FormatterFacts.

Lemma sbind_sret {A B} (a : A) (k : A -> S B) st : sbind (sret a) k st = k a st.
Proof. reflexivity. Qed.

Lemma sbind_assoc {A B C} (m : S A) (f : A -> S B) (k : B -> S C) st :
  sbind (sbind m f) k st = sbind m (fun a => sbind (f a) k) st.
Proof. unfold sbind. destruct (m st) as [[a|e] st']; reflexivity. Qed.

Lemma sbind_obj_setitem {B} l key v (k : unit -> S B) (st : store) d :
  st !! l = Some d ->
  sbind (obj_setitem l key v) k st = k tt (<[l := setitem key v d]> st).
Proof. intros H. unfold sbind, obj_setitem. rewrite H. reflexivity. Qed.

Lemma sbind_obj_getitem {B} l key (k : pyval -> S B) (st : store) d :
  st !! l = Some d ->
  sbind (obj_getitem l key) k st
  = match getitem (PDict d) key with Ok v => k v st | Raise e => (Raise e, st) end.
Proof.
  intros H. unfold sbind, obj_getitem. rewrite H.
  destruct (getitem (PDict d) key); reflexivity.
Qed.

Lemma album_artist_differs :
  lit "formatted_album_artist" <> lit "formatted_album_artists_list".
Proof. intros H; vm_compute in H; discriminate H. Qed.

Ltac format_step :=
  cbv beta iota; cbn [fst snd rbind];
  match goal with
  | |- context [sbind (slift ?r) _ _] =>
      rewrite sbind_slift; destruct r; cbn [rbind]; try reflexivity
  | |- context [sbind (sret _) _ _] => rewrite sbind_sret
  | |- context [sbind (sbind _ _) _ _] => rewrite sbind_assoc
  | |- context [sbind (obj_get _ _ _) _ _] =>
      erewrite sbind_obj_get by reflexivity
  | |- context [sbind (obj_copy _) _ _] =>
      erewrite sbind_obj_copy by reflexivity; cbn [length app]
  | |- context [sbind (obj_setitem _ _ _) _ _] =>
      erewrite sbind_obj_setitem by reflexivity; cbn [insert list_insert]
  | |- context [sbind (obj_getitem _ _) _ _] =>
      erewrite sbind_obj_getitem by reflexivity; cbn [getitem];
      rewrite lookup_setitem_ne by apply album_artist_differs;
      rewrite lookup_setitem_eq
  | |- context [sbind (if ?c then _ else _) _ _] => destruct c
  end.

(** The formatter on a dictionary of its own computes the five values and
    assigns them to a copy. *)
Lemma format_value_derive raw config :
  format_value raw config = rbind (derive raw config) (fun v => Ok (assign v raw)).
Proof.
  unfold format_value, apply_formatting_rules, derive. cbv zeta.
  repeat format_step; reflexivity.
Qed.

Ltac keys_differ := intros Hkeys; vm_compute in Hkeys; discriminate Hkeys.

Lemma setitem_same k v d : lookup k d = Some v -> setitem k v d = d.
Proof.
  induction d as [|[k' v'] d' IH]; simpl; [discriminate|].
  destruct (str_eqb k k') eqn:E.
  - intros H. injection H as ->. reflexivity.
  - intros H. rewrite IH by exact H. reflexivity.
Qed.

Lemma not_derived k :
  k ∉ derived_keys ->
  k <> lit "formatted_year" /\ k <> lit "formatted_album_artist"
  /\ k <> lit "formatted_album_artists_list" /\ k <> lit "formatted_artist"
  /\ k <> lit "formatted_narrator".
Proof.
  intros Hk. repeat split; intros ->; apply Hk; apply list_elem_of_In;
    unfold derived_keys; simpl; tauto.
Qed.

Lemma lookup_assign_other v d k :
  k ∉ derived_keys -> lookup k (assign v d) = lookup k d.
Proof.
  intros Hk. destruct (not_derived k Hk) as (H1 & H2 & H3 & H4 & H5).
  unfold assign. rewrite !lookup_setitem_ne by assumption. reflexivity.
Qed.

Lemma lookup_assign_year v d :
  lookup (lit "formatted_year") (assign v d) = Some (d_year v).
Proof.
  unfold assign. rewrite !lookup_setitem_ne by keys_differ. apply lookup_setitem_eq.
Qed.

Lemma lookup_assign_album_artist v d :
  lookup (lit "formatted_album_artist") (assign v d) = Some (d_album_artist v).
Proof.
  unfold assign. rewrite !lookup_setitem_ne by keys_differ. apply lookup_setitem_eq.
Qed.

Lemma lookup_assign_artists_list v d :
  lookup (lit "formatted_album_artists_list") (assign v d) = Some (d_artists_list v).
Proof.
  unfold assign. rewrite !lookup_setitem_ne by keys_differ. apply lookup_setitem_eq.
Qed.

Lemma lookup_assign_artist v d :
  lookup (lit "formatted_artist") (assign v d) = Some (d_artist v).
Proof.
  unfold assign. rewrite !lookup_setitem_ne by keys_differ. apply lookup_setitem_eq.
Qed.

Lemma lookup_assign_narrator v d :
  lookup (lit "formatted_narrator") (assign v d) = Some (d_narrator v).
Proof. unfold assign. apply lookup_setitem_eq. Qed.

Lemma assign_assign v d : assign v (assign v d) = assign v d.
Proof.
  unfold assign at 1.
  rewrite (setitem_same (lit "formatted_year")) by apply lookup_assign_year.
  rewrite (setitem_same (lit "formatted_album_artist"))
    by apply lookup_assign_album_artist.
  rewrite (setitem_same (lit "formatted_album_artists_list"))
    by apply lookup_assign_artists_list.
  rewrite (setitem_same (lit "formatted_artist")) by apply lookup_assign_artist.
  apply setitem_same, lookup_assign_narrator.
Qed.

Lemma derive_reads_source_keys a b config :
  (forall k, k ∈ source_keys -> lookup k a = lookup k b) ->
  derive a config = derive b config.
Proof.
  intros H. unfold derive, dget.
  rewrite !(H (lit "authors")), !(H (lit "narrators")), !(H (lit "release_date")),
    !(H (lit "year"))
    by (apply list_elem_of_In; unfold source_keys; simpl; tauto).
  reflexivity.
Qed.

Lemma source_keys_not_derived k : k ∈ source_keys -> k ∉ derived_keys.
Proof.
  intros Hs Hd. apply list_elem_of_In in Hs, Hd.
  unfold source_keys, derived_keys in *. simpl in Hs, Hd.
  repeat match goal with
         | H : _ \/ _ |- _ => destruct H as [H|H]
         | H : False |- _ => destruct H
         end; subst; vm_compute in Hd; discriminate Hd.
Qed.

(** X24: formatting is idempotent: the formatter leaves a dictionary that it
    returned as it is, under the same configuration. *)
Theorem formatting_twice_changes_nothing (raw d : dict) (config : pyval)
    (H : format_value raw config = Ok d) :
  format_value d config = Ok d.
Proof.
  rewrite format_value_derive in H |- *.
  destruct (derive raw config) as [v|e] eqn:Hd; [|discriminate H].
  injection H as <-.
  rewrite (derive_reads_source_keys (assign v raw) raw), Hd.
  - cbn [rbind]. f_equal. apply assign_assign.
  - intros k Hk. apply lookup_assign_other, source_keys_not_derived, Hk.
Qed.

Lemma formatting_twice_witness :
  format_value MoreSample.formatted (PDict []) = Ok MoreSample.formatted.
Proof.
  apply (formatting_twice_changes_nothing Sample.parsed MoreSample.formatted (PDict [])).
  vm_compute. reflexivity.
Defined.

(** X25: the five derived fields depend on nothing but the authors, the
    narrators, the release date and the year of the dictionary, and the
    configuration: two dictionaries that agree on these four keys get the
    same derived fields, and the formatter raises for both or for neither. *)
Theorem derived_fields_depend_on_four_keys (a b da : dict) (config : pyval)
    (Hsame : forall k, k ∈ source_keys -> lookup k a = lookup k b)
    (H : format_value a config = Ok da) :
  exists db, format_value b config = Ok db
             /\ forall k, k ∈ derived_keys -> lookup k db = lookup k da.
Proof.
  rewrite format_value_derive in H. rewrite format_value_derive.
  rewrite <- (derive_reads_source_keys a b config Hsame).
  destruct (derive a config) as [v|e]; [|discriminate H].
  injection H as <-. eexists. split; [reflexivity|].
  intros k Hk. apply list_elem_of_In in Hk. unfold derived_keys in Hk. simpl in Hk.
  repeat match goal with
         | H : _ \/ _ |- _ => destruct H as [H|H]
         | H : False |- _ => destruct H
         end; subst k.
  - rewrite !lookup_assign_year. reflexivity.
  - rewrite !lookup_assign_album_artist. reflexivity.
  - rewrite !lookup_assign_artists_list. reflexivity.
  - rewrite !lookup_assign_artist. reflexivity.
  - rewrite !lookup_assign_narrator. reflexivity.
Qed.

Lemma derived_fields_witness :
  exists db, format_value (Sample.parsed ++ [(lit "note", PNone)]) (PDict []) = Ok db
             /\ forall k, k ∈ derived_keys -> lookup k db = lookup k MoreSample.formatted.
Proof.
  apply (derived_fields_depend_on_four_keys Sample.parsed
           (Sample.parsed ++ [(lit "note", PNone)]) MoreSample.formatted (PDict [])).
  - intros k Hk. apply list_elem_of_In in Hk. unfold source_keys in Hk. simpl in Hk.
    repeat match goal with
           | H : _ \/ _ |- _ => destruct H as [H|H]
           | H : False |- _ => destruct H
           end; subst k; reflexivity.
  - vm_compute. reflexivity.
Defined.

End FormatValueFacts.

(** ** main.py, more on the waterfall *)

Module WaterfallFacts.
Import Py World Main Notions MoreNotions AudibleClientFacts FetchFacts PatternFacts.

Lemma tags_of_eq E item_path w :
  tags_of E item_path w
  = (Ok (read_tags E (events w) (path_str item_path)),
     emit (EvReadTags (path_str item_path)) w).
Proof. reflexivity. Qed.

Lemma bind_ret {A B} (a : A) (k : A -> M B) w : bind (ret a) k w = k a w.
Proof. reflexivity. Qed.

Lemma found_identifier_is_true R file_name m :
  ASIN_IN_FILENAME_RE_search R file_name = Some m -> truthy (PStr m) = true.
Proof.
  intros H. apply (asin_search_sound R None) in H as (_ & _ & _ & b & body & -> & _).
  reflexivity.
Qed.

(** X26: when the map of manual identifiers has nothing to use for a file and
    the file carries an identifier, in its tags or else in its name, the
    waterfall returns that identifier after reading the tags once and makes
    no request to the catalog.  The identifier of the tags goes before the
    one of the name. *)
Theorem identifier_in_the_file_needs_no_search
    (E : Env) (manual : dict) (input_path item_path : path) (w : world) (a : str)
    (Hmap : unmapped manual (name item_path))
    (Hid : local_identifier E w item_path = Some a) :
  resolve E (PDict manual) input_path item_path w
  = (Ok (PStr a), emit (EvReadTags (path_str item_path)) w).
Proof.
  unfold local_identifier in Hid. cbv zeta in Hid. unfold unmapped in Hmap.
  assert (Htrue : truthy (PStr a) = true).
  { destruct (nonempty (tag_asin (read_tags E (events w) (path_str item_path))))
      eqn:Hn.
    - rewrite Hid in Hn. destruct a; [discriminate Hn|reflexivity].
    - eapply found_identifier_is_true, Hid. }
  unfold resolve. cbv zeta. rewrite bind_lift. simpl contains. cbv beta iota.
  destruct (lookup (name item_path) manual) as [v|] eqn:Hl;
    [ rewrite bool_decide_eq_true_2 by eauto;
      rewrite bind_lift; simpl getitem; rewrite Hl; cbv beta iota; rewrite Hmap
    | rewrite bool_decide_eq_false_2 by (intros [? ?]; discriminate);
      rewrite bind_ret; cbv beta iota;
      change (truthy PNone) with false ];
    cbn [negb]; cbv beta iota;
    unfold bind, tags_of, ret; cbv beta iota;
    (destruct (nonempty (tag_asin (read_tags E (events w) (path_str item_path))));
     rewrite Hid; cbv beta iota;
     repeat (rewrite Htrue; cbn [negb]; cbv beta iota);
     reflexivity).
Qed.

Lemma identifier_in_the_file_witness :
  resolve Sample.env_tagged (PDict []) [lit "in"] Sample.tagged_book start
  = (Ok (PStr (lit "B0TAGTAG01")), emit (EvReadTags (path_str Sample.tagged_book)) start).
Proof.
  apply (identifier_in_the_file_needs_no_search Sample.env_tagged [] [lit "in"]
           Sample.tagged_book start (lit "B0TAGTAG01")).
  - exact Logic.I.
  - reflexivity.
Defined.

(** *** How much the waterfall asks *)

Lemma adds_ret n {A} (a : A) : adds n (ret a).
Proof.
  intros w. exists []. rewrite app_nil_r. split; [reflexivity|].
  split; [simpl; lia|constructor].
Qed.

Lemma adds_lift n {A} (r : result A) : adds n (lift r).
Proof.
  intros w. exists []. rewrite app_nil_r. split; [reflexivity|].
  split; [simpl; lia|constructor].
Qed.

Lemma adds_bind n k {A B} (m : M A) (f : A -> M B) :
  adds n m -> (forall a, adds k (f a)) -> adds (n + k) (bind m f).
Proof.
  intros Hm Hf w. unfold bind. destruct (Hm w) as (e1 & He1 & Hl1 & Hs1).
  destruct (m w) as [[a|e] w1]; simpl in He1.
  - destruct (Hf a w1) as (e2 & He2 & Hl2 & Hs2).
    exists (e1 ++ e2). rewrite He2, He1, app_assoc. split; [reflexivity|].
    split; [rewrite length_app; lia|apply Forall_app; auto].
  - exists e1. split; [exact He1|]. split; [lia|exact Hs1].
Qed.

Lemma adds_search E keywords : adds 1 (AudibleClient.search_by_keywords E keywords 1).
Proof.
  intros w.
  destruct (AudibleClient.search_by_keywords E keywords 1 w) as [r w'] eqn:Hs.
  apply search_by_keywords_events in Hs. subst w'.
  eexists. split; [reflexivity|]. split; [simpl; lia|].
  constructor; [|constructor]. eexists. reflexivity.
Qed.

Ltac adds_step :=
  cbv beta iota;
  lazymatch goal with
  | |- adds _ (ret _) => apply adds_ret
  | |- adds _ (lift _) => apply adds_lift
  | |- adds 1 (bind (AudibleClient.search_by_keywords _ _ 1) _) =>
      apply (adds_bind 1 0); [apply adds_search|intros ?]
  | |- adds ?n (bind _ _) => apply (adds_bind 0 n); [|intros ?]
  | |- adds _ (if ?b then _ else _) => destruct b
  | |- adds _ (match ?x with _ => _ end) => destruct x
  end.


End WaterfallFacts.

(** ** file_manager.py, the names it gives *)

Module NamingFacts.
Import Py World Utils FileManager Notions MoreNotions UtilsFacts AudibleClientFacts
  SanitizeFacts AsinMapFacts.

Lemma tidy_app_nonspace b s c t :
  tidy b s -> is_space c = false -> tidy false t -> tidy b (s ++ c :: t).
Proof.
  revert b. induction s as [|x s' IH]; intros b Hs Hc Ht; simpl.
  - rewrite Hc. exact Ht.
  - simpl in Hs. destruct (is_space x).
    + destruct Hs as (-> & -> & Hs). auto.
    + auto.
Qed.

Lemma tidy_app_trail b s u :
  s <> [] -> no_trail s -> tidy b s -> tidy false u -> tidy b (s ++ u).
Proof.
  revert b. induction s as [|x s' IH]; intros b Hne Hr Hs Hu; [contradiction|].
  destruct s' as [|y s''].
  - unfold no_trail in Hr. simpl in Hr. simpl. rewrite Hr. exact Hu.
  - apply no_trail_cons in Hr; [|discriminate].
    change ((x :: y :: s'') ++ u) with (x :: ((y :: s'') ++ u)).
    change (tidy b (x :: y :: s'')) with
      (if is_space x then x = 32%N /\ b = false /\ tidy true (y :: s'')
       else tidy false (y :: s'')) in Hs.
    change (tidy b (x :: (y :: s'') ++ u)) with
      (if is_space x then x = 32%N /\ b = false /\ tidy true ((y :: s'') ++ u)
       else tidy false ((y :: s'') ++ u)).
    destruct (is_space x).
    + destruct Hs as (-> & -> & Hs). repeat split. apply IH; [discriminate|auto..].
    + apply IH; [discriminate|auto..].
Qed.

Lemma no_space_tidy b s : Forall (fun c => is_space c = false) s -> tidy b s.
Proof.
  intros H. revert b. induction H as [|c s' Hc Hs IH]; intros b; simpl; [exact Logic.I|].
  rewrite Hc. apply IH.
Qed.

Lemma ends_with_period_app x m :
  m <> [] -> ends_with_period (x ++ m) = ends_with_period m.
Proof.
  intros Hne. unfold ends_with_period. rewrite rev_app_distr.
  destruct (rev m) as [|c r] eqn:Hr; [|reflexivity].
  exfalso. apply Hne. apply (f_equal (@rev N)) in Hr.
  rewrite rev_involutive in Hr. exact Hr.
Qed.

Lemma book_name_plain title artist year :
  plain_name title -> plain_text artist -> plain_text year ->
  plain_name (book_name title artist year).
Proof.
  intros (Hne & [Hf Ht Hl Hr] & Hp) [Haf Hat] [Hyf Hyt]. unfold book_name.
  change (lit " {") with [32; 123]%N. change (lit "} {") with [125; 32; 123]%N.
  change (lit "}") with [125%N].
  assert (Hbraces : tidy false ([32; 123]%N ++ artist ++ [125; 32; 123]%N ++ year ++ [125%N])).
  { simpl. repeat split. apply tidy_app_nonspace; [exact Hat|reflexivity|].
    simpl. repeat split. apply tidy_app_nonspace; [exact Hyt|reflexivity|exact Logic.I]. }
  split; [|split; [split|]].
  - destruct title; [contradiction|discriminate].
  - repeat (apply Forall_app; split); try assumption; repeat constructor.
  - apply tidy_app_trail; assumption.
  - apply no_lead_app; assumption.
  - rewrite !app_assoc. apply no_trail_app; [discriminate|reflexivity].
  - rewrite !app_assoc. rewrite ends_with_period_app by discriminate. reflexivity.
Qed.

Lemma file_name_plain name sfx :
  plain_name name -> plain_suffix sfx -> plain_name (name ++ sfx).
Proof.
  intros (Hne & [Hf Ht Hl Hr] & Hp) [Hs Hsp].
  assert (Hsf : free_of_invalid sfx).
  { eapply Forall_impl; [|exact Hs]. intros c [H _]. exact H. }
  assert (Hss : Forall (fun c => is_space c = false) sfx).
  { eapply Forall_impl; [|exact Hs]. intros c [_ H]. exact H. }
  destruct sfx as [|c sfx'].
  { rewrite app_nil_r. split; [exact Hne|]. split; [split; assumption|exact Hp]. }
  split; [|split; [split|]].
  - destruct name; [contradiction|discriminate].
  - apply Forall_app. split; assumption.
  - apply tidy_app_trail; try assumption. apply no_space_tidy, Hss.
  - apply no_lead_app; assumption.
  - apply no_trail_app; [discriminate|]. apply no_space_no_trail, Hss.
  - rewrite ends_with_period_app by discriminate. exact Hsp.
Qed.

Lemma sanitize_dyn_plain R s max_length :
  plain_name s -> Z.of_nat (length s) <= max_length ->
  sanitize_filename_dyn R (PStr s) (PInt max_length) = Ok s.
Proof.
  intros (Hne & Hw & Hp) Hlen. unfold sanitize_filename_dyn.
  destruct s as [|c rest]; [contradiction|]. cbn [truthy negb].
  rewrite sanitize_filename_id by assumption. reflexivity.
Qed.

Lemma div_plain p s : plain_name s -> div p s = p ++ [s].
Proof.
  intros (Hne & _ & Hp). unfold div.
  assert (H1 : str_eqb s [] = false).
  { unfold str_eqb. apply bool_decide_eq_false. exact Hne. }
  assert (H2 : str_eqb s [46%N] = false).
  { unfold str_eqb. apply bool_decide_eq_false. intros ->. discriminate Hp. }
  rewrite H1, H2. reflexivity.
Qed.

Lemma title_fits max_length title artist year sfx :
  Z.of_nat (length (book_name title artist year ++ sfx)) <= max_length ->
  Z.of_nat (length title) <= max_length
  /\ Z.of_nat (length (book_name title artist year)) <= max_length.
Proof. unfold book_name. rewrite !length_app. lia. Qed.

Section Plain.
Context (R : Runtime) (metadata : dict) (config : pyval) (max_length : Z).
Context (author title artist year : str) (others : list pyval).
Context (Hmax : max_filename_length config = Ok (PInt max_length)).
Context (Hauthors : lookup (lit "authors") metadata
                    = Some (PList (PStr author :: others))).
Context (Htitle : lookup (lit "title") metadata = Some (PStr title)).
Context (Hartist : lookup (lit "formatted_album_artist") metadata = Some (PStr artist)).
Context (Hyear : lookup (lit "formatted_year") metadata = Some (PStr year)).
Context (Hseries : truthy (dget (lit "series") (PStr []) metadata) = false).
Context (Pa : plain_name author) (Pt : plain_name title).
Context (Par : plain_text artist) (Py : plain_text year).
Context (Hla : Z.of_nat (length author) <= max_length).

Lemma series_is_empty :
  sanitize_filename_dyn R (dget (lit "series") (PStr []) metadata) (PInt max_length)
  = Ok [].
Proof. unfold sanitize_filename_dyn. rewrite Hseries. reflexivity. Qed.

Lemma target_folder_plain output_dir :
  Z.of_nat (length (book_name title artist year)) <= max_length ->
  target_folder_of R output_dir metadata config
  = Ok (Some (output_dir ++ [author; book_name title artist year])).
Proof.
  intros Hlen.
  destruct (title_fits max_length title artist year []
              ltac:(rewrite app_nil_r; exact Hlen)) as [Hlt _].
  pose proof series_is_empty as Hs.
  pose proof (book_name_plain title artist year Pt Par Py) as Pb.
  unfold target_folder_of. rewrite Hmax. cbn [rbind]. cbv zeta.
  unfold dget in Hs |- *. rewrite Hauthors, Htitle, Hartist, Hyear.
  cbn [truthy getitem]. rewrite Hauthors. cbn [rbind getitem0].
  rewrite (sanitize_dyn_plain R author max_length Pa Hla). cbn [rbind].
  rewrite (sanitize_dyn_plain R title max_length Pt Hlt). cbn [rbind].
  destruct title as [|t0 title'] eqn:Et; [destruct Pt as [Hne _]; contradiction|].
  rewrite <- Et in *. rewrite Hs. cbn [rbind].
  unfold braces. cbn [to_str].
  fold (book_name title artist year).
  rewrite (sanitize_dyn_plain R _ max_length Pb Hlen). cbn [rbind].
  rewrite (div_plain output_dir author Pa), (div_plain _ _ Pb).
  rewrite <- app_assoc. reflexivity.
Qed.

Lemma new_filename_plain source_file :
  plain_suffix (suffix source_file) ->
  Z.of_nat (length (book_name title artist year ++ suffix source_file)) <= max_length ->
  new_filename_of R source_file metadata config
  = Ok (book_name title artist year ++ suffix source_file).
Proof.
  intros Ps Hlen. destruct (title_fits _ _ _ _ _ Hlen) as [Hlt _].
  pose proof series_is_empty as Hs.
  pose proof (file_name_plain _ _ (book_name_plain title artist year Pt Par Py) Ps) as Pf.
  unfold new_filename_of. rewrite Hmax. cbn [rbind]. cbv zeta.
  unfold dget in Hs |- *. rewrite Htitle, Hartist, Hyear.
  rewrite (sanitize_dyn_plain R title max_length Pt Hlt). cbn [rbind].
  rewrite Hs. cbn [rbind].
  unfold braces. cbn [to_str app].
  fold (book_name title artist year).
  apply (sanitize_dyn_plain R _ max_length Pf Hlen).
Qed.

End Plain.

(** X28: for metadata without series whose first author and title are names
    that sanitizing leaves alone, and whose formatted authors and year have
    nothing to sanitize either, a dry run decides on the folder
    [author/title {authors} {year}] under the output directory and on the file
    [title {authors} {year}] with the extension of the source in it, provided
    these names are within the limit of the configuration. *)
Theorem organize_names_the_book
    (E : Env) (source_file output_dir : path) (metadata : dict) (config : pyval)
    (move : bool) (w : world) (max_length : Z)
    (author title artist year : str) (others : list pyval)
    (Hmax : max_filename_length config = Ok (PInt max_length))
    (Hauthors : lookup (lit "authors") metadata = Some (PList (PStr author :: others)))
    (Htitle : lookup (lit "title") metadata = Some (PStr title))
    (Hartist : lookup (lit "formatted_album_artist") metadata = Some (PStr artist))
    (Hyear : lookup (lit "formatted_year") metadata = Some (PStr year))
    (Hseries : truthy (dget (lit "series") (PStr []) metadata) = false)
    (Pa : plain_name author) (Pt : plain_name title)
    (Par : plain_text artist) (Py : plain_text year)
    (Ps : plain_suffix (suffix source_file))
    (Hla : Z.of_nat (length author) <= max_length)
    (Hlen : Z.of_nat (length (book_name title artist year ++ suffix source_file))
            <= max_length) :
  let folder := output_dir ++ [author; book_name title artist year] in
  let file := folder ++ [book_name title artist year ++ suffix source_file] in
  organize_audio_file E source_file output_dir metadata config true move w
  = (Ok (Some folder),
     emit (EvWould (WouldPlace move source_file file))
       (emit (EvWould (WouldCreateFolder folder)) w)).
Proof.
  cbv zeta.
  pose proof (title_fits max_length title artist year _ Hlen) as [_ Hlb].
  pose proof (file_name_plain _ _ (book_name_plain title artist year Pt Par Py) Ps) as Pf.
  unfold organize_audio_file, create_book_structure.
  unfold bind at 2. unfold lift at 1.
  rewrite (target_folder_plain (runtime E) metadata config max_length author title
             artist year others Hmax Hauthors Htitle Hartist Hyear Hseries Pa Pt Par Py
             Hla output_dir Hlb).
  unfold bind, log_would, ret, lift.
  rewrite (new_filename_plain (runtime E) metadata config max_length title
             artist year Hmax Htitle Hartist Hyear Hseries Pt Par Py source_file Ps Hlen).
  rewrite (div_plain _ _ Pf). reflexivity.
Qed.

Ltac plain_sample :=
  vm_compute;
  repeat first [ split | discriminate | reflexivity | exact Logic.I | constructor ].

Lemma organize_names_the_book_witness :
  organize_audio_file Sample.env Sample.book [lit "out"] MoreSample.formatted (PDict [])
    true false Main.start
  = (Ok (Some [lit "out"; lit "Jane Doe"; lit "My Book {Jane Doe} {2020}"]),
     emit (EvWould (WouldPlace false Sample.book Sample.placed))
       (emit (EvWould (WouldCreateFolder
                         [lit "out"; lit "Jane Doe"; lit "My Book {Jane Doe} {2020}"]))
          Main.start)).
Proof.
  apply (organize_names_the_book Sample.env Sample.book [lit "out"] MoreSample.formatted
           (PDict []) false Main.start 200
           (lit "Jane Doe") (lit "My Book") (lit "Jane Doe") (lit "2020") []).
  - reflexivity.
  - reflexivity.
  - reflexivity.
  - reflexivity.
  - reflexivity.
  - reflexivity.
  - plain_sample.
  - plain_sample.
  - plain_sample.
  - plain_sample.
  - plain_sample.
  - vm_compute. discriminate.
  - vm_compute. discriminate.
Defined.

End NamingFacts.

(** ** audible_client.py, what the parser returns *)

Module ParserFacts.
Import Py World UtilsFiles Parser Formatter Notions MoreNotions FormatterFacts
  AsinMapFacts FormatValueFacts.

Lemma contributor_names_stripped cs ns :
  contributor_names cs = Ok ns ->
  exists names, ns = map PStr names /\ Forall stripped names.
Proof.
  revert ns. induction cs as [|c rest IH]; intros ns H; simpl in H.
  - injection H as <-. exists []. split; [reflexivity|constructor].
  - unfold contributor_name in H.
    destruct (get c (lit "name") PNone) as [name|e]; [|discriminate H].
    cbn [rbind] in H.
    destruct (contributor_names rest) as [ns'|e]; cycle 1.
    { destruct (truthy name); [destruct name|]; discriminate H. }
    destruct (IH ns' eq_refl) as (names & -> & Hs).
    destruct (truthy name); [destruct name|]; try discriminate H;
      cbn [rbind] in H; injection H as <-.
    + exists (strip s :: names). split; [reflexivity|].
      constructor; [apply strip_stripped|exact Hs].
    + exists names. auto.
Qed.

Lemma get_contributors_stripped product key v :
  get_contributors product key = Ok v ->
  exists names, v = names_value names /\ Forall stripped names.
Proof.
  unfold get_contributors. destruct (iterate _) as [cs|e]; [|discriminate].
  cbn [rbind]. destruct (contributor_names cs) as [ns|e] eqn:Hn; [|discriminate].
  cbn [rbind]. intros H. injection H as <-.
  destruct (contributor_names_stripped _ _ Hn) as (names & -> & Hs).
  exists names. split; [reflexivity|exact Hs].
Qed.

Lemma all_strs_names names : all_strs (map PStr names) = Some names.
Proof. induction names as [|n rest IH]; simpl; [reflexivity|]. rewrite IH. reflexivity. Qed.

Lemma join_names sep names :
  join (PStr sep) (names_value names) = Ok (PStr (join_strs sep names)).
Proof. unfold names_value. simpl. rewrite all_strs_names. reflexivity. Qed.

Lemma format_contributors_names sep names :
  format_contributors (names_value names) (PStr sep) = Ok (PStr (join_strs sep names)).
Proof.
  unfold format_contributors. destruct names as [|n rest]; [reflexivity|].
  cbn [names_value map truthy negb]. apply (join_names sep (n :: rest)).
Qed.

(** What the parser puts under the keys of the contributors. *)
Lemma parsed_contributors R unicode_lower sequence_number web_base product_data d :
  _parse_product_json R unicode_lower sequence_number web_base product_data = Done d ->
  exists authors narrators,
    Forall stripped authors /\ Forall stripped narrators
    /\ lookup (lit "authors") d = Some (names_value authors)
    /\ lookup (lit "narrators") d = Some (names_value narrators)
    /\ lookup (lit "MP3TAG_AUTHOR") d = Some (PStr (join_strs (lit " & ") authors))
    /\ lookup (lit "MP3TAG_NARRATOR") d = Some (PStr (join_strs (lit " & ") narrators)).
Proof.
  unfold _parse_product_json. destruct product_data as [| | | | | |product];
    try discriminate.
  destruct (series_of R unicode_lower sequence_number product)
    as [[series_name series_part]|e|]; try discriminate.
  cbv zeta.
  destruct (cover_of _ _) as [cover_url|e]; [|discriminate]. cbn [rbind].
  destruct (get_contributors product (lit "authors")) as [authors|e] eqn:Ha;
    [|discriminate]. cbn [rbind].
  destruct (get_contributors product (lit "narrators")) as [narrators|e] eqn:Hn;
    [|discriminate]. cbn [rbind].
  apply get_contributors_stripped in Ha as (an & -> & Has).
  apply get_contributors_stripped in Hn as (nn & -> & Hns).
  destruct (match dget (lit "publisher_summary") (PStr []) product with
            | PStr s => Ok (PStr (strip s))
            | _ => Raise AttributeError
            end) as [description|e]; [|discriminate]. cbn [rbind].
  destruct (get _ (lit "average_rating") PNone) as [rating|e]; [|discriminate].
  cbn [rbind]. rewrite !format_contributors_names. cbn [rbind of_result].
  intros H. injection H as <-. exists an, nn. repeat split; assumption.
Qed.

(** X29: whatever the payload, when the parser returns, the authors and the
    narrators of its result are lists of strings without whitespace around
    them (an empty string among them is possible), and the two fields made for
    tagging hold them joined by " & ". *)
Theorem parser_returns_lists_of_stripped_names
    (R : Runtime) (unicode_lower : str -> str)
    (sequence_number : str -> sequence_outcome) (web_base product_data : pyval)
    (d : dict)
    (H : _parse_product_json R unicode_lower sequence_number web_base product_data
         = Done d) :
  exists authors narrators,
    Forall stripped authors /\ Forall stripped narrators
    /\ lookup (lit "authors") d = Some (names_value authors)
    /\ lookup (lit "narrators") d = Some (names_value narrators)
    /\ lookup (lit "MP3TAG_AUTHOR") d = Some (PStr (join_strs (lit " & ") authors))
    /\ lookup (lit "MP3TAG_NARRATOR") d = Some (PStr (join_strs (lit " & ") narrators)).
Proof. eapply parsed_contributors, H. Qed.

Lemma parser_returns_lists_witness :
  exists authors narrators,
    Forall stripped authors /\ Forall stripped narrators
    /\ lookup (lit "authors") MoreSample.parsed_in_full = Some (names_value authors)
    /\ lookup (lit "narrators") MoreSample.parsed_in_full = Some (names_value narrators)
    /\ lookup (lit "MP3TAG_AUTHOR") MoreSample.parsed_in_full
       = Some (PStr (join_strs (lit " & ") authors))
    /\ lookup (lit "MP3TAG_NARRATOR") MoreSample.parsed_in_full
       = Some (PStr (join_strs (lit " & ") narrators)).
Proof.
  apply (parser_returns_lists_of_stripped_names Sample.rt MoreSample.no_unicode
           MoreSample.no_number MoreSample.web_base Sample.product).
  vm_compute. reflexivity.
Defined.

(** The sample metadata of the runs above is the start of what the parser
    makes of the sample payload. *)
Lemma sample_is_parsed : take 14 MoreSample.parsed_in_full = Sample.parsed.
Proof. vm_compute. reflexivity. Qed.

Lemma join_one sep (a : str) :
  exists l, join (PStr sep) (PList (List.filter truthy [PStr a])) = Ok (PStr l).
Proof. destruct a; simpl; eauto. Qed.

Lemma join_two sep (a b : str) :
  exists l, join (PStr sep) (PList (List.filter truthy [PStr a; PStr b])) = Ok (PStr l).
Proof. destruct a, b; simpl; eauto. Qed.

(** X30: what the parser returns can always be formatted: with a
    configuration whose formatting section is a dictionary, missing or not,
    with a string for delimiter, apply_formatting_rules does not raise on the
    result of the parser. *)
Theorem parsed_metadata_can_be_formatted
    (R : Runtime) (unicode_lower : str -> str)
    (sequence_number : str -> sequence_outcome) (web_base product_data : pyval)
    (d : dict) (config : pyval) (fmt : dict) (delimiter : str)
    (H : _parse_product_json R unicode_lower sequence_number web_base product_data
         = Done d)
    (Hcfg : get config (lit "formatting") (PDict []) = Ok (PDict fmt))
    (Hdelim : dget (lit "multi_value_delimiter") (PStr (lit " & ")) fmt = PStr delimiter) :
  exists formatted, format_value d config = Ok formatted.
Proof.
  destruct (parsed_contributors _ _ _ _ _ _ H)
    as (authors & narrators & _ & _ & Ha & Hn & _).
  rewrite format_value_derive.
  assert (Hd : exists v, derive d config = Ok v); [|destruct Hd as [v ->]; eauto].
  assert (HA : dget (lit "authors") (PList []) d = names_value authors)
    by (unfold dget; rewrite Ha; reflexivity).
  assert (HN : dget (lit "narrators") (PList []) d = names_value narrators)
    by (unfold dget; rewrite Hn; reflexivity).
  unfold derive. rewrite Hcfg. cbn [rbind get]. rewrite Hdelim. cbn [rbind].
  cbv zeta. rewrite HA, HN. rewrite !join_names.
  destruct (truthy (dget (lit "single_album_artist") (PBool false) fmt)
            && truthy (names_value authors)) eqn:Hsingle.
  - destruct authors as [|a0 rest].
    { rewrite andb_false_r in Hsingle. discriminate Hsingle. }
    change (getitem0 (names_value (a0 :: rest))) with (Ok (PStr a0)).
    cbn [rbind fst snd].
    destruct (truthy (dget (lit "narrator_in_artist_field") (PBool true) fmt)
              && truthy (names_value narrators)); cbn [rbind].
    + destruct (join_two (lit " & ") a0 (join_strs delimiter narrators)) as [l ->].
      cbn [rbind]. eauto.
    + destruct (join_one (lit " & ") a0) as [l ->]. cbn [rbind]. eauto.
  - cbn [rbind fst snd].
    destruct (truthy (dget (lit "narrator_in_artist_field") (PBool true) fmt)
              && truthy (names_value narrators)); cbn [rbind].
    + destruct (join_two (lit " & ") (join_strs delimiter authors)
                  (join_strs delimiter narrators)) as [l ->].
      cbn [rbind]. eauto.
    + destruct (join_one (lit " & ") (join_strs delimiter authors)) as [l ->].
      cbn [rbind]. eauto.
Qed.

Lemma parsed_metadata_can_be_formatted_witness :
  exists formatted, format_value MoreSample.parsed_in_full (PDict []) = Ok formatted.
Proof.
  apply (parsed_metadata_can_be_formatted Sample.rt MoreSample.no_unicode
           MoreSample.no_number MoreSample.web_base Sample.product
           MoreSample.parsed_in_full (PDict []) [] (lit " & ")).
  - vm_compute. reflexivity.
  - reflexivity.
  - reflexivity.
Defined.

End ParserFacts.

(** ** A dry run and a real run side by side *)

Module SideBySideFacts.
Import Py World Formatter Main AudibleClientFacts LoopFacts Notions MoreNotions
  DryRunFacts FormatValueFacts.

(** *** Computations that return *)

Lemma returns_ret {A} (a : A) : returns a (ret a).
Proof. intros w. eexists. reflexivity. Qed.

Lemma returns_then {A B} (m : M A) (k : A -> M B) b :
  completes m -> (forall a, returns b (k a)) -> returns b (bind m k).
Proof.
  intros Hm Hk w. destruct (Hm w) as (a & w1 & H1). unfold bind. rewrite H1.
  apply Hk.
Qed.

Lemma completes_ret {A} (a : A) : completes (ret a).
Proof. intros w. eexists _, _. reflexivity. Qed.

Lemma completes_bind {A B} (m : M A) (k : A -> M B) :
  completes m -> (forall a, completes (k a)) -> completes (bind m k).
Proof.
  intros Hm Hk w. destruct (Hm w) as (a & w1 & H1). unfold bind. rewrite H1.
  apply Hk.
Qed.

Lemma completes_fs_call E s op : completes (fs_call E s op).
Proof. intros w. eexists _, _. reflexivity. Qed.

Lemma completes_exists E p : completes (exists_ E p).
Proof. intros w. eexists _, _. reflexivity. Qed.

Lemma completes_log_would x : completes (log_would x).
Proof. intros w. eexists _, _. reflexivity. Qed.

Ltac completes_step :=
  cbv beta iota;
  lazymatch goal with
  | |- completes (ret _) => apply completes_ret
  | |- completes (bind _ _) => apply completes_bind; [|intros ?]
  | |- completes (fs_call _ _ _) => apply completes_fs_call
  | |- completes (exists_ _ _) => apply completes_exists
  | |- completes (log_would _) => apply completes_log_would
  | |- completes (if ?b then _ else _) => destruct b eqn:?
  end.

(** Writing a text never raises. *)
Lemma completes_safe_write E p s : completes (MetadataWriter._safe_write E p (PStr s)).
Proof. unfold MetadataWriter._safe_write. repeat completes_step. Qed.

Lemma completes_write_text_if E p content dry :
  is_text content -> completes (MetadataWriter.write_text_if E p content dry).
Proof.
  intros Htext. unfold MetadataWriter.write_text_if.
  destruct (truthy content) eqn:Ht; [|apply completes_ret].
  destruct dry; [apply completes_ret|].
  destruct Htext as [Hf|[s ->]]; [congruence|apply completes_safe_write].
Qed.

(** What the formatter puts under formatted_narrator is a text. *)
Lemma join_text sep v x : join sep v = Ok x -> exists s, x = PStr s.
Proof.
  unfold join. destruct sep; try discriminate.
  destruct v; try discriminate.
  - intros H. injection H as <-. eauto.
  - destruct (all_strs _); [|discriminate]. intros H. injection H as <-. eauto.
  - intros H. injection H as <-. eauto.
Qed.

Lemma derive_narrator_text raw config v :
  derive raw config = Ok v -> exists s, d_narrator v = PStr s.
Proof.
  unfold derive. intros H.
  repeat match type of H with
         | rbind ?x _ = Ok _ =>
             let E := fresh "E" in
             destruct x eqn:E; cbn [rbind] in H; [|discriminate H]
         end.
  injection H as <-. cbn [d_narrator]. eapply join_text. eassumption.
Qed.

Lemma formatted_narrator_text raw config metadata :
  format_value raw config = Ok metadata ->
  is_text (dget (lit "formatted_narrator") PNone metadata).
Proof.
  rewrite format_value_derive. destruct (derive raw config) as [v|e] eqn:Hd;
    [|discriminate].
  cbn [rbind]. intros H. injection H as <-.
  destruct (derive_narrator_text _ _ _ Hd) as [s Hs].
  right. exists s. unfold dget. rewrite lookup_assign_narrator. exact Hs.
Qed.

(** The metadata files of a real run, when what is to be written can be. *)
Lemma completes_write E metadata folder_path dry create_opf :
  (if truthy create_opf then is_ok (opf_document E metadata) = true
   else is_text (dget (lit "description") PNone metadata)) ->
  is_text (dget (lit "formatted_narrator") PNone metadata) ->
  completes (MetadataWriter.write_metadata_files E metadata folder_path dry create_opf).
Proof.
  intros Hdoc Hnarrator. unfold MetadataWriter.write_metadata_files.
  apply completes_bind; [apply completes_exists|intros present].
  apply completes_bind; [repeat completes_step|intros go_on].
  destruct go_on; [|apply completes_ret].
  apply completes_bind; [|intros _; repeat completes_step].
  destruct (truthy create_opf).
  - unfold MetadataWriter.write_opf. destruct dry; [apply completes_ret|].
    destruct (opf_document E metadata) as [xml|e]; [|discriminate Hdoc].
    apply completes_bind; [intros w; eexists _, _; reflexivity|intros xml'].
    apply completes_safe_write.
  - apply completes_bind; [|intros _]; apply completes_write_text_if; assumption.
Qed.

Lemma completes_cover E cover_url save_path dry :
  covers_savable E ->
  completes (AudibleClient.download_cover E cover_url save_path dry).
Proof.
  intros Hcover. unfold AudibleClient.download_cover.
  destruct (negb (truthy cover_url)); [apply completes_ret|].
  destruct dry; [repeat completes_step|].
  intros w. specialize (Hcover (events w) cover_url save_path).
  destruct (cover_get E (events w) cover_url save_path);
    [eexists _, _; reflexivity|eexists _, _; reflexivity|contradiction].
Qed.

Lemma completes_append E output_dir p metadata :
  completes (ProcessedLog.append_to_processed_log E output_dir p metadata).
Proof.
  unfold ProcessedLog.append_to_processed_log. cbv zeta.
  apply completes_bind; [intros w; eexists _, _; reflexivity|intros _].
  apply completes_bind; [apply completes_exists|intros present].
  apply completes_bind; [repeat completes_step|intros writable].
  destruct writable; [|apply completes_ret].
  apply completes_bind; [intros w; eexists _, _; reflexivity|intros d].
  repeat completes_step.
Qed.

(** *** Two runs side by side *)

Lemma emits_grows {A} (m : M A) w : emits undecided m -> grows m w [].
Proof.
  intros Hm. destruct (Hm w) as (evs & He & Hu). unfold grows.
  rewrite He, decisions_app, (decisions_undecided _ Hu). reflexivity.
Qed.

Lemma steady_synced {A} (m : M A) : steady m -> synced m m.
Proof.
  intros (res & evs & Hu & Hm). exists res, [].
  assert (forall w, grows m w []).
  { intros w. unfold grows. rewrite Hm. simpl.
    rewrite decisions_app, (decisions_undecided _ Hu). reflexivity. }
  intros w1 w2. rewrite !Hm. auto.
Qed.

Lemma synced_raise {A} e : synced (@raise A e) (raise e).
Proof.
  exists (Raise e), []. intros w1 w2. unfold grows, raise. simpl.
  rewrite !app_nil_r. auto.
Qed.

(** Two computations that return the same value and decide nothing. *)
Lemma synced_returns {A} (a : A) (m1 m2 : M A) :
  returns a m1 -> returns a m2 -> emits undecided m1 -> emits undecided m2 ->
  synced m1 m2.
Proof.
  intros R1 R2 E1 E2. exists (Ok a), []. intros w1 w2.
  destruct (R1 w1) as [w1' H1]. destruct (R2 w2) as [w2' H2].
  rewrite H1, H2. repeat split; try reflexivity.
  - apply emits_grows, E1.
  - apply emits_grows, E2.
Qed.

Lemma grows_bind {A B} (m : M A) (k : A -> M B) w ds ds' :
  grows m w ds ->
  (forall a, fst (m w) = Ok a -> grows (k a) (snd (m w)) ds') ->
  (forall e, fst (m w) = Raise e -> ds' = []) ->
  grows (bind m k) w (ds ++ ds').
Proof.
  unfold grows, bind. intros Hm Hk He. destruct (m w) as [[a|e] w1]; simpl in *.
  - rewrite (Hk a eq_refl), Hm, app_assoc. reflexivity.
  - rewrite (He e eq_refl), app_nil_r. exact Hm.
Qed.

Lemma fst_bind_ok {A B} (m : M A) (k : A -> M B) w a :
  fst (m w) = Ok a -> fst (bind m k w) = fst (k a (snd (m w))).
Proof. unfold bind. destruct (m w) as [[a'|e] w1]; simpl; congruence. Qed.

Lemma fst_bind_raise {A B} (m : M A) (k : A -> M B) w e :
  fst (m w) = Raise e -> fst (bind m k w) = Raise e.
Proof. unfold bind. destruct (m w) as [[a'|e'] w1]; simpl; congruence. Qed.

(** The continuations need to agree only on a value that the first part can
    give. *)
Lemma synced_bind {A B} (m1 m2 : M A) (k1 k2 : A -> M B) :
  synced m1 m2 ->
  (forall a w, fst (m1 w) = Ok a -> synced (k1 a) (k2 a)) ->
  synced (bind m1 k1) (bind m2 k2).
Proof.
  intros (res & ds & Hm) Hk. destruct res as [a|e].
  - destruct (Hk a start) as (res' & ds' & Hk'); [apply (Hm start start)|].
    exists res', (ds ++ ds'). intros w1 w2.
    destruct (Hm w1 w2) as (R1 & R2 & G1 & G2).
    split; [|split; [|split]].
    + rewrite (fst_bind_ok _ _ _ _ R1). apply (Hk' _ w2).
    + rewrite (fst_bind_ok _ _ _ _ R2). apply (Hk' w1 _).
    + apply grows_bind; [exact G1| |].
      * intros a' Ha. rewrite R1 in Ha. injection Ha as <-. apply (Hk' _ w2).
      * intros e He. rewrite R1 in He. discriminate He.
    + apply grows_bind; [exact G2| |].
      * intros a' Ha. rewrite R2 in Ha. injection Ha as <-. apply (Hk' w1 _).
      * intros e He. rewrite R2 in He. discriminate He.
  - exists (Raise e), (ds ++ []). intros w1 w2.
    destruct (Hm w1 w2) as (R1 & R2 & G1 & G2).
    split; [|split; [|split]].
    + apply fst_bind_raise, R1.
    + apply fst_bind_raise, R2.
    + apply grows_bind; [exact G1| |reflexivity].
      intros a' Ha. rewrite R1 in Ha. discriminate Ha.
    + apply grows_bind; [exact G2| |reflexivity].
      intros a' Ha. rewrite R2 in Ha. discriminate Ha.
Qed.

Lemma synced_try_except {A} (m1 m2 : M A) (h1 h2 : exn -> M A) :
  synced m1 m2 -> (forall e, synced (h1 e) (h2 e)) ->
  synced (try_except m1 h1) (try_except m2 h2).
Proof.
  intros (res & ds & Hm) Hh. destruct res as [a|e].
  - exists (Ok a), ds. intros w1 w2. destruct (Hm w1 w2) as (R1 & R2 & G1 & G2).
    unfold grows, try_except in *.
    destruct (m1 w1) as [[a1|e1] w1']; simpl in R1; [|discriminate R1].
    destruct (m2 w2) as [[a2|e2] w2']; simpl in R2; [|discriminate R2].
    simpl in *. auto.
  - destruct (Hh e) as (res' & ds' & Hh').
    exists res', (ds ++ ds'). intros w1 w2.
    destruct (Hm w1 w2) as (R1 & R2 & G1 & G2).
    unfold grows, try_except in *.
    destruct (m1 w1) as [[a1|e1] w1']; simpl in R1; [discriminate R1|].
    destruct (m2 w2) as [[a2|e2] w2']; simpl in R2; [discriminate R2|].
    injection R1 as ->. injection R2 as ->. simpl in G1, G2.
    destruct (Hh' w1' w2') as (S1 & S2 & H1 & H2). unfold grows in H1, H2.
    rewrite H1, H2, G1, G2, !app_assoc. auto.
Qed.

(** The organizer decides the same placement in both modes when the folder
    can be created. *)
Lemma organize_synced E source_file output_dir metadata config move :
  folders_creatable E ->
  synced
    (FileManager.organize_audio_file E source_file output_dir metadata config true move)
    (FileManager.organize_audio_file E source_file output_dir metadata config false move).
Proof.
  intros Hdirs.
  unfold FileManager.organize_audio_file, FileManager.create_book_structure,
    FileManager._safe_file_op.
  destruct (FileManager.target_folder_of (runtime E) output_dir metadata config)
    as [[target_folder|]|e] eqn:Et.
  - destruct (FileManager.new_filename_of (runtime E) source_file metadata config)
      as [new_filename|e] eqn:En.
    + exists (Ok (Some target_folder)),
             [(source_file, div target_folder new_filename)].
      intros w1 w2. unfold grows, bind, lift, ret, log_would, fs_call. simpl.
      rewrite Hdirs. simpl. rewrite !decisions_app.
      destruct move; simpl; rewrite !app_nil_r; auto.
    + exists (Raise e), [].
      intros w1 w2. unfold grows, bind, lift, ret, log_would, fs_call. simpl.
      rewrite Hdirs. simpl. rewrite !decisions_app. simpl. auto.
  - exists (Ok None), []. intros w1 w2. unfold grows, bind, lift, ret. simpl.
    rewrite !app_nil_r. auto.
  - exists (Raise e), []. intros w1 w2. unfold grows, bind, lift, ret. simpl.
    rewrite !app_nil_r. auto.
Qed.

Section SideBySide.
Context (E : Env) (r : Run).
Context (Hfixed : fixed_inputs E) (Hdirs : folders_creatable E).
Context (Hwrite : artifacts_writable E r) (Hcover : covers_savable E).

Local Abbreviation dry := (with_dry_run true r).
Local Abbreviation real := (with_dry_run false r).

(** Giving a file up decides the same relocation in both modes: the dry run
    logs it, the real run creates the failed folder and hands the file to
    shutil. *)
Lemma fail_synced item_path : synced (fail E dry item_path) (fail E real item_path).
Proof.
  exists (Ok Failed),
    [(item_path, div (div (output_path r) FileManager.FAILED_DIR) (name item_path))].
  intros w1 w2.
  unfold grows, fail, FileManager.move_to_failed_folder, bind, ret, log_would, fs_call.
  simpl. rewrite Hdirs. simpl. rewrite !decisions_app.
  destruct (move_files r); simpl; rewrite !app_nil_r; auto.
Qed.

(** After the placement: the metadata files, the cover and, in the real run,
    the processed log. *)
Lemma rest_synced item_path metadata target_folder :
  (if truthy (create_opf r) then is_ok (opf_document E metadata) = true
   else is_text (dget (lit "description") PNone metadata)) ->
  is_text (dget (lit "formatted_narrator") PNone metadata) ->
  synced
    (MetadataWriter.write_metadata_files E metadata target_folder true (create_opf r) ;;;
     _saved <- AudibleClient.download_cover E (dget (lit "cover_url") PNone metadata)
                 (div target_folder (lit "cover.jpg")) true ;;
     ret tt ;;;
     ret Processed)
    (MetadataWriter.write_metadata_files E metadata target_folder false (create_opf r) ;;;
     _saved <- AudibleClient.download_cover E (dget (lit "cover_url") PNone metadata)
                 (div target_folder (lit "cover.jpg")) false ;;
     ProcessedLog.append_to_processed_log E (output_path r) (path_str item_path)
       metadata ;;;
     ret Processed).
Proof.
  intros Hdoc Hnarrator. apply (synced_returns Processed).
  - apply returns_then; [apply completes_write; assumption|intros _].
    apply returns_then; [apply completes_cover, Hcover|intros _].
    apply returns_then; [apply completes_ret|intros _]. apply returns_ret.
  - apply returns_then; [apply completes_write; assumption|intros _].
    apply returns_then; [apply completes_cover, Hcover|intros _].
    apply returns_then; [apply completes_append|intros _]. apply returns_ret.
  - apply emits_bind; [apply emits_write_undecided|intros _].
    apply emits_bind; [apply emits_cover; reflexivity|intros _].
    apply emits_bind; [apply emits_ret|intros _; apply emits_ret].
  - apply emits_bind; [apply emits_write_undecided|intros _].
    apply emits_bind; [apply emits_cover; reflexivity|intros _].
    apply emits_bind; [apply emits_append_undecided|intros _; apply emits_ret].
Qed.

Lemma process_body_synced item_path best_asin :
  synced (process_body E dry item_path best_asin)
         (process_body E real item_path best_asin).
Proof.
  unfold process_body.
  apply synced_bind; [apply steady_synced, steady_get_metadata, Hfixed|].
  intros raw_metadata w0 Hraw.
  destruct (negb (truthy raw_metadata)); [apply fail_synced|].
  apply synced_bind; [apply steady_synced, steady_lift|]. intros title _ _.
  destruct (negb (truthy title)); [apply fail_synced|].
  destruct raw_metadata as [| | | | | |raw]; try apply synced_raise.
  apply synced_bind; [apply steady_synced, steady_lift|]. intros metadata w1 Hfmt.
  apply synced_bind; [apply organize_synced, Hdirs|].
  intros [target_folder|] _ _; [|apply fail_synced].
  apply rest_synced.
  - apply (Hwrite best_asin w0 raw (snd (AudibleClient.get_metadata_by_asin E best_asin w0))).
    + rewrite <- Hraw. apply surjective_pairing.
    + exact Hfmt.
  - eapply formatted_narrator_text. exact Hfmt.
Qed.

Lemma process_synced item_path best_asin :
  synced (process E dry item_path best_asin) (process E real item_path best_asin).
Proof.
  unfold process. apply synced_try_except;
    [apply process_body_synced|intros _; apply fail_synced].
Qed.

(** One turn of the loop in both modes: the same decisions and the same
    counts, or the same exception. *)
Lemma process_item_synced c item_path :
  synced (process_item E dry c item_path) (process_item E real c item_path).
Proof.
  unfold process_item.
  apply synced_bind; [apply steady_synced, steady_resolve, Hfixed|].
  intros best_asin _ _.
  apply synced_bind; [|intros o _ _; apply steady_synced, steady_ret].
  destruct (negb (truthy best_asin)); [apply fail_synced|apply process_synced].
Qed.

Lemma run_loop_synced c book_items :
  synced (run_loop E dry c book_items) (run_loop E real c book_items).
Proof.
  revert c. induction book_items as [|item_path rest IH]; intros c; simpl run_loop.
  - apply steady_synced, steady_ret.
  - apply synced_bind; [apply process_item_synced|intros c' _ _; apply IH].
Qed.

End SideBySide.




(** The same when the package document cannot be built: write_opf returns
    before building it in a dry run; in a real run it raises after the file
    was placed, and the handler of the loop relocates the file. *)
Lemma dry_run_differs_when_the_package_document_fails :
  decisions (events (snd (run_scan Sample.env_no_document (Sample.run true)
                            [Sample.book] start)))
  = [(Sample.book, Sample.placed)]
  /\ decisions (events (snd (run_scan Sample.env_no_document (Sample.run false)
                               [Sample.book] start)))
     = [(Sample.book, Sample.placed);
        (Sample.book,
         [lit "out"; FileManager.FAILED_DIR; lit "MyBook_B0ABCD1234.m4b"])].
Proof. split; vm_compute; reflexivity. Qed.

End SideBySideFacts.
